(** * Pathfinding-Visualizer: a shallow embedding of the search engine of
    [advanced_pathfinding_visualizer.py] (grid, neighbour query, the four
    searches A*, Dijkstra, BFS and DFS, the event poll, path reconstruction,
    the pulse animator and the grid edits of [main]). *)

From stdpp Require Import base gmap sets list.
From Stdlib Require Import Lia Sorting.Sorted.

(* ------------------------------------------------------------------ *)
(** ** Nodes and colours *)

(** A node is identified by [Node.get_pos () = (row, col)]. *)
Abbreviation pos := (nat * nat)%type.

(** [Node.color]: every role and every search state of the program is a
    colour.  [HALO] and [FLICKER] are the two colours only
    [electric_pulse_path] writes ((150,200,255) and (255,255,200)). *)
Inductive color :=
  | WHITE | RED | GREEN | BLACK | ORANGE | PURPLE | YELLOW | HALO | FLICKER.

#[global] Instance color_eq_dec : EqDecision color.
Proof. solve_decision. Defined.

(** The colour field of every node of the grid, keyed by position. *)
Abbreviation colors := (gmap pos color).

Definition is_barrier (g : colors) (p : pos) : bool :=
  bool_decide (g !! p = Some BLACK).

(** [make_grid rows]: every node [WHITE]. *)
Definition make_grid (rows : nat) : colors :=
  list_to_map (map (fun p => (p, WHITE)) (list_prod (seq 0 rows) (seq 0 rows))).

(** [Node.update_neighbors]: down, up, right, left; the column bound is
    [total_rows] as well (the grid is square). *)
Definition update_neighbors (total_rows : nat) (g : colors) (p : pos) : list pos :=
  let '(row, col) := p in
  (if (row <? total_rows - 1) && negb (is_barrier g (row + 1, col))
   then [(row + 1, col)] else []) ++
  (if (0 <? row) && negb (is_barrier g (row - 1, col))
   then [(row - 1, col)] else []) ++
  (if (col <? total_rows - 1) && negb (is_barrier g (row, col + 1))
   then [(row, col + 1)] else []) ++
  (if (0 <? col) && negb (is_barrier g (row, col - 1))
   then [(row, col - 1)] else []).

(** The order in which the neighbour list names the four directions:
    down, up, right, left. *)
Definition dir_rank (p q : pos) : nat :=
  let '(row, col) := p in
  if decide (q = (row + 1, col)) then 0
  else if decide (q = (row - 1, col)) then 1
  else if decide (q = (row, col + 1)) then 2
  else 3.

(** [h]: Manhattan distance. *)
Definition h (p1 p2 : pos) : nat :=
  let '(x1, y1) := p1 in let '(x2, y2) := p2 in
  (Nat.max x1 x2 - Nat.min x1 x2) + (Nat.max y1 y2 - Nat.min y1 y2).

(* ------------------------------------------------------------------ *)
(** ** Python's [heapq], the engine of [queue.PriorityQueue]

    The list is the heap array.  [lt] is Python's [<] on the entries (a
    tuple comparison).  The loops carry a fuel that is never exhausted
    from the entry points ([siftdown_go] moves towards the root,
    [siftup_go] towards the leaves). *)
Module Heapq.
Section Heapq.
Context {A : Type} (lt : A -> A -> bool).

Definition parent (i : nat) : nat := (i - 1) `div` 2.

(** [_siftdown(heap, startpos, pos)], with [newitem] already read. *)
Fixpoint siftdown_go (fuel : nat) (heap : list A) (newitem : A)
    (startpos pos : nat) : list A :=
  match fuel with
  | O => <[pos:=newitem]> heap
  | S fuel' =>
      if decide (startpos < pos) then
        match heap !! parent pos with
        | Some par =>
            if lt newitem par
            then siftdown_go fuel' (<[pos:=par]> heap) newitem startpos (parent pos)
            else <[pos:=newitem]> heap
        | None => <[pos:=newitem]> heap
        end
      else <[pos:=newitem]> heap
  end.

Definition siftdown (heap : list A) (startpos pos : nat) : list A :=
  match heap !! pos with
  | Some newitem => siftdown_go (S pos) heap newitem startpos pos
  | None => heap
  end.

(** The descent loop of [_siftup]: the hole at [pos] moves to the
    smaller child ([rightpos] unless [heap[childpos] < heap[rightpos]]). *)
Fixpoint siftup_go (fuel : nat) (heap : list A) (endpos pos : nat) : list A * nat :=
  match fuel with
  | O => (heap, pos)
  | S fuel' =>
      let childpos := 2 * pos + 1 in
      if decide (childpos < endpos) then
        let rightpos := childpos + 1 in
        let childpos :=
          if decide (rightpos < endpos) then
            match heap !! childpos, heap !! rightpos with
            | Some l, Some r => if lt l r then childpos else rightpos
            | _, _ => childpos
            end
          else childpos in
        match heap !! childpos with
        | Some ch => siftup_go fuel' (<[pos:=ch]> heap) endpos childpos
        | None => (heap, pos)
        end
      else (heap, pos)
  end.

(** [_siftup(heap, pos)]: descend, put [newitem] at the leaf, sift it
    back towards [pos]. *)
Definition siftup (heap : list A) (pos : nat) : list A :=
  match heap !! pos with
  | Some newitem =>
      let '(heap', pos') := siftup_go (S (length heap)) heap (length heap) pos in
      siftdown (<[pos':=newitem]> heap') pos pos'
  | None => heap
  end.

(** [heappush]. *)
Definition heappush (heap : list A) (item : A) : list A :=
  siftdown (heap ++ [item]) 0 (length heap).

(** [heappop]: [None] where Python would raise [IndexError]. *)
Definition heappop (heap : list A) : option (A * list A) :=
  match reverse heap with
  | [] => None
  | lastelt :: rrest =>
      match reverse rrest with
      | [] => Some (lastelt, [])
      | returnitem :: rest => Some (returnitem, siftup (lastelt :: rest) 0)
      end
  end.
End Heapq.
End Heapq.

(* ------------------------------------------------------------------ *)
(** ** Run-control flags and [_process_events_during_algorithm] *)

(** The three globals [STOP_SEARCH], [PAUSE_SEARCH], [CLEAR_ON_STOP]. *)
Record ctl := mkctl {
  STOP_SEARCH : bool;
  PAUSE_SEARCH : bool;
  CLEAR_ON_STOP : bool }.

Definition ctl_reset : ctl := mkctl false false false.

Inductive key := K_c | K_ESCAPE | K_p | K_other (k : nat).
Inductive event := QUIT | KEYDOWN (k : key) | OTHER_EVENT.

#[global] Instance key_eq_dec : EqDecision key.
Proof. solve_decision. Defined.
#[global] Instance event_eq_dec : EqDecision event.
Proof. solve_decision. Defined.

(** The loop [for ev in pygame.event.get()] of
    [_process_events_during_algorithm], over the batch [evs] the call
    returned; each of the four control events [return]s. *)
Fixpoint process_events (evs : list event) (c : ctl) : ctl :=
  match evs with
  | [] => c
  | QUIT :: _ => mkctl true (PAUSE_SEARCH c) false
  | KEYDOWN K_c :: _ => mkctl true (PAUSE_SEARCH c) true
  | KEYDOWN K_ESCAPE :: _ => mkctl true (PAUSE_SEARCH c) false
  | KEYDOWN K_p :: _ => mkctl (STOP_SEARCH c) (negb (PAUSE_SEARCH c)) (CLEAR_ON_STOP c)
  | _ :: evs' => process_events evs' c
  end.

(** The four events on which that loop returns. *)
Definition is_control (e : event) : bool :=
  match e with
  | QUIT | KEYDOWN K_c | KEYDOWN K_ESCAPE | KEYDOWN K_p => true
  | _ => false
  end.

Fixpoint first_control (evs : list event) : option event :=
  match evs with
  | [] => None
  | e :: evs' => if is_control e then Some e else first_control evs'
  end.

(** The event queue, as the successive batches [pygame.event.get()]
    returns: each call removes one whole batch (an empty one when nothing
    is pending). *)
Abbreviation events := (list (list event)).

Definition event_get (src : events) : list event * events :=
  match src with
  | [] => ([], [])
  | b :: rest => (b, rest)
  end.

(** One call of [_process_events_during_algorithm ()]. *)
Definition poll (c : ctl) (src : events) : ctl * events :=
  let '(b, rest) := event_get src in (process_events b c, rest).

(** [while PAUSE_SEARCH and not STOP_SEARCH: _process_events_during_algorithm()];
    [None] when the fuel runs out (the program would still be waiting). *)
Fixpoint pause_wait (fuel : nat) (c : ctl) (src : events) : option (ctl * events) :=
  match fuel with
  | O => None
  | S fuel' =>
      if PAUSE_SEARCH c && negb (STOP_SEARCH c)
      then let '(c', src') := poll c src in pause_wait fuel' c' src'
      else Some (c, src)
  end.

(* ------------------------------------------------------------------ *)
(** ** [reconstruct_path] and [electric_pulse_path] *)

(** [while current in came_from: current = came_from[current];
    current.make_path(); path_nodes.append(current)].  The walk visits
    distinct keys of an acyclic map, so [size came_from] rounds suffice. *)
Fixpoint reconstruct_go (fuel : nat) (came_from : gmap pos pos) (current : pos)
    (g : colors) (path_nodes : list pos) : colors * list pos :=
  match fuel with
  | O => (g, path_nodes)
  | S fuel' =>
      match came_from !! current with
      | Some prev =>
          reconstruct_go fuel' came_from prev (<[prev:=YELLOW]> g) (path_nodes ++ [prev])
      | None => (g, path_nodes)
      end
  end.

Definition reconstruct_path (came_from : gmap pos pos) (current : pos) (g : colors)
    : colors * list pos :=
  reconstruct_go (size came_from) came_from current g [].

(** [n.color = original[n]]. *)
Definition restore (original : gmap pos color) (g : colors) (n : pos) : colors :=
  match original !! n with
  | Some c => <[n:=c]> g
  | None => g
  end.

(** One pass [for i, node in enumerate(path)] of the pulse; [flick] holds
    the outcomes of [random.random() < 0.1], one per step. *)
Fixpoint pulse_pass (path : list pos) (original : gmap pos color) (i : nat)
    (todo : list pos) (g : colors) (flick : list bool) : colors * list bool :=
  match todo with
  | [] => (g, flick)
  | node :: todo' =>
      let g1 := if decide (2 <= i) then
                  match path !! (i - 2) with Some n => restore original g n | None => g end
                else g in
      let g2 := if decide (1 <= i) then
                  match path !! (i - 1) with Some n => restore original g1 n | None => g1 end
                else g1 in
      let '(fl, flick') := match flick with [] => (false, []) | b :: fl => (b, fl) end in
      let g3 := if fl then <[node:=FLICKER]> g2 else g2 in
      let g4 := match path !! (i + 1) with Some n => <[n:=HALO]> g3 | None => g3 end in
      pulse_pass path original (S i) todo' g4 flick'
  end.

(** [for _ in range(pulses)]: a pass, then [for n in path: n.color = original[n]]. *)
Fixpoint pulses_loop (pulses : nat) (path : list pos) (original : gmap pos color)
    (g : colors) (flick : list bool) : colors * list bool :=
  match pulses with
  | O => (g, flick)
  | S k =>
      let '(g1, flick1) := pulse_pass path original 0 path g flick in
      pulses_loop k path original (foldl (restore original) g1 path) flick1
  end.

Definition electric_pulse_path (path_nodes : list pos) (g : colors) (pulses : nat)
    (flick : list bool) : colors :=
  match path_nodes with
  | [] => g
  | _ =>
      let path := reverse path_nodes in
      let original : gmap pos color :=
        list_to_map (map (fun n => (n, default WHITE (g !! n))) path) in
      let '(g1, _) := pulses_loop pulses path original g flick in
      foldl (fun g n => <[n:=YELLOW]> g) g1 path
  end.

(* ------------------------------------------------------------------ *)
(** ** The loop shared by the four searches

    [a_star], [dijkstra], [bfs] and [dfs] have one skeleton: poll, wait
    while paused, pop [current]; on [end] reconstruct, [end.make_end()],
    pulse, [return True]; else process the neighbours, then
    [current.make_closed()] unless [current] is [start].  They differ in
    the frontier ([empty], [get]) and in the neighbour loop ([relax]).
    The check [if STOP_SEARCH: return False] inside the neighbour loop
    never fires: no poll happens between it and the check after the
    pause loop. *)
Record outcome := mkoutcome {
  found : bool;               (** the returned value *)
  out_colors : colors;        (** the grid afterwards *)
  out_ctl : ctl;              (** the globals afterwards *)
  out_src : events;           (** the events still pending *)
  expanded : list pos;        (** the nodes popped and processed, in order *)
  out_path : list pos;        (** [path_nodes] on [return True], else [] *)
  out_came_from : gmap pos pos }. (** [came_from] when the run returns *)

Section Search.
Context {St : Type}.
Variable empty : St -> bool.
Variable get : St -> option (pos * St).
Variable relax : pos -> St -> colors -> St * colors.
Variable came_from : St -> gmap pos pos.
Variables (start end_ : pos).
(** [animate = false] is the program with the [electric_pulse_path]
    call removed. *)
Variable animate : bool.

Fixpoint search_loop (fuel : nat) (st : St) (g : colors) (c : ctl) (src : events)
    (flick : list bool) (trace : list pos) : option outcome :=
  match fuel with
  | O => None
  | S fuel' =>
      if empty st then Some (mkoutcome false g c src trace [] (came_from st)) else
      let '(c1, src1) := poll c src in
      if STOP_SEARCH c1 then Some (mkoutcome false g c1 src1 trace [] (came_from st)) else
      match pause_wait fuel' c1 src1 with
      | None => None
      | Some (c2, src2) =>
          if STOP_SEARCH c2 then Some (mkoutcome false g c2 src2 trace [] (came_from st)) else
          match get st with
          | None => None
          | Some (current, st1) =>
              if decide (current = end_) then
                let '(g1, path_nodes) := reconstruct_path (came_from st1) end_ g in
                let g2 := <[end_:=PURPLE]> g1 in
                let g3 := if animate then electric_pulse_path path_nodes g2 1 flick else g2 in
                Some (mkoutcome true g3 c2 src2 trace path_nodes (came_from st1))
              else
                let '(st2, g1) := relax current st1 g in
                let g2 := if decide (current <> start) then <[current:=RED]> g1 else g1 in
                search_loop fuel' st2 g2 c2 src2 flick (trace ++ [current])
          end
      end
  end.

(** A run: the flags are reset first. *)
Definition run (fuel : nat) (st0 : St) (g : colors) (src : events) (flick : list bool)
    : option outcome :=
  search_loop fuel st0 g ctl_reset src flick [].
End Search.

(** [temp < g_score[neighbor]] where a missing key is [float("inf")]. *)
Definition lt_inf (temp : nat) (d : option nat) : bool :=
  match d with Some d => temp <? d | None => true end.

(* ------------------------------------------------------------------ *)
(** ** [a_star], with its heuristic as a parameter ([h] in the program) *)

Abbreviation astar_entry := (nat * nat * pos)%type.

(** Python's [<] on [(f_score, count, node)]: [Node.__lt__] is [False]. *)
Definition astar_lt (e1 e2 : astar_entry) : bool :=
  let '(f1, c1, _) := e1 in let '(f2, c2, _) := e2 in
  (f1 <? f2) || ((f1 =? f2) && (c1 <? c2)).

Record astar_state := mkastar {
  open_set : list astar_entry;
  count : nat;
  a_came_from : gmap pos pos;
  g_score : gmap pos nat;           (** a missing key is [float("inf")] *)
  f_score : gmap pos nat;
  open_set_hash : gset pos }.

Definition astar_init (heur : pos -> pos -> nat) (start end_ : pos) : astar_state :=
  mkastar [(0, 0, start)] 0 ∅ {[start := 0]} {[start := heur start end_]} {[start]}.

Definition astar_empty (st : astar_state) : bool := bool_decide (open_set st = []).

(** [current = open_set.get()[2]] and the removal from [open_set_hash]. *)
Definition astar_get (st : astar_state) : option (pos * astar_state) :=
  match Heapq.heappop astar_lt (open_set st) with
  | None => None
  | Some ((_, _, current), rest) =>
      let hash := if bool_decide (current ∈ open_set_hash st)
                  then open_set_hash st ∖ {[current]} else open_set_hash st in
      Some (current, mkastar rest (count st) (a_came_from st) (g_score st) (f_score st) hash)
  end.

(** One round of [for neighbor in current.neighbors]. *)
Definition astar_relax_one (heur : pos -> pos -> nat) (end_ current : pos)
    (acc : astar_state * colors) (neighbor : pos) : astar_state * colors :=
  let '(st, g) := acc in
  match g_score st !! current with
  | None => (st, g)
  | Some gc =>
      let temp_g := gc + 1 in
      if lt_inf temp_g (g_score st !! neighbor) then
        let cf := <[neighbor:=current]> (a_came_from st) in
        let gs := <[neighbor:=temp_g]> (g_score st) in
        let fv := temp_g + heur neighbor end_ in
        let fs := <[neighbor:=fv]> (f_score st) in
        if bool_decide (neighbor ∈ open_set_hash st)
        then (mkastar (open_set st) (count st) cf gs fs (open_set_hash st), g)
        else
          let cnt := count st + 1 in
          (mkastar (Heapq.heappush astar_lt (open_set st) (fv, cnt, neighbor)) cnt cf gs fs
                   ({[neighbor]} ∪ open_set_hash st),
           <[neighbor:=GREEN]> g)
      else (st, g)
  end.

Definition astar_relax (heur : pos -> pos -> nat) (nbrs : pos -> list pos) (end_ : pos)
    (current : pos) (st : astar_state) (g : colors) : astar_state * colors :=
  foldl (astar_relax_one heur end_ current) (st, g) (nbrs current).

(** [a_star (draw, grid, start, end, ...)]: [nbrs] are the lists
    [update_neighbors] built before the run. *)
Definition a_star_h (heur : pos -> pos -> nat) (nbrs : pos -> list pos) (start end_ : pos)
    (fuel : nat) (g : colors) (src : events) (flick : list bool) : option outcome :=
  run astar_empty astar_get (astar_relax heur nbrs end_) a_came_from start end_ true
      fuel (astar_init heur start end_) g src flick.

Definition a_star := a_star_h h.

(* ------------------------------------------------------------------ *)
(** ** [dijkstra] *)

Abbreviation dijkstra_entry := (nat * pos)%type.

(** Python's [<] on [(dist, node)]: [Node.__lt__] is [False]. *)
Definition dijkstra_lt (e1 e2 : dijkstra_entry) : bool := e1.1 <? e2.1.

Record dijkstra_state := mkdijkstra {
  pq : list dijkstra_entry;
  dist : gmap pos nat;              (** a missing key is [float("inf")] *)
  d_came_from : gmap pos pos }.

Definition dijkstra_init (start : pos) : dijkstra_state :=
  mkdijkstra [(0, start)] {[start := 0]} ∅.

Definition dijkstra_empty (st : dijkstra_state) : bool := bool_decide (pq st = []).

(** [current = pq.get()[1]]. *)
Definition dijkstra_get (st : dijkstra_state) : option (pos * dijkstra_state) :=
  match Heapq.heappop dijkstra_lt (pq st) with
  | None => None
  | Some ((_, current), rest) => Some (current, mkdijkstra rest (dist st) (d_came_from st))
  end.

Definition dijkstra_relax_one (current : pos) (acc : dijkstra_state * colors)
    (neighbor : pos) : dijkstra_state * colors :=
  let '(st, g) := acc in
  match dist st !! current with
  | None => (st, g)
  | Some dc =>
      let temp := dc + 1 in
      if lt_inf temp (dist st !! neighbor) then
        (mkdijkstra (Heapq.heappush dijkstra_lt (pq st) (temp, neighbor))
                    (<[neighbor:=temp]> (dist st)) (<[neighbor:=current]> (d_came_from st)),
         <[neighbor:=GREEN]> g)
      else (st, g)
  end.

Definition dijkstra_relax (nbrs : pos -> list pos) (current : pos) (st : dijkstra_state)
    (g : colors) : dijkstra_state * colors :=
  foldl (dijkstra_relax_one current) (st, g) (nbrs current).

Definition dijkstra (nbrs : pos -> list pos) (start end_ : pos) (fuel : nat) (g : colors)
    (src : events) (flick : list bool) : option outcome :=
  run dijkstra_empty dijkstra_get (dijkstra_relax nbrs) d_came_from start end_ true
      fuel (dijkstra_init start) g src flick.

(* ------------------------------------------------------------------ *)
(** ** [bfs] ([Queue]: [put] appends, [get] takes the head) *)

Record bfs_state := mkbfs {
  queue : list pos;
  b_came_from : gmap pos pos;
  b_visited : gset pos }.

Definition bfs_init (start : pos) : bfs_state := mkbfs [start] ∅ {[start]}.

Definition bfs_empty (st : bfs_state) : bool := bool_decide (queue st = []).

Definition bfs_get (st : bfs_state) : option (pos * bfs_state) :=
  match queue st with
  | [] => None
  | current :: rest => Some (current, mkbfs rest (b_came_from st) (b_visited st))
  end.

Definition bfs_relax_one (current : pos) (acc : bfs_state * colors) (neighbor : pos)
    : bfs_state * colors :=
  let '(st, g) := acc in
  if bool_decide (neighbor ∈ b_visited st) then (st, g)
  else (mkbfs (queue st ++ [neighbor]) (<[neighbor:=current]> (b_came_from st))
              ({[neighbor]} ∪ b_visited st),
        <[neighbor:=GREEN]> g).

Definition bfs_relax (nbrs : pos -> list pos) (current : pos) (st : bfs_state) (g : colors)
    : bfs_state * colors :=
  foldl (bfs_relax_one current) (st, g) (nbrs current).

Definition bfs (nbrs : pos -> list pos) (start end_ : pos) (fuel : nat) (g : colors)
    (src : events) (flick : list bool) : option outcome :=
  run bfs_empty bfs_get (bfs_relax nbrs) b_came_from start end_ true
      fuel (bfs_init start) g src flick.

(* ------------------------------------------------------------------ *)
(** ** [dfs] ([LifoQueue]: [put] appends, [get] takes the last element) *)

Record dfs_state := mkdfs {
  stack : list pos;
  s_came_from : gmap pos pos;
  s_visited : gset pos }.

Definition dfs_init (start : pos) : dfs_state := mkdfs [start] ∅ {[start]}.

Definition dfs_empty (st : dfs_state) : bool := bool_decide (stack st = []).

Definition dfs_get (st : dfs_state) : option (pos * dfs_state) :=
  match reverse (stack st) with
  | [] => None
  | current :: rrest => Some (current, mkdfs (reverse rrest) (s_came_from st) (s_visited st))
  end.

Definition dfs_relax_one (current : pos) (acc : dfs_state * colors) (neighbor : pos)
    : dfs_state * colors :=
  let '(st, g) := acc in
  if bool_decide (neighbor ∈ s_visited st) then (st, g)
  else (mkdfs (stack st ++ [neighbor]) (<[neighbor:=current]> (s_came_from st))
              ({[neighbor]} ∪ s_visited st),
        <[neighbor:=GREEN]> g).

Definition dfs_relax (nbrs : pos -> list pos) (current : pos) (st : dfs_state) (g : colors)
    : dfs_state * colors :=
  foldl (dfs_relax_one current) (st, g) (nbrs current).

Definition dfs (nbrs : pos -> list pos) (start end_ : pos) (fuel : nat) (g : colors)
    (src : events) (flick : list bool) : option outcome :=
  run dfs_empty dfs_get (dfs_relax nbrs) s_came_from start end_ true
      fuel (dfs_init start) g src flick.

(* ------------------------------------------------------------------ *)
(** ** [main]: grid edits and the SPACE handler *)

(** The locals [grid], [start], [end] of [main] ([None] for Python's
    [None]). *)
Record app_state := mkapp {
  app_grid : colors;
  app_start : option pos;
  app_end : option pos }.

Definition app_init (rows : nat) : app_state := mkapp (make_grid rows) None None.

(** [if 0 <= row < ROWS and 0 <= col < ROWS]. *)
Definition in_grid (rows : nat) (p : pos) : bool := (p.1 <? rows) && (p.2 <? rows).

(** A [MOUSEBUTTONDOWN] on the grid cell [p]. *)
Definition paint (rows : nat) (p : pos) (s : app_state) : app_state :=
  if in_grid rows p then
    if bool_decide (app_start s = None) && bool_decide (Some p <> app_end s) then
      mkapp (<[p:=ORANGE]> (app_grid s)) (Some p) (app_end s)
    else if bool_decide (app_end s = None) && bool_decide (Some p <> app_start s) then
      mkapp (<[p:=PURPLE]> (app_grid s)) (app_start s) (Some p)
    else if bool_decide (Some p <> app_end s) && bool_decide (Some p <> app_start s) then
      mkapp (<[p:=BLACK]> (app_grid s)) (app_start s) (app_end s)
    else s
  else s.

(** Any other event with the right button held, over the grid cell [p]. *)
Definition erase (rows : nat) (p : pos) (s : app_state) : app_state :=
  if in_grid rows p then
    let g := <[p:=WHITE]> (app_grid s) in
    if bool_decide (Some p = app_start s) then mkapp g None (app_end s)
    else if bool_decide (Some p = app_end s) then mkapp g (app_start s) None
    else mkapp g (app_start s) (app_end s)
  else s.

(** The [K_c] key while idle. *)
Definition clear (rows : nat) (s : app_state) : app_state := app_init rows.

Inductive edit := Paint (p : pos) | Erase (p : pos) | ClearKey.

Definition apply_edit (rows : nat) (s : app_state) (e : edit) : app_state :=
  match e with
  | Paint p => paint rows p s
  | Erase p => erase rows p s
  | ClearKey => clear rows s
  end.

(** The SPACE handler first resets every node that is neither a barrier,
    [start] nor [end]. *)
Definition space_grid (g : colors) (start end_ : pos) : colors :=
  map_imap (fun p c => Some (if bool_decide (c = BLACK) || bool_decide (p = start)
                                || bool_decide (p = end_) then c else WHITE)) g.

Inductive algo := AStar | Dijkstra | BFS | DFS.

(** The SPACE handler: reset, [update_neighbors] for every node, run the
    chosen search. *)
Definition run_algo (a : algo) (rows : nat) (g : colors) (start end_ : pos) (fuel : nat)
    (src : events) (flick : list bool) : option outcome :=
  let g' := space_grid g start end_ in
  let nbrs := update_neighbors rows g' in
  match a with
  | AStar => a_star nbrs start end_ fuel g' src flick
  | Dijkstra => dijkstra nbrs start end_ fuel g' src flick
  | BFS => bfs nbrs start end_ fuel g' src flick
  | DFS => dfs nbrs start end_ fuel g' src flick
  end.

(** The same handler, in a program whose four searches do not call
    [electric_pulse_path]. *)
Definition run_algo_without_pulse (a : algo) (rows : nat) (g : colors) (start end_ : pos)
    (fuel : nat) (src : events) (flick : list bool) : option outcome :=
  let g' := space_grid g start end_ in
  let nbrs := update_neighbors rows g' in
  match a with
  | AStar => run astar_empty astar_get (astar_relax h nbrs end_) a_came_from start end_ false
               fuel (astar_init h start end_) g' src flick
  | Dijkstra => run dijkstra_empty dijkstra_get (dijkstra_relax nbrs) d_came_from start end_
                  false fuel (dijkstra_init start) g' src flick
  | BFS => run bfs_empty bfs_get (bfs_relax nbrs) b_came_from start end_ false
             fuel (bfs_init start) g' src flick
  | DFS => run dfs_empty dfs_get (dfs_relax nbrs) s_came_from start end_ false
             fuel (dfs_init start) g' src flick
  end.

(** A grid as [main] builds it: [Paint] the start, the end, then each
    barrier. *)
Definition setup (rows : nat) (start end_ : pos) (barriers : list pos) : app_state :=
  foldl (apply_edit rows) (app_init rows) (Paint start :: Paint end_ :: map Paint barriers).

(* ------------------------------------------------------------------ *)
(** ** Mouse positions: [get_clicked_pos] and the squares [Node.draw] fills *)

(** [get_clicked_pos (pos, rows, width)]: [gap = width // rows],
    [y, x = pos], [row = y // gap], [col = x // gap].  [None] where
    Python raises [ZeroDivisionError] ([gap = 0], [rows = 0] included). *)
Definition get_clicked_pos (mouse : nat * nat) (rows width : nat) : option pos :=
  let gap := width `div` rows in
  if bool_decide (gap = 0) then None
  else let '(y, x) := mouse in Some (y `div` gap, x `div` gap).



(** [main]'s [MOUSEBUTTONDOWN] branch for a click in the grid section
    ([mouse_x < grid_width]): [get_clicked_pos], the bounds check, then the
    paint logic.  [None] when [get_clicked_pos] raises: the [except]
    clause catches only [ValueError] and [IndexError]. *)
Definition grid_click (rows width : nat) (mouse : nat * nat) (s : app_state)
    : option app_state :=
  match get_clicked_pos mouse rows width with
  | Some p => Some (paint rows p s)
  | None => None
  end.

(** [main]'s right-button branch, in the grid section. *)
Definition grid_erase (rows width : nat) (mouse : nat * nat) (s : app_state)
    : option app_state :=
  match get_clicked_pos mouse rows width with
  | Some p => Some (erase rows p s)
  | None => None
  end.

(** [main]'s SPACE handler, [if event.key == pygame.K_SPACE and start and
    end]: reset the grid, run the chosen search ([sel = None] is
    [algo == "None"]: [result = None]), then [if STOP_SEARCH and
    CLEAR_ON_STOP]: a fresh grid, no start, no end, the three flags reset.
    The searches reset the flags when they start.  [None] when the search
    does not return (its fuel runs out). *)
Definition space_handler (sel : option algo) (rows : nat) (s : app_state) (c : ctl)
    (fuel : nat) (src : events) (flick : list bool) : option (app_state * ctl * events) :=
  match app_start s, app_end s with
  | Some start, Some end_ =>
      let res :=
        match sel with
        | Some a =>
            match run_algo a rows (app_grid s) start end_ fuel src flick with
            | Some o => Some (out_colors o, out_ctl o, out_src o)
            | None => None
            end
        | None => Some (space_grid (app_grid s) start end_, c, src)
        end in
      match res with
      | None => None
      | Some (g', c', src') =>
          if STOP_SEARCH c' && CLEAR_ON_STOP c' then Some (app_init rows, ctl_reset, src')
          else Some (mkapp g' (Some start) (Some end_), c', src')
      end
  | _, _ => Some (s, c, src)
  end.

(* ==================================================================== *)
(** * Proofs *)

(* ------------------------------------------------------------------ *)
(** ** [heapq] keeps the heap invariant and its contents *)
Module HeapqFacts.
Import Heapq.
Section HeapqFacts.
Context {A : Type} (lt : A -> A -> bool).
(** Python's [<] on the entries is a strict weak order. *)
Hypothesis lt_asym : forall a b, lt a b = true -> lt b a = false.
Hypothesis lt_negtrans : forall a b c, lt a c = true -> lt a b = true \/ lt b c = true.

Lemma lt_irrefl a : lt a a = false.
Proof. destruct (lt a a) eqn:E; [|done]. by rewrite (lt_asym _ _ E) in E. Qed.

Lemma not_lt_trans a b c : lt a b = false -> lt b c = false -> lt a c = false.
Proof.
  intros H1 H2. destruct (lt a c) eqn:E; [|done].
  destruct (lt_negtrans a b c E) as [E'|E']; congruence.
Qed.

(** The invariant of [heapq]: no entry is smaller than its parent. *)
Definition heap_ok (hp : list A) : Prop :=
  forall i x p, 0 < i -> hp !! i = Some x -> hp !! parent i = Some p -> lt x p = false.

Lemma parent_cases i : 0 < i -> i = 2 * parent i + 1 \/ i = 2 * parent i + 2.
Proof.
  intros Hi. unfold parent.
  pose proof (Nat.div_mod_eq (i - 1) 2). pose proof (Nat.mod_upper_bound (i - 1) 2).
  lia.
Qed.

Lemma parent_lt i : 0 < i -> parent i < i.
Proof. intros Hi. destruct (parent_cases i Hi); lia. Qed.

Lemma parent_of_child k i : i = 2 * k + 1 \/ i = 2 * k + 2 -> parent i = k.
Proof.
  intros Hi. unfold parent. symmetry.
  destruct Hi as [->| ->].
  - apply (Nat.div_unique _ _ _ 0); lia.
  - apply (Nat.div_unique _ _ _ 1); lia.
Qed.

Lemma child_of_parent k i : 0 < i -> parent i = k -> i = 2 * k + 1 \/ i = 2 * k + 2.
Proof. intros Hi <-. by apply parent_cases. Qed.

(** The root of a heap is a minimum. *)
Lemma heap_ok_root hp m : heap_ok hp -> hp !! 0 = Some m ->
  forall i x, hp !! i = Some x -> lt x m = false.
Proof.
  intros Hok Hm i. induction i as [i IH] using lt_wf_ind. intros x Hx.
  destruct (decide (i = 0)) as [->|Hi].
  - rewrite Hm in Hx. injection Hx as <-. apply lt_irrefl.
  - assert (Hpl : parent i < i) by (apply parent_lt; lia).
    destruct (lookup_lt_is_Some_2 hp (parent i)) as [p Hp].
    { apply lookup_lt_Some in Hx. lia. }
    apply (not_lt_trans _ p); [apply (Hok i); auto; lia|]. by apply (IH (parent i)).
Qed.

(** Invariant of the loop of [_siftdown]: [newitem] conceptually sits at
    [pos]; the heap order holds except between [pos] and its parent, and
    the parent of [pos] dominates the children of [pos]. *)
Definition up_inv (a : list A) (x : A) (pos : nat) : Prop :=
  (forall i c p, 0 < i -> i <> pos ->
     <[pos:=x]> a !! i = Some c -> <[pos:=x]> a !! parent i = Some p -> lt c p = false) /\
  (0 < pos -> forall i c gp, 0 < i -> parent i = pos ->
     <[pos:=x]> a !! i = Some c -> <[pos:=x]> a !! parent pos = Some gp -> lt c gp = false).

Lemma up_inv_step a x pos par :
  0 < pos -> pos < length a -> a !! parent pos = Some par -> lt x par = true ->
  up_inv a x pos -> up_inv (<[pos:=par]> a) x (parent pos).
Proof.
  intros Hpos Hlen Hpar Hlt [I1 I2].
  pose proof (parent_lt pos Hpos) as Hpp.
  assert (Hv : forall k, k <> pos -> <[pos:=x]> a !! k = a !! k)
    by (intros; by apply list_lookup_insert_ne).
  split.
  - intros i c p Hi Hne Hc Hp.
    rewrite list_lookup_insert_ne in Hc by done.
    destruct (decide (i = pos)) as [->|Hipos].
    + (* the old parent now sits below [newitem] *)
      rewrite list_lookup_insert_eq in Hc by lia. injection Hc as <-.
      rewrite list_lookup_insert_eq in Hp by (rewrite length_insert; lia).
      injection Hp as <-. by apply lt_asym.
    + rewrite list_lookup_insert_ne in Hc by done.
      destruct (decide (parent i = parent pos)) as [Heq|Hneq].
      * (* a sibling of [pos] *)
        rewrite Heq, list_lookup_insert_eq in Hp by (rewrite length_insert; lia).
        injection Hp as <-.
        apply (not_lt_trans _ par); [|by apply lt_asym].
        apply (I1 i); [lia|done|by rewrite Hv|by rewrite Heq, Hv by lia].
      * rewrite list_lookup_insert_ne in Hp by done.
        destruct (decide (parent i = pos)) as [Hip|Hip].
        -- (* a child of [pos] *)
           rewrite Hip, list_lookup_insert_eq in Hp by lia. injection Hp as <-.
           apply (I2 Hpos i); [lia|done|by rewrite Hv|by rewrite Hv by lia].
        -- rewrite list_lookup_insert_ne in Hp by done.
           apply (I1 i); [lia|done|by rewrite Hv|by rewrite Hv].
  - intros Hppos i c gp Hi Hpi Hc Hgp.
    pose proof (parent_lt (parent pos) Hppos).
    rewrite list_lookup_insert_ne in Hgp by lia.
    rewrite list_lookup_insert_ne in Hgp by lia.
    rewrite list_lookup_insert_ne in Hc by (pose proof (parent_lt i Hi); lia).
    destruct (decide (i = pos)) as [->|Hipos].
    + (* the old parent, compared with the grandparent *)
      rewrite list_lookup_insert_eq in Hc by lia. injection Hc as <-.
      apply (I1 (parent pos)); [lia|lia|by rewrite Hv by lia|by rewrite Hv by lia].
    + rewrite list_lookup_insert_ne in Hc by done.
      apply (not_lt_trans _ par).
      * apply (I1 i); [lia|done|by rewrite Hv|by rewrite Hpi, Hv by lia].
      * apply (I1 (parent pos)); [lia|lia|by rewrite Hv by lia|by rewrite Hv by lia].
Qed.

Lemma up_inv_stop a x pos :
  pos < length a -> up_inv a x pos ->
  (forall par, 0 < pos -> a !! parent pos = Some par -> lt x par = false) ->
  heap_ok (<[pos:=x]> a).
Proof.
  intros Hlen [I1 _] Hstop i c p Hi Hc Hp.
  destruct (decide (i = pos)) as [->|Hne]; [|by apply (I1 i)].
  rewrite list_lookup_insert_eq in Hc by done. injection Hc as <-.
  pose proof (parent_lt pos Hi).
  rewrite list_lookup_insert_ne in Hp by lia. by apply Hstop.
Qed.

Lemma siftdown_go_ok fuel a x pos :
  pos < fuel -> pos < length a -> up_inv a x pos ->
  heap_ok (siftdown_go lt fuel a x 0 pos) /\
  siftdown_go lt fuel a x 0 pos ≡ₚ <[pos:=x]> a.
Proof.
  revert a pos. induction fuel as [|fuel IH]; intros a pos Hf Hlen Hinv; [lia|].
  simpl. destruct (decide (0 < pos)) as [Hpos|Hpos].
  - pose proof (parent_lt pos Hpos) as Hpp.
    destruct (a !! parent pos) as [par|] eqn:Hpar.
    + destruct (lt x par) eqn:Hlt.
      * destruct (IH (<[pos:=par]> a) (parent pos)) as [Hok Hperm];
          [lia|rewrite length_insert; lia|by apply up_inv_step|].
        split; [done|]. rewrite Hperm.
        rewrite <-(list_insert_insert_eq _ pos par x), list_insert_insert_ne by lia.
        apply Permutation_insert_swap.
        -- by rewrite list_lookup_insert_ne by lia.
        -- by rewrite list_lookup_insert_eq by lia.
      * split; [|done]. apply up_inv_stop; [done|done|].
        intros par' _ Hpar'. congruence.
    + assert (is_Some (a !! parent pos)) as [? ?]
        by (apply lookup_lt_is_Some_2; lia).
      congruence.
  - split; [|done]. apply up_inv_stop; [done|done|]. lia.
Qed.

(** Invariant of the descent of [_siftup]: [pos] is a hole; the heap
    order holds between all other pairs, and the parent of the hole
    dominates the children of the hole. *)
Definition down_inv (a : list A) (pos : nat) : Prop :=
  (forall i c p, 0 < i -> i <> pos -> parent i <> pos ->
     a !! i = Some c -> a !! parent i = Some p -> lt c p = false) /\
  (0 < pos -> forall i c gp, 0 < i -> parent i = pos ->
     a !! i = Some c -> a !! parent pos = Some gp -> lt c gp = false).

Lemma down_inv_step a pos k c :
  pos < k -> parent k = pos -> a !! k = Some c ->
  (forall o oc, o <> k -> 0 < o -> parent o = pos -> a !! o = Some oc -> lt oc c = false) ->
  down_inv a pos -> down_inv (<[pos:=c]> a) k.
Proof.
  intros Hk Hpk Hc Hsib [D1 D2]. split.
  - intros i c' p Hi Hik Hpik Hc' Hp.
    destruct (decide (i = pos)) as [->|Hipos].
    + rewrite list_lookup_insert_eq in Hc' by (apply lookup_lt_Some in Hc; lia).
      injection Hc' as <-. pose proof (parent_lt pos Hi).
      rewrite list_lookup_insert_ne in Hp by lia.
      apply (D2 Hi k); [lia|done|done|done].
    + rewrite list_lookup_insert_ne in Hc' by done.
      destruct (decide (parent i = pos)) as [Hip|Hip].
      * rewrite Hip, list_lookup_insert_eq in Hp by (apply lookup_lt_Some in Hc; lia).
        injection Hp as <-. by apply (Hsib i).
      * rewrite list_lookup_insert_ne in Hp by done. by apply (D1 i).
  - intros _ i c' gp Hi Hpi Hc' Hgp.
    pose proof (parent_lt i Hi).
    rewrite list_lookup_insert_ne in Hc' by lia.
    rewrite Hpk, list_lookup_insert_eq in Hgp by (apply lookup_lt_Some in Hc; lia).
    injection Hgp as <-.
    apply (D1 i); [done|lia|lia|done|by rewrite Hpi].
Qed.

Lemma siftup_go_ok fuel a x pos a' pos' :
  length a - pos < fuel -> pos < length a -> down_inv a pos ->
  siftup_go lt fuel a (length a) pos = (a', pos') ->
  pos' < length a' /\ length a' = length a /\ length a <= 2 * pos' + 1 /\
  down_inv a' pos' /\ <[pos':=x]> a' ≡ₚ <[pos:=x]> a.
Proof.
  revert a pos. induction fuel as [|fuel IH]; intros a pos Hf Hlen Hinv Hgo; [lia|].
  cbn [siftup_go] in Hgo. destruct (decide (2 * pos + 1 < length a)) as [Hl|Hl].
  2: { injection Hgo as <- <-. split; [lia|]. split; [done|]. split; [lia|]. by split. }
  assert (Hstep : forall k c, (k = 2 * pos + 1 \/ k = 2 * pos + 2) -> k < length a ->
    a !! k = Some c ->
    (forall o oc, o <> k -> 0 < o -> parent o = pos -> a !! o = Some oc -> lt oc c = false) ->
    siftup_go lt fuel (<[pos:=c]> a) (length a) k = (a', pos') ->
    pos' < length a' /\ length a' = length a /\ length a <= 2 * pos' + 1 /\
    down_inv a' pos' /\ <[pos':=x]> a' ≡ₚ <[pos:=x]> a).
  { intros k c Hk Hkl Hc Hsib Hgo'.
    rewrite <-(length_insert a pos c) in Hgo'.
    destruct (IH (<[pos:=c]> a) k) as (H1 & H2 & H3 & H4 & H5);
      [rewrite length_insert; lia|rewrite length_insert; lia| |done|].
    { apply down_inv_step; [lia|by apply parent_of_child|done|done|done]. }
    rewrite length_insert in H2, H3.
    split; [done|]. split; [done|]. split; [done|]. split; [done|].
    rewrite H5, <-(list_insert_insert_eq _ pos c x).
    apply Permutation_insert_swap.
    - by rewrite list_lookup_insert_eq by lia.
    - by rewrite list_lookup_insert_ne by lia. }
  assert (Hsib2 : forall k c, (k = 2 * pos + 1 \/ k = 2 * pos + 2) ->
    (forall o oc, o = 2 * pos + 1 \/ o = 2 * pos + 2 -> o <> k -> a !! o = Some oc -> lt oc c = false) ->
    forall o oc, o <> k -> 0 < o -> parent o = pos -> a !! o = Some oc -> lt oc c = false).
  { intros k c Hk Hs o oc Hok Ho Hpo Hoc. apply (Hs o); [|done|done].
    by apply child_of_parent. }
  destruct (decide (2 * pos + 1 + 1 < length a)) as [Hr|Hr].
  - destruct (lookup_lt_is_Some_2 a (2 * pos + 1)) as [l Hlv]; [lia|].
    destruct (lookup_lt_is_Some_2 a (2 * pos + 1 + 1)) as [r Hrv]; [lia|].
    rewrite Hlv, Hrv in Hgo. destruct (lt l r) eqn:Hlr.
    + rewrite Hlv in Hgo. apply (Hstep (2 * pos + 1) l); [lia|lia|done| |done].
      apply Hsib2; [lia|]. intros o oc Ho Hne Hoc.
      assert (o = 2 * pos + 1 + 1) as -> by lia. rewrite Hrv in Hoc.
      injection Hoc as <-. by apply lt_asym.
    + rewrite Hrv in Hgo. apply (Hstep (2 * pos + 1 + 1) r); [lia|lia|done| |done].
      apply Hsib2; [lia|]. intros o oc Ho Hne Hoc.
      assert (o = 2 * pos + 1) as -> by lia. rewrite Hlv in Hoc.
      by injection Hoc as <-.
  - destruct (lookup_lt_is_Some_2 a (2 * pos + 1)) as [l Hlv]; [lia|].
    rewrite Hlv in Hgo. apply (Hstep (2 * pos + 1) l); [lia|lia|done| |done].
    apply Hsib2; [lia|]. intros o oc Ho Hne Hoc.
    apply lookup_lt_Some in Hoc. lia.
Qed.

Lemma siftup_ok a : 0 < length a -> down_inv a 0 ->
  heap_ok (siftup lt a 0) /\ siftup lt a 0 ≡ₚ a.
Proof.
  intros Hlen Hinv. unfold siftup.
  destruct (lookup_lt_is_Some_2 a 0 Hlen) as [x Hx]. rewrite Hx.
  destruct (siftup_go lt (S (length a)) a (length a) 0) as [a' pos'] eqn:Hgo.
  destruct (siftup_go_ok (S (length a)) a x 0 a' pos' ltac:(lia) Hlen Hinv Hgo)
    as (H1 & H2 & H3 & [D1 _] & H5).
  rewrite (list_insert_id a 0 x) in H5 by done.
  unfold siftdown. rewrite list_lookup_insert_eq by done.
  destruct (siftdown_go_ok (S pos') (<[pos':=x]> a') x pos') as [Hok Hperm];
    [lia|by rewrite length_insert| |].
  - unfold up_inv. rewrite list_insert_insert_eq. split.
    + intros i c p Hi Hne Hc Hp.
      assert (parent i <> pos').
      { intros Hpi. apply lookup_lt_Some in Hc. rewrite length_insert in Hc.
        destruct (child_of_parent pos' i Hi Hpi); lia. }
      rewrite list_lookup_insert_ne in Hc, Hp by done. by apply (D1 i).
    + intros _ i c gp Hi Hpi Hc. apply lookup_lt_Some in Hc.
      rewrite length_insert in Hc. destruct (child_of_parent pos' i Hi Hpi); lia.
  - split; [done|]. by rewrite Hperm, list_insert_insert_eq.
Qed.

(** [heappush] keeps a heap a heap and adds the item. *)
Lemma heappush_ok hp x : heap_ok hp ->
  heap_ok (heappush lt hp x) /\ heappush lt hp x ≡ₚ hp ++ [x].
Proof.
  intros Hok. unfold heappush, siftdown.
  rewrite lookup_app_r, Nat.sub_diag by lia. simpl.
  assert (Hins : <[length hp:=x]> (hp ++ [x]) = hp ++ [x]).
  { apply list_insert_id. rewrite lookup_app_r, Nat.sub_diag by lia. done. }
  destruct (siftdown_go_ok (S (length hp)) (hp ++ [x]) x (length hp)) as [H1 H2];
    [lia|rewrite length_app; simpl; lia| |split; [done|by rewrite H2, Hins]].
  unfold up_inv. rewrite Hins. split.
  - intros i c p Hi Hne Hc Hp.
    assert (i < length hp).
    { apply lookup_lt_Some in Hc. rewrite length_app in Hc. simpl in Hc. lia. }
    pose proof (parent_lt i Hi).
    rewrite lookup_app_l in Hc, Hp by lia. by apply (Hok i).
  - intros _ i c gp Hi Hpi Hc. apply lookup_lt_Some in Hc.
    rewrite length_app in Hc. simpl in Hc.
    destruct (child_of_parent (length hp) i Hi Hpi); lia.
Qed.

(** [heappop] returns the root, a minimum, and keeps the rest a heap. *)
Lemma heappop_ok hp m hp' : heap_ok hp -> heappop lt hp = Some (m, hp') ->
  hp !! 0 = Some m /\ heap_ok hp' /\ m :: hp' ≡ₚ hp /\
  (forall y, y ∈ hp -> lt y m = false).
Proof.
  intros Hok Hpop. unfold heappop in Hpop.
  destruct (reverse hp) as [|lastelt rrest] eqn:Hr; [done|].
  assert (Hhp : hp = reverse rrest ++ [lastelt]).
  { rewrite <-(reverse_involutive hp), Hr. by rewrite reverse_cons. }
  destruct (reverse rrest) as [|returnitem rest] eqn:Hrr.
  - injection Hpop as <- <-. subst hp. simpl.
    split; [done|]. split; [intros ? ? ? ? Hc; apply lookup_lt_Some in Hc; simpl in Hc; lia|].
    split; [done|]. intros y Hy. apply list_elem_of_singleton in Hy as ->. apply lt_irrefl.
  - injection Hpop as <- <-.
    assert (H0 : hp !! 0 = Some returnitem) by (by subst hp).
    split; [done|].
    assert (Hlk : forall i, 0 < i -> i < S (length rest) ->
              (lastelt :: rest) !! i = hp !! i).
    { intros i Hi Hil. subst hp. destruct i as [|i]; [lia|]. simpl.
      rewrite lookup_app_l by (simpl in Hil; lia). done. }
    destruct (siftup_ok (lastelt :: rest)) as [H1 H2]; [simpl; lia| |].
    + split; [|lia].
      intros i c p Hi Hne Hpne Hc Hp.
      pose proof (lookup_lt_Some _ _ _ Hc) as Hil. simpl in Hil.
      rewrite Hlk in Hc by lia. rewrite Hlk in Hp by (pose proof (parent_lt i Hi); lia).
      by apply (Hok i).
    + split; [done|]. split.
      * rewrite H2, Hhp. try rewrite Hrr. simpl. constructor.
        apply Permutation_cons_append.
      * intros y Hy. apply list_elem_of_lookup in Hy as [i Hi].
        by apply (heap_ok_root hp returnitem Hok H0 i).
Qed.
End HeapqFacts.
End HeapqFacts.

(* ------------------------------------------------------------------ *)
(** ** The neighbour query *)

Module NeighborFacts.

Lemma h_adjacent r c r' c' :
  h (r, c) (r', c') = 1 <->
  (r' = r + 1 /\ c' = c) \/ (0 < r /\ r' = r - 1 /\ c' = c) \/
  (r' = r /\ c' = c + 1) \/ (r' = r /\ 0 < c /\ c' = c - 1).
Proof. unfold h. lia. Qed.

Lemma elem_of_cond_singleton (b : bool) (x q : pos) :
  q ∈ (if b then [x] else []) <-> b = true /\ q = x.
Proof.
  destruct b.
  - rewrite list_elem_of_singleton. split; [by intros ->|by intros [_ ->]].
  - split; [intros Hq; inversion Hq|by intros [? _]].
Qed.

Lemma update_neighbors_elem rows g r c q :
  r < rows -> c < rows ->
  q ∈ update_neighbors rows g (r, c) <->
  in_grid rows q = true /\ h (r, c) q = 1 /\ is_barrier g q = false.
Proof.
  intros Hr Hc. destruct q as [r' c']. rewrite h_adjacent.
  unfold update_neighbors, in_grid; simpl.
  rewrite !elem_of_app, !elem_of_cond_singleton, !andb_true_iff, !negb_true_iff,
    !Nat.ltb_lt.
  split.
  - intros [[[? ?] ?]|[[[? ?] ?]|[[[? ?] ?]|[[? ?] ?]]]]; simplify_eq;
      repeat split; auto; lia.
  - intros [[? ?] [Hadj Hb]].
    destruct Hadj as [[-> ->]|[[? [-> ->]]|[[-> ->]|[-> [? ->]]]]].
    + left. repeat split; auto; lia.
    + right; left. repeat split; auto.
    + right; right; left. repeat split; auto; lia.
    + right; right; right. repeat split; auto.
Qed.

Lemma update_neighbors_sorted rows g r c :
  StronglySorted (fun a b => dir_rank (r, c) a < dir_rank (r, c) b)
    (update_neighbors rows g (r, c)).
Proof.
  unfold update_neighbors.
  repeat match goal with
  | |- context [if ?b then _ else _] => destruct b eqn:?
  end;
  repeat match goal with
  | H : (_ && _)%bool = true |- _ => apply andb_true_iff in H as [? ?]
  | H : (_ <? _) = true |- _ => apply Nat.ltb_lt in H
  end; simpl;
  repeat (constructor || apply Forall_cons); simpl;
  repeat case_decide; simplify_eq; lia.
Qed.

Lemma filter_not_in_union (a : pos) (V : gset pos) (l : list pos) :
  a ∉ l -> filter (fun q => q ∉ {[a]} ∪ V) l = filter (fun q => q ∉ V) l.
Proof.
  induction l as [|x l IH]; intros Ha; [done|].
  rewrite !filter_cons, IH by set_solver.
  assert (x ≠ a) by set_solver.
  repeat case_decide; set_solver.
Qed.

(** [dfs] pushes the unvisited neighbours in list order. *)
Lemma dfs_relax_fold_stack current (l : list pos) st g :
  NoDup l ->
  stack (foldl (dfs_relax_one current) (st, g) l).1 =
  stack st ++ filter (fun q => q ∉ s_visited st) l.
Proof.
  revert st g. induction l as [|a l IH]; intros st g Hnd; cbn [foldl].
  - by rewrite app_nil_r.
  - apply NoDup_cons in Hnd as [Ha Hnd].
    rewrite filter_cons.
    destruct (decide (a ∈ s_visited st)) as [Hin|Hin].
    + replace (dfs_relax_one current (st, g) a) with (st, g)
        by (unfold dfs_relax_one; by rewrite bool_decide_true).
      rewrite decide_False by tauto. by apply IH.
    + replace (dfs_relax_one current (st, g) a) with
        (mkdfs (stack st ++ [a]) (<[a:=current]> (s_came_from st)) ({[a]} ∪ s_visited st),
         <[a:=GREEN]> g)
        by (unfold dfs_relax_one; by rewrite bool_decide_false).
      rewrite decide_True by done. rewrite IH by done. simpl.
      rewrite filter_not_in_union by done. by rewrite <- app_assoc.
Qed.

Lemma strongly_sorted_lt_NoDup (f : pos -> nat) (l : list pos) :
  StronglySorted (fun a b => f a < f b) l -> NoDup l.
Proof.
  induction 1 as [|a l _ IH Hall]; constructor; [|done].
  intros Hin. rewrite Forall_forall in Hall.
  specialize (Hall a Hin). lia.
Qed.

(** C6: for a node [(r, c)] of the grid, [update_neighbors] returns exactly
    the orthogonally adjacent in-grid nodes that are not barriers, listed
    in the order down, up, right, left (strictly increasing [dir_rank]);
    [dfs] pushes the unvisited ones onto its stack in that order, so the
    last-listed one is popped first. *)
Theorem update_neighbors_spec (rows : nat) (g : colors) (r c : nat)
    (Hr : r < rows) (Hc : c < rows) :
  (forall q, q ∈ update_neighbors rows g (r, c) <->
     in_grid rows q = true /\ h (r, c) q = 1 /\ is_barrier g q = false) /\
  StronglySorted (fun a b => dir_rank (r, c) a < dir_rank (r, c) b)
    (update_neighbors rows g (r, c)) /\
  (forall (st : dfs_state) (g' : colors),
     stack (dfs_relax (update_neighbors rows g) (r, c) st g').1 =
     stack st ++ filter (fun q => q ∉ s_visited st) (update_neighbors rows g (r, c))).
Proof.
  split; [|split].
  - intros q. by apply update_neighbors_elem.
  - apply update_neighbors_sorted.
  - intros st g'. apply dfs_relax_fold_stack.
    eapply strongly_sorted_lt_NoDup, update_neighbors_sorted.
Qed.

Lemma update_neighbors_spec_witness :
  (1 < 3 /\ 1 < 3) /\
  ((forall q, q ∈ update_neighbors 3 (make_grid 3) (1, 1) <->
     in_grid 3 q = true /\ h (1, 1) q = 1 /\ is_barrier (make_grid 3) q = false) /\
   StronglySorted (fun a b => dir_rank (1, 1) a < dir_rank (1, 1) b)
     (update_neighbors 3 (make_grid 3) (1, 1)) /\
   (forall (st : dfs_state) (g' : colors),
      stack (dfs_relax (update_neighbors 3 (make_grid 3)) (1, 1) st g').1 =
      stack st ++ filter (fun q => q ∉ s_visited st) (update_neighbors 3 (make_grid 3) (1, 1)))).
Proof. split; [split; lia|]. apply (update_neighbors_spec 3 (make_grid 3) 1 1); lia. Defined.

End NeighborFacts.

(* ------------------------------------------------------------------ *)
(** ** The event poll *)

Module EventFacts.

Lemma process_events_first_control (evs : list event) (c : ctl) :
  process_events evs c =
  match first_control evs with None => c | Some e => process_events [e] c end.
Proof.
  induction evs as [|e evs IH]; [done|].
  by destruct e as [|[| | |k]|]; simpl.
Qed.

Lemma poll_cons (c : ctl) (b : list event) (rest : events) :
  poll c (b :: rest) = (process_events b c, rest).
Proof. done. Qed.

(** C7 (counterexample): a batch holding P then ESC is removed whole by
    one poll, yet the flags only toggle the pause: the stop is lost; and a
    batch P, P toggles the pause once. *)
Lemma poll_drops_events_after_first_control :
  poll ctl_reset [[KEYDOWN K_p; KEYDOWN K_ESCAPE]] = (mkctl false true false, []) /\
  poll ctl_reset [[KEYDOWN K_p; KEYDOWN K_p]] = (mkctl false true false, []).
Proof. split; reflexivity. Qed.

(** C7 (amended): one poll removes the whole pending batch [b] from the
    queue, but the flags it leaves are those set by the first QUIT, C,
    ESC or P event of [b] alone (unchanged when [b] has none); the
    events after that one are discarded without effect. *)
Theorem poll_consumes_batch_first_control (b : list event) (rest : events) (c : ctl) :
  poll c (b :: rest) = (process_events b c, rest) /\
  process_events b c =
  match first_control b with None => c | Some e => process_events [e] c end.
Proof. split; [apply poll_cons|apply process_events_first_control]. Qed.

End EventFacts.

(* ------------------------------------------------------------------ *)
(** ** Grid edits of [main] *)

Module EditFacts.

(** An [ORANGE] cell is the one [start] names, a [PURPLE] cell the one
    [end] names. *)
Definition roles_ok (s : app_state) : Prop :=
  (forall p, app_grid s !! p = Some ORANGE -> app_start s = Some p) /\
  (forall p, app_grid s !! p = Some PURPLE -> app_end s = Some p).

Lemma make_grid_white rows p c : make_grid rows !! p = Some c -> c = WHITE.
Proof.
  unfold make_grid. intros Hl%elem_of_list_to_map_2.
  apply list_elem_of_fmap in Hl as [q [Hq _]]. by simplify_eq.
Qed.

Lemma roles_ok_init rows : roles_ok (app_init rows).
Proof.
  split; intros p Hp; apply make_grid_white in Hp; discriminate.
Qed.

Lemma roles_ok_paint rows p s : roles_ok s -> roles_ok (paint rows p s).
Proof.
  intros [Ho Hp]. unfold paint.
  destruct (in_grid rows p); [|by split].
  repeat case_bool_decide; simpl; try (by split);
  split; intros q Hq; simpl in *;
  (destruct (decide (p = q)) as [->|Hne];
   [rewrite lookup_insert_eq in Hq; simplify_eq; try done
   |rewrite lookup_insert_ne in Hq by done]);
  try (by apply Ho); try (by apply Hp);
  match goal with
  | H : app_start s = None |- _ => specialize (Ho q Hq); congruence
  | H : app_end s = None |- _ => specialize (Hp q Hq); congruence
  | _ => idtac
  end.
Qed.

Lemma roles_ok_erase rows p s : roles_ok s -> roles_ok (erase rows p s).
Proof.
  intros [Ho Hp]. unfold erase.
  destruct (in_grid rows p); [|by split].
  repeat case_bool_decide; split; intros q Hq; simpl in *;
  (destruct (decide (p = q)) as [->|Hne];
   [rewrite lookup_insert_eq in Hq; simplify_eq
   |rewrite lookup_insert_ne in Hq by done]);
  [specialize (Ho q Hq); congruence|by apply Hp|by apply Ho
  |specialize (Hp q Hq); congruence|by apply Ho|by apply Hp].
Qed.

Lemma roles_ok_edit rows s e : roles_ok s -> roles_ok (apply_edit rows s e).
Proof.
  destruct e; simpl.
  - apply roles_ok_paint.
  - apply roles_ok_erase.
  - intros _. apply roles_ok_init.
Qed.

Lemma roles_ok_edits rows (es : list edit) s :
  roles_ok s -> roles_ok (foldl (apply_edit rows) s es).
Proof.
  revert s. induction es as [|e es IH]; intros s Hs; simpl; [done|].
  by apply IH, roles_ok_edit.
Qed.

Lemma paint_role_cell rows p s :
  roles_ok s ->
  app_grid s !! p = Some ORANGE \/ app_grid s !! p = Some PURPLE ->
  paint rows p s = s.
Proof.
  intros [Ho Hp] [Hc|Hc]; [apply Ho in Hc|apply Hp in Hc];
  unfold paint; destruct (in_grid rows p); try done;
  repeat case_bool_decide; simpl; congruence.
Qed.

(** C8: from the empty grid, after any sequence of edits (left clicks,
    right-button erases, the C key) at most one cell is [ORANGE] (Start)
    and at most one is [PURPLE] (End), and a click on a cell that holds
    Start or End changes nothing. *)
Theorem edits_keep_single_start_end (rows : nat) (es : list edit) :
  let s := foldl (apply_edit rows) (app_init rows) es in
  (forall p q, app_grid s !! p = Some ORANGE -> app_grid s !! q = Some ORANGE -> p = q) /\
  (forall p q, app_grid s !! p = Some PURPLE -> app_grid s !! q = Some PURPLE -> p = q) /\
  (forall p, app_grid s !! p = Some ORANGE \/ app_grid s !! p = Some PURPLE ->
     paint rows p s = s).
Proof.
  intros s.
  assert (Hs : roles_ok s) by apply roles_ok_edits, roles_ok_init.
  destruct Hs as [Ho Hp] eqn:E.
  split; [|split].
  - intros p q H1 H2. apply Ho in H1, H2. congruence.
  - intros p q H1 H2. apply Hp in H1, H2. congruence.
  - intros p. by apply paint_role_cell.
Qed.

End EditFacts.

(* ------------------------------------------------------------------ *)
(** ** The pulse animator *)

Module PulseFacts.

Lemma restore_outside (original : gmap pos color) (g : colors) (n p : pos) :
  n <> p -> restore original g n !! p = g !! p.
Proof.
  intros Hne. unfold restore. destruct (original !! n); [|done].
  by rewrite lookup_insert_ne.
Qed.

(** Rewrite every write of a pulse step away at a node [p] off the path. *)
Ltac off_path Hp :=
  repeat match goal with
  | |- context [match ?x with Some _ => _ | None => _ end] =>
      let E := fresh "E" in destruct x eqn:E
  | |- context [if decide ?b then _ else _] => destruct (decide b)
  | |- context [if ?b then _ else _] => destruct b
  | E : ?l !! _ = Some ?n |- context [restore _ _ ?n !! ?q] =>
      rewrite (restore_outside _ _ n q)
        by (intros ->; apply Hp; by eapply list_elem_of_lookup_2)
  | E : ?l !! _ = Some ?n |- context [<[?n:=_]> _ !! ?q] =>
      rewrite (lookup_insert_ne _ n q)
        by (intros ->; apply Hp; by eapply list_elem_of_lookup_2)
  end.

Lemma pulse_pass_outside (path : list pos) (original : gmap pos color) (i : nat) (todo : list pos)
    (g : colors) (flick : list bool) (p : pos) :
  (forall x, x ∈ todo -> x ∈ path) -> p ∉ path ->
  (pulse_pass path original i todo g flick).1 !! p = g !! p.
Proof.
  intros Hsub Hp. revert i g flick.
  induction todo as [|node todo IH]; intros i g flick; simpl; [done|].
  assert (node ∈ path) by (apply Hsub; left).
  assert (node <> p) by (intros ->; contradiction).
  destruct flick as [|b fl]; simpl; rewrite IH by (intros x Hx; apply Hsub; by right);
  off_path Hp; rewrite ?lookup_insert_ne by done; off_path Hp; done.
Qed.

Lemma foldl_restore_outside (original : gmap pos color) (l : list pos) (g : colors) (p : pos) :
  p ∉ l -> (foldl (restore original) g l) !! p = g !! p.
Proof.
  revert g. induction l as [|n l IH]; intros g Hp; simpl; [done|].
  rewrite IH by set_solver. apply restore_outside. set_solver.
Qed.

Lemma pulses_loop_outside (pulses : nat) (path : list pos) (original : gmap pos color)
    (g : colors) (flick : list bool) (p : pos) :
  p ∉ path -> (pulses_loop pulses path original g flick).1 !! p = g !! p.
Proof.
  intros Hp. revert g flick.
  induction pulses as [|k IH]; intros g flick; simpl; [done|].
  destruct (pulse_pass path original 0 path g flick) as [g1 fl1] eqn:E.
  rewrite IH, foldl_restore_outside by done.
  change g1 with (g1, fl1).1. rewrite <- E.
  by apply pulse_pass_outside.
Qed.

Lemma foldl_yellow_lookup (l : list pos) (g : colors) p :
  foldl (fun g n => <[n:=YELLOW]> g) g l !! p =
  if decide (p ∈ l) then Some YELLOW else g !! p.
Proof.
  revert g. induction l as [|n l IH]; intros g; cbn [foldl].
  - case_decide; [set_solver|done].
  - rewrite IH. destruct (decide (n = p)) as [->|Hne].
    + rewrite lookup_insert_eq. do 2 case_decide; set_solver.
    + rewrite lookup_insert_ne by done. do 2 case_decide; set_solver.
Qed.

(** The animator leaves every node off the path as it found it and the
    path nodes [YELLOW]. *)
Lemma electric_pulse_path_lookup (path_nodes : list pos) (g : colors) (pulses : nat)
    (flick : list bool) (p : pos) :
  electric_pulse_path path_nodes g pulses flick !! p =
  if decide (p ∈ path_nodes) then Some YELLOW else g !! p.
Proof.
  unfold electric_pulse_path. destruct path_nodes as [|n rest] eqn:Hpn.
  - rewrite decide_False; [done|set_solver].
  - rewrite <- Hpn.
    match goal with
    | |- context [pulses_loop ?k ?path ?orig ?g0 ?fl] =>
        destruct (pulses_loop k path orig g0 fl) as [g1 fl1] eqn:E
    end.
    rewrite foldl_yellow_lookup.
    destruct (decide (p ∈ reverse path_nodes)) as [Hin|Hin];
      rewrite elem_of_reverse in Hin.
    + by rewrite decide_True.
    + rewrite decide_False by done.
      change g1 with (g1, fl1).1. rewrite <- E.
      apply pulses_loop_outside. by rewrite elem_of_reverse.
Qed.

Lemma electric_pulse_path_id (path_nodes : list pos) (g : colors) (pulses : nat)
    (flick : list bool) :
  (forall p, p ∈ path_nodes -> g !! p = Some YELLOW) ->
  electric_pulse_path path_nodes g pulses flick = g.
Proof.
  intros Hy. apply map_eq. intros p. rewrite electric_pulse_path_lookup.
  case_decide; [by rewrite Hy|done].
Qed.

End PulseFacts.

(* ------------------------------------------------------------------ *)
(** ** Path reconstruction and the shared loop *)

Module LoopFacts.
Import PulseFacts.

(** Every node [reconstruct_go] appends is a value of [came_from] and is
    left [YELLOW]. *)
Lemma reconstruct_go_marks (fuel : nat) (cf : gmap pos pos) (cur : pos) (g : colors)
    (acc : list pos) (g' : colors) (path : list pos) :
  reconstruct_go fuel cf cur g acc = (g', path) ->
  (forall q, q ∈ acc -> g !! q = Some YELLOW /\ exists k, cf !! k = Some q) ->
  forall q, q ∈ path -> g' !! q = Some YELLOW /\ exists k, cf !! k = Some q.
Proof.
  revert cur g acc. induction fuel as [|fuel IH]; intros cur g acc Hr Hacc; simpl in Hr.
  - by simplify_eq.
  - destruct (cf !! cur) as [prev|] eqn:Hc; [|by simplify_eq].
    apply (IH _ _ _ Hr). intros q Hq. apply elem_of_app in Hq as [Hq|Hq%list_elem_of_singleton].
    + destruct (Hacc q Hq) as [Hy Hk]. split; [|done].
      destruct (decide (prev = q)) as [->|Hne];
        [by rewrite lookup_insert_eq|by rewrite lookup_insert_ne].
    + subst. split; [by rewrite lookup_insert_eq|by exists cur].
Qed.

(** A predecessor map as the searches keep it: [start] has no
    predecessor, [end_] is nobody's predecessor, every predecessor is
    [start] or has one itself, and some rank strictly decreases along
    every link (no cycle). *)
Definition pred_ok (start end_ : pos) (cf : gmap pos pos) : Prop :=
  cf !! start = None /\
  (forall k v, cf !! k = Some v -> v <> end_ /\ (v = start \/ is_Some (cf !! v))) /\
  exists rank : pos -> nat, forall k v, cf !! k = Some v -> rank v < rank k.

(** [l] lists [cf x], [cf (cf x)], ... up to the first node without a
    predecessor. *)
Fixpoint chain_from (cf : gmap pos pos) (x : pos) (l : list pos) : Prop :=
  match l with
  | [] => cf !! x = None
  | v :: l' => cf !! x = Some v /\ chain_from cf v l'
  end.

Lemma reconstruct_go_chain (cf : gmap pos pos) (rank : pos -> nat)
    (Hrank : forall k v, cf !! k = Some v -> rank v < rank k)
    (n : nat) (x : pos) (g : colors) (acc : list pos) :
  size (filter (fun k => rank k <= rank x) (dom cf)) <= n ->
  exists l, (reconstruct_go n cf x g acc).2 = acc ++ l /\ chain_from cf x l.
Proof.
  revert x g acc. induction n as [|n IH]; intros x g acc Hs; simpl.
  - destruct (cf !! x) as [v|] eqn:E.
    + exfalso. rewrite Nat.le_0_r, size_empty_iff in Hs.
      assert (x ∈ filter (fun k => rank k <= rank x) (dom cf)) as Hx
        by (apply elem_of_filter; split; [lia|apply elem_of_dom; eauto]).
      set_solver.
    + exists []. by rewrite app_nil_r.
  - destruct (cf !! x) as [v|] eqn:E.
    + assert (Hv := Hrank _ _ E).
      destruct (IH v (<[v:=YELLOW]> g) (acc ++ [v])) as [l [Hl Hc]].
      { assert (filter (fun k => rank k <= rank v) (dom cf) ⊂
                filter (fun k => rank k <= rank x) (dom cf)) as Hsub.
        { split.
          - intros k. rewrite !elem_of_filter. intros [? ?]. split; [lia|done].
          - intros Hsub. assert (x ∈ filter (fun k => rank k <= rank v) (dom cf)) as Hx.
            { apply Hsub, elem_of_filter. split; [lia|apply elem_of_dom; eauto]. }
            apply elem_of_filter in Hx as [? _]. lia. }
        apply subset_size in Hsub. lia. }
      exists (v :: l). rewrite Hl, <- app_assoc. by split.
    + exists []. by rewrite app_nil_r.
Qed.

Lemma reconstruct_path_chain (cf : gmap pos pos) (rank : pos -> nat)
    (Hrank : forall k v, cf !! k = Some v -> rank v < rank k) (x : pos) (g : colors) :
  chain_from cf x (reconstruct_path cf x g).2.
Proof.
  unfold reconstruct_path.
  destruct (reconstruct_go_chain cf rank Hrank (size cf) x g []) as [l [-> Hc]]; [|done].
  rewrite <- size_dom. apply subseteq_size. intros k. rewrite elem_of_filter. tauto.
Qed.

Lemma chain_from_values (cf : gmap pos pos) (x : pos) (l : list pos) :
  chain_from cf x l -> forall q, q ∈ l -> exists k, cf !! k = Some q.
Proof.
  revert x. induction l as [|v l IH]; intros x Hc q Hq; [set_solver|].
  destruct Hc as [Hx Hc]. apply elem_of_cons in Hq as [->|Hq]; [by exists x|].
  by apply (IH v).
Qed.

Lemma chain_from_last (start end_ : pos) (cf : gmap pos pos) (x : pos) (l : list pos) :
  pred_ok start end_ cf -> chain_from cf x l -> is_Some (cf !! x) -> last l = Some start.
Proof.
  intros [_ [Hval _]]. revert x.
  induction l as [|v l IH]; intros x Hc Hx; simpl in Hc.
  - rewrite Hc in Hx. by destruct Hx.
  - destruct Hc as [Hxv Hc]. destruct l as [|w l].
    + simpl in Hc. destruct (Hval _ _ Hxv) as [_ [->|[? Hs]]]; [done|congruence].
    + rewrite last_cons_cons. apply (IH v Hc). destruct Hc as [Hvw _]. by exists w.
Qed.

Section LoopFacts.
Context {St : Type}.
Variable empty : St -> bool.
Variable get : St -> option (pos * St).
Variable relax : pos -> St -> colors -> St * colors.
Variable came_from : St -> gmap pos pos.
Variables (start end_ : pos).
Variable init : St.

(** The frontier states a run goes through. *)
Inductive reach : St -> Prop :=
| reach_init : reach init
| reach_step st current st1 g :
    reach st -> get st = Some (current, st1) -> current <> end_ ->
    reach (relax current st1 g).1.

Lemma search_loop_found (animate : bool) fuel st g c src flick trace o :
  reach st ->
  search_loop empty get relax came_from start end_ animate fuel st g c src flick trace = Some o ->
  found o = true ->
  exists st' st1 g0 g1,
    reach st' /\ get st' = Some (end_, st1) /\
    reconstruct_path (came_from st1) end_ g0 = (g1, out_path o) /\
    out_came_from o = came_from st1 /\
    out_colors o = (if animate then electric_pulse_path (out_path o) (<[end_:=PURPLE]> g1) 1 flick
                    else <[end_:=PURPLE]> g1).
Proof.
  revert st g c src trace.
  induction fuel as [|fuel IH]; intros st g c src trace Hr Hrun Hf; [discriminate|].
  cbn [search_loop] in Hrun.
  destruct (empty st); [by simplify_eq|].
  destruct (poll c src) as [c1 src1].
  destruct (STOP_SEARCH c1); [by simplify_eq|].
  destruct (pause_wait fuel c1 src1) as [[c2 src2]|]; [|discriminate].
  destruct (STOP_SEARCH c2); [by simplify_eq|].
  destruct (get st) as [[cur st1]|] eqn:Hg; [|discriminate].
  destruct (decide (cur = end_)) as [->|Hne].
  - destruct (reconstruct_path (came_from st1) end_ g) as [g1 p] eqn:Hrec.
    simplify_eq/=. by exists st, st1, g, g1.
  - destruct (relax cur st1 g) as [st2 g1] eqn:Hrel.
    eapply IH; [|exact Hrun|done].
    change st2 with (st2, g1).1. rewrite <- Hrel. by econstructor.
Qed.

(** Removing the [electric_pulse_path] call changes nothing, when the
    goal is never a predecessor. *)
Lemma search_loop_animate fuel st g c src flick trace :
  (forall st' st1 k, reach st' -> get st' = Some (end_, st1) ->
     came_from st1 !! k <> Some end_) ->
  reach st ->
  search_loop empty get relax came_from start end_ true fuel st g c src flick trace =
  search_loop empty get relax came_from start end_ false fuel st g c src flick trace.
Proof.
  intros Hend. revert st g c src trace.
  induction fuel as [|fuel IH]; intros st g c src trace Hr; [done|].
  cbn [search_loop].
  destruct (empty st); [done|].
  destruct (poll c src) as [c1 src1].
  destruct (STOP_SEARCH c1); [done|].
  destruct (pause_wait fuel c1 src1) as [[c2 src2]|]; [|done].
  destruct (STOP_SEARCH c2); [done|].
  destruct (get st) as [[cur st1]|] eqn:Hg; [|done].
  destruct (decide (cur = end_)) as [->|Hne].
  - destruct (reconstruct_path (came_from st1) end_ g) as [g1 p] eqn:Hrec.
    rewrite electric_pulse_path_id; [done|].
    intros q Hq.
    destruct (reconstruct_go_marks _ _ _ _ _ _ _ Hrec ltac:(set_solver) q Hq)
      as [Hy [k Hk]].
    assert (q <> end_) by (intros ->; by apply (Hend st st1 k)).
    by rewrite lookup_insert_ne.
  - destruct (relax cur st1 g) as [st2 g1] eqn:Hrel.
    apply IH. change st2 with (st2, g1).1. rewrite <- Hrel. by econstructor.
Qed.

(** On [return True]: the path and the colours, when the predecessor
    map is well formed at every pop. *)
Lemma search_loop_found_path (animate : bool) fuel st g c src flick trace o :
  (forall st' cur st1, reach st' -> get st' = Some (cur, st1) ->
     pred_ok start end_ (came_from st1) /\ (cur = start \/ is_Some (came_from st1 !! cur))) ->
  start <> end_ -> reach st ->
  search_loop empty get relax came_from start end_ animate fuel st g c src flick trace = Some o ->
  found o = true ->
  chain_from (out_came_from o) end_ (out_path o) /\ last (out_path o) = Some start /\
  (end_ ∉ out_path o) /\ (forall q, q ∈ out_path o -> out_colors o !! q = Some YELLOW) /\
  out_colors o !! end_ = Some PURPLE.
Proof.
  intros Hinv Hse Hr Hrun Hf.
  destruct (search_loop_found animate _ _ _ _ _ _ _ _ Hr Hrun Hf)
    as (st' & st1 & g0 & g1 & Hr' & Hg & Hrec & Hcame & Hcol).
  destruct (Hinv _ _ _ Hr' Hg) as [Hok [Hcur|Hcur]]; [congruence|].
  pose proof Hok as (Hs & Hval & rank & Hrank).
  assert (Hch : chain_from (came_from st1) end_ (out_path o)).
  { change (out_path o) with (g1, out_path o).2. rewrite <- Hrec.
    by eapply reconstruct_path_chain. }
  assert (Hnot : end_ ∉ out_path o).
  { intros Hin. destruct (chain_from_values _ _ _ Hch _ Hin) as [k Hk].
    by destruct (Hval _ _ Hk). }
  assert (Hy : forall q, q ∈ out_path o -> g1 !! q = Some YELLOW).
  { intros q Hq. unfold reconstruct_path in Hrec.
    eapply (reconstruct_go_marks _ _ _ _ _ _ _ Hrec); [set_solver|done]. }
  rewrite Hcame. split; [done|]. split; [by eapply chain_from_last|].
  split; [done|]. rewrite Hcol. destruct animate.
  - split.
    + intros q Hq. by rewrite electric_pulse_path_lookup, decide_True.
    + rewrite electric_pulse_path_lookup, decide_False by done.
      by rewrite lookup_insert_eq.
  - split.
    + intros q Hq. rewrite lookup_insert_ne by (intros ->; contradiction). by apply Hy.
    + by rewrite lookup_insert_eq.
Qed.

Lemma stop_event_sets_stop (b : list event) (e : event) (c : ctl) :
  first_control b = Some e -> e = QUIT \/ e = KEYDOWN K_c \/ e = KEYDOWN K_ESCAPE ->
  STOP_SEARCH (process_events b c) = true.
Proof.
  intros Hf He. rewrite EventFacts.process_events_first_control, Hf.
  destruct He as [He|[He|He]]; by subst.
Qed.

Lemma search_loop_stop_poll (animate : bool) fuel st g c b rest flick trace e :
  empty st = false -> first_control b = Some e ->
  e = QUIT \/ e = KEYDOWN K_c \/ e = KEYDOWN K_ESCAPE ->
  search_loop empty get relax came_from start end_ animate (S fuel) st g c (b :: rest) flick trace =
  Some (mkoutcome false g (process_events b c) rest trace [] (came_from st)).
Proof.
  intros Hne Hf He. cbn [search_loop]. rewrite Hne. unfold poll; simpl.
  by rewrite (stop_event_sets_stop b e c Hf He).
Qed.

Lemma search_loop_stop_pause (animate : bool) fuel st g c b0 b rest flick trace e :
  empty st = false ->
  STOP_SEARCH (process_events b0 c) = false -> PAUSE_SEARCH (process_events b0 c) = true ->
  first_control b = Some e -> e = QUIT \/ e = KEYDOWN K_c \/ e = KEYDOWN K_ESCAPE ->
  search_loop empty get relax came_from start end_ animate (S (S (S fuel))) st g c
    (b0 :: b :: rest) flick trace =
  Some (mkoutcome false g (process_events b (process_events b0 c)) rest trace [] (came_from st)).
Proof.
  intros Hne Hs Hp Hf He. cbn [search_loop]. rewrite Hne. unfold poll at 1; simpl.
  destruct (process_events b0 c) as [s0 p0 cl0] eqn:Hc0. simpl in Hs, Hp. subst s0 p0.
  pose proof (stop_event_sets_stop b e (mkctl false true cl0) Hf He) as Hstop.
  simpl. unfold poll; simpl. rewrite Hstop, andb_false_r. simpl. by rewrite Hstop.
Qed.
End LoopFacts.

End LoopFacts.

(** ** Invariants of the four frontiers *)
Module FrontierFacts.
Import LoopFacts.

(** What [search_loop_found_path] and [search_loop_animate] ask of a
    search: every pop happens in a state whose predecessor map is
    well-formed, and the popped node is [start] or has a predecessor. *)
Definition get_ok {St : Type} (get : St -> option (pos * St))
    (relax : pos -> St -> colors -> St * colors) (came_from : St -> gmap pos pos)
    (start end_ : pos) (init : St) : Prop :=
  forall st' cur st1, reach get relax end_ init st' -> get st' = Some (cur, st1) ->
    pred_ok start end_ (came_from st1) /\ (cur = start \/ is_Some (came_from st1 !! cur)).

Lemma get_ok_not_end {St : Type} get relax came_from (start end_ : pos) (init : St) :
  get_ok get relax came_from start end_ init ->
  forall st' st1 k, reach get relax end_ init st' -> get st' = Some (end_, st1) ->
    came_from st1 !! k <> Some end_.
Proof.
  intros Hok st' st1 k Hr Hg Hk. destruct (Hok _ _ _ Hr Hg) as [[_ [Hval _]] _].
  by destruct (Hval _ _ Hk) as [? _].
Qed.

Lemma foldl_preserve {A B : Type} (P : A -> Prop) (f : A -> B -> A) (l : list B) (a : A) :
  (forall a x, P a -> P (f a x)) -> P a -> P (foldl f a l).
Proof. intros Hf. revert a. induction l as [|x l IH]; intros a Ha; simpl; auto. Qed.

(** Linking a fresh node [nb] to [cur] keeps the predecessor map
    well-formed, when every key and value of the map is already seen. *)
Lemma pred_ok_insert_fresh (start end_ : pos) (cf : gmap pos pos) (seen : gset pos)
    (nb cur : pos) :
  pred_ok start end_ cf ->
  (forall k v, cf !! k = Some v -> k ∈ seen /\ v ∈ seen) ->
  start ∈ seen -> cur ∈ seen -> nb ∉ seen -> cur <> end_ ->
  (cur = start \/ is_Some (cf !! cur)) ->
  pred_ok start end_ (<[nb:=cur]> cf).
Proof.
  intros (Hs & Hval & rank & Hrank) Hseen Hst Hcur Hnb Hce Hcd.
  assert (nb <> start) by set_solver. assert (nb <> cur) by set_solver.
  split; [by rewrite lookup_insert_ne|split].
  - intros k v. rewrite lookup_insert_Some. intros [[<- <-]|[Hne Hk]].
    + split; [done|]. destruct Hcd as [->|[w Hw]]; [by left|right].
      rewrite lookup_insert_ne by done. eauto.
    + destruct (Hval _ _ Hk) as [? [->|[w Hw]]]; split; auto. right.
      destruct (Hseen _ _ Hk) as [_ Hv]. rewrite lookup_insert_ne by set_solver. eauto.
  - exists (fun p => if decide (p = nb) then S (rank cur) else rank p).
    intros k v. rewrite lookup_insert_Some. intros [[<- <-]|[Hne Hk]].
    + rewrite decide_False by done. rewrite decide_True by done. lia.
    + destruct (Hseen _ _ Hk) as [_ Hv].
      rewrite decide_False by set_solver. rewrite decide_False by congruence.
      by apply Hrank.
Qed.

(** *** [bfs] *)
Definition bfs_inv (start end_ : pos) (st : bfs_state) : Prop :=
  start ∈ b_visited st /\ pred_ok start end_ (b_came_from st) /\
  (forall k v, b_came_from st !! k = Some v -> k ∈ b_visited st /\ v ∈ b_visited st) /\
  (forall n, n ∈ queue st -> n ∈ b_visited st /\ (n = start \/ is_Some (b_came_from st !! n))).

Lemma bfs_relax_one_inv (start end_ cur : pos) (acc : bfs_state * colors) (nb : pos) :
  cur <> end_ ->
  bfs_inv start end_ acc.1 /\ cur ∈ b_visited acc.1 /\
    (cur = start \/ is_Some (b_came_from acc.1 !! cur)) ->
  bfs_inv start end_ (bfs_relax_one cur acc nb).1 /\ cur ∈ b_visited (bfs_relax_one cur acc nb).1 /\
    (cur = start \/ is_Some (b_came_from (bfs_relax_one cur acc nb).1 !! cur)).
Proof.
  destruct acc as [st g]. simpl. intros Hce [(Hs & Hp & Hkv & Hq) [Hc Hcd]].
  unfold bfs_relax_one. case_bool_decide as Hnb; [simpl; unfold bfs_inv; tauto|]. unfold bfs_inv; simpl.
  split; [split; [|split; [|split]]|split].
  - set_solver.
  - by apply (pred_ok_insert_fresh _ _ _ (b_visited st)).
  - intros k v. rewrite lookup_insert_Some. intros [[<- <-]|[_ Hk]]; [set_solver|].
    destruct (Hkv _ _ Hk). set_solver.
  - intros n. rewrite elem_of_app, list_elem_of_singleton. intros [Hn| ->].
    + destruct (Hq n Hn) as [? Hnd]. split; [set_solver|].
      rewrite lookup_insert_is_Some'. tauto.
    + split; [set_solver|right]. by rewrite lookup_insert_eq.
  - set_solver.
  - rewrite lookup_insert_is_Some'. tauto.
Qed.

Lemma bfs_get_inv (start end_ : pos) (st st1 : bfs_state) (cur : pos) :
  bfs_inv start end_ st -> bfs_get st = Some (cur, st1) ->
  bfs_inv start end_ st1 /\ cur ∈ b_visited st1 /\ (cur = start \/ is_Some (b_came_from st1 !! cur)).
Proof.
  intros (Hs & Hp & Hkv & Hq). unfold bfs_get.
  destruct (queue st) as [|x rest] eqn:E; [done|]. intros [= <- <-]. simpl.
  destruct (Hq x) as [Hx Hxd]; [set_solver|].
  split; [split; [|split; [|split]]|]; auto.
  intros n Hn. apply Hq. set_solver.
Qed.

Lemma bfs_reach_inv (nbrs : pos -> list pos) (start end_ : pos) (st : bfs_state) :
  reach bfs_get (bfs_relax nbrs) end_ (bfs_init start) st -> bfs_inv start end_ st.
Proof.
  induction 1 as [|st cur st1 g Hr IH Hg Hce].
  - unfold bfs_inv; simpl. split; [set_solver|split; [|split]].
    + split; [done|split]; [intros k v; by rewrite lookup_empty|].
      exists (fun _ => 0). intros k v. by rewrite lookup_empty.
    + intros k v. by rewrite lookup_empty.
    + intros n Hn. apply list_elem_of_singleton in Hn. subst n. split; [set_solver|by left].
  - pose proof (bfs_get_inv _ _ _ _ _ IH Hg) as Hst1.
    unfold bfs_relax.
    apply (foldl_preserve (fun acc => bfs_inv start end_ acc.1 /\ cur ∈ b_visited acc.1 /\
             (cur = start \/ is_Some (b_came_from acc.1 !! cur)))); [|done].
    intros acc nb. by apply bfs_relax_one_inv.
Qed.

Lemma bfs_get_ok (nbrs : pos -> list pos) (start end_ : pos) :
  get_ok bfs_get (bfs_relax nbrs) b_came_from start end_ (bfs_init start).
Proof.
  intros st' cur st1 Hr Hg.
  destruct (bfs_get_inv _ _ _ _ _ (bfs_reach_inv _ _ _ _ Hr) Hg) as [(_ & Hp & _) [_ Hcd]].
  done.
Qed.

(** *** [dfs] *)
Definition dfs_inv (start end_ : pos) (st : dfs_state) : Prop :=
  start ∈ s_visited st /\ pred_ok start end_ (s_came_from st) /\
  (forall k v, s_came_from st !! k = Some v -> k ∈ s_visited st /\ v ∈ s_visited st) /\
  (forall n, n ∈ stack st -> n ∈ s_visited st /\ (n = start \/ is_Some (s_came_from st !! n))).

Lemma dfs_relax_one_inv (start end_ cur : pos) (acc : dfs_state * colors) (nb : pos) :
  cur <> end_ ->
  dfs_inv start end_ acc.1 /\ cur ∈ s_visited acc.1 /\
    (cur = start \/ is_Some (s_came_from acc.1 !! cur)) ->
  dfs_inv start end_ (dfs_relax_one cur acc nb).1 /\ cur ∈ s_visited (dfs_relax_one cur acc nb).1 /\
    (cur = start \/ is_Some (s_came_from (dfs_relax_one cur acc nb).1 !! cur)).
Proof.
  destruct acc as [st g]. simpl. intros Hce [(Hs & Hp & Hkv & Hq) [Hc Hcd]].
  unfold dfs_relax_one. case_bool_decide as Hnb; [simpl; unfold dfs_inv; tauto|].
  unfold dfs_inv; simpl.
  split; [split; [|split; [|split]]|split].
  - set_solver.
  - by apply (pred_ok_insert_fresh _ _ _ (s_visited st)).
  - intros k v. rewrite lookup_insert_Some. intros [[<- <-]|[_ Hk]]; [set_solver|].
    destruct (Hkv _ _ Hk). set_solver.
  - intros n. rewrite elem_of_app, list_elem_of_singleton. intros [Hn| ->].
    + destruct (Hq n Hn) as [? Hnd]. split; [set_solver|].
      rewrite lookup_insert_is_Some'. tauto.
    + split; [set_solver|right]. by rewrite lookup_insert_eq.
  - set_solver.
  - rewrite lookup_insert_is_Some'. tauto.
Qed.

Lemma dfs_get_inv (start end_ : pos) (st st1 : dfs_state) (cur : pos) :
  dfs_inv start end_ st -> dfs_get st = Some (cur, st1) ->
  dfs_inv start end_ st1 /\ cur ∈ s_visited st1 /\ (cur = start \/ is_Some (s_came_from st1 !! cur)).
Proof.
  intros (Hs & Hp & Hkv & Hq). unfold dfs_get.
  destruct (reverse (stack st)) as [|x rrest] eqn:E; [done|]. intros [= <- <-].
  assert (forall n, n ∈ x :: rrest -> n ∈ stack st) as Hin
    by (intros n Hn; rewrite <- E, elem_of_reverse in Hn; done).
  unfold dfs_inv; simpl.
  destruct (Hq x) as [Hx Hxd]; [apply Hin; set_solver|].
  split; [split; [|split; [|split]]|]; auto.
  intros n Hn. apply Hq, Hin. rewrite elem_of_reverse in Hn. set_solver.
Qed.

Lemma dfs_reach_inv (nbrs : pos -> list pos) (start end_ : pos) (st : dfs_state) :
  reach dfs_get (dfs_relax nbrs) end_ (dfs_init start) st -> dfs_inv start end_ st.
Proof.
  induction 1 as [|st cur st1 g Hr IH Hg Hce].
  - unfold dfs_inv; simpl. split; [set_solver|split; [|split]].
    + split; [done|split]; [intros k v; by rewrite lookup_empty|].
      exists (fun _ => 0). intros k v. by rewrite lookup_empty.
    + intros k v. by rewrite lookup_empty.
    + intros n Hn. apply list_elem_of_singleton in Hn. subst n. split; [set_solver|by left].
  - pose proof (dfs_get_inv _ _ _ _ _ IH Hg) as Hst1.
    unfold dfs_relax.
    apply (foldl_preserve (fun acc => dfs_inv start end_ acc.1 /\ cur ∈ s_visited acc.1 /\
             (cur = start \/ is_Some (s_came_from acc.1 !! cur)))); [|done].
    intros acc nb. by apply dfs_relax_one_inv.
Qed.

(** *** [dijkstra] *)
Lemma dijkstra_lt_asym (a b : dijkstra_entry) :
  dijkstra_lt a b = true -> dijkstra_lt b a = false.
Proof. unfold dijkstra_lt. rewrite Nat.ltb_lt, Nat.ltb_ge. lia. Qed.

Lemma dijkstra_lt_negtrans (a b c : dijkstra_entry) :
  dijkstra_lt a c = true -> dijkstra_lt a b = true \/ dijkstra_lt b c = true.
Proof. unfold dijkstra_lt. rewrite !Nat.ltb_lt. lia. Qed.

Lemma dijkstra_push_ok (hp : list dijkstra_entry) (x : dijkstra_entry) :
  HeapqFacts.heap_ok dijkstra_lt hp ->
  HeapqFacts.heap_ok dijkstra_lt (Heapq.heappush dijkstra_lt hp x) /\
  Heapq.heappush dijkstra_lt hp x ≡ₚ hp ++ [x].
Proof. intros. eapply HeapqFacts.heappush_ok; eauto using dijkstra_lt_asym, dijkstra_lt_negtrans. Qed.

Lemma dijkstra_pop_ok (hp : list dijkstra_entry) m hp' :
  HeapqFacts.heap_ok dijkstra_lt hp -> Heapq.heappop dijkstra_lt hp = Some (m, hp') ->
  hp !! 0 = Some m /\ HeapqFacts.heap_ok dijkstra_lt hp' /\ m :: hp' ≡ₚ hp /\
  (forall y, y ∈ hp -> dijkstra_lt y m = false).
Proof. intros. eapply HeapqFacts.heappop_ok; eauto using dijkstra_lt_asym, dijkstra_lt_negtrans. Qed.

(** [dist] strictly grows along every link, so it ranks the map. *)
Definition dijkstra_inv (start end_ : pos) (st : dijkstra_state) : Prop :=
  dist st !! start = Some 0 /\ d_came_from st !! start = None /\
  (forall k v, d_came_from st !! k = Some v ->
     v <> end_ /\ (v = start \/ is_Some (d_came_from st !! v)) /\
     exists dv dk, dist st !! v = Some dv /\ dist st !! k = Some dk /\ dv < dk) /\
  (forall e, e ∈ pq st -> e.2 = start \/ is_Some (d_came_from st !! e.2)) /\
  HeapqFacts.heap_ok dijkstra_lt (pq st).

Lemma dijkstra_inv_pred_ok (start end_ : pos) (st : dijkstra_state) :
  dijkstra_inv start end_ st -> pred_ok start end_ (d_came_from st).
Proof.
  intros (_ & Hs & Hl & _). split; [done|split].
  - intros k v Hk. by destruct (Hl _ _ Hk) as (? & ? & _).
  - exists (fun p => default 0 (dist st !! p)). intros k v Hk.
    destruct (Hl _ _ Hk) as (_ & _ & dv & dk & -> & -> & ?). done.
Qed.

Lemma dijkstra_relax_one_inv (start end_ cur : pos) (acc : dijkstra_state * colors) (nb : pos) :
  cur <> end_ ->
  dijkstra_inv start end_ acc.1 /\ (cur = start \/ is_Some (d_came_from acc.1 !! cur)) ->
  dijkstra_inv start end_ (dijkstra_relax_one cur acc nb).1 /\
    (cur = start \/ is_Some (d_came_from (dijkstra_relax_one cur acc nb).1 !! cur)).
Proof.
  destruct acc as [st g]. simpl. intros Hce [(Hs0 & Hs & Hl & Hq & Hh) Hcd].
  unfold dijkstra_relax_one.
  destruct (dist st !! cur) as [dc|] eqn:Hdc; [|simpl; unfold dijkstra_inv; tauto].
  destruct (lt_inf (dc + 1) (dist st !! nb)) eqn:Hlt; [|simpl; unfold dijkstra_inv; tauto].
  assert (Hlt' : forall d, dist st !! nb = Some d -> dc + 1 < d).
  { intros d Hd. rewrite Hd in Hlt. simpl in Hlt. by apply Nat.ltb_lt. }
  assert (nb <> start) by (intros ->; specialize (Hlt' _ Hs0); lia).
  assert (nb <> cur) by (intros ->; specialize (Hlt' _ Hdc); lia).
  destruct (dijkstra_push_ok (pq st) (dc + 1, nb) Hh) as [Hh' Hperm].
  unfold dijkstra_inv; simpl.
  split; [split; [|split; [|split; [|split]]]|].
  - by rewrite lookup_insert_ne.
  - by rewrite lookup_insert_ne.
  - intros k v. rewrite lookup_insert_Some. intros [[<- <-]|[Hne Hk]].
    + split; [done|split]; [rewrite lookup_insert_is_Some'; tauto|].
      exists dc, (dc + 1). rewrite lookup_insert_ne by done. rewrite lookup_insert_eq. split_and!; auto; lia.
    + destruct (Hl _ _ Hk) as (Hv & Hvd & dv & dk & Hdv & Hdk & Hlt2).
      split; [done|split]; [rewrite lookup_insert_is_Some'; tauto|].
      rewrite (lookup_insert_ne _ nb k) by done.
      destruct (decide (v = nb)) as [->|Hvn].
      * exists (dc + 1), dk. rewrite lookup_insert_eq. specialize (Hlt' _ Hdv). split_and!; auto; lia.
      * exists dv, dk. rewrite lookup_insert_ne by done. auto.
  - intros e. rewrite Hperm, elem_of_app, list_elem_of_singleton. intros [He| ->].
    + rewrite lookup_insert_is_Some'. destruct (Hq e He); tauto.
    + simpl. right. by rewrite lookup_insert_eq.
  - done.
  - rewrite lookup_insert_is_Some'. tauto.
Qed.

Lemma dijkstra_get_inv (start end_ : pos) (st st1 : dijkstra_state) (cur : pos) :
  dijkstra_inv start end_ st -> dijkstra_get st = Some (cur, st1) ->
  dijkstra_inv start end_ st1 /\ (cur = start \/ is_Some (d_came_from st1 !! cur)).
Proof.
  intros (Hs0 & Hs & Hl & Hq & Hh). unfold dijkstra_get.
  destruct (Heapq.heappop dijkstra_lt (pq st)) as [[[d x] rest]|] eqn:Hp; [|done].
  intros [= <- <-]. destruct (dijkstra_pop_ok _ _ _ Hh Hp) as (_ & Hh' & Hperm & _).
  unfold dijkstra_inv; simpl. split; [split_and!; auto|].
  - intros e He. apply Hq. rewrite <- Hperm. set_solver.
  - apply (Hq (d, x)). rewrite <- Hperm. set_solver.
Qed.

Lemma dijkstra_reach_inv (nbrs : pos -> list pos) (start end_ : pos) (st : dijkstra_state) :
  reach dijkstra_get (dijkstra_relax nbrs) end_ (dijkstra_init start) st ->
  dijkstra_inv start end_ st.
Proof.
  induction 1 as [|st cur st1 g Hr IH Hg Hce].
  - unfold dijkstra_inv; simpl. split_and!.
    + by rewrite lookup_singleton_eq.
    + done.
    + intros k v. by rewrite lookup_empty.
    + intros e He. apply list_elem_of_singleton in He. subst e. by left.
    + intros i x p Hi Hx. apply lookup_lt_Some in Hx. simpl in Hx. lia.
  - pose proof (dijkstra_get_inv _ _ _ _ _ IH Hg) as Hst1.
    unfold dijkstra_relax.
    apply (foldl_preserve (fun acc => dijkstra_inv start end_ acc.1 /\
             (cur = start \/ is_Some (d_came_from acc.1 !! cur)))); [|done].
    intros acc nb. by apply dijkstra_relax_one_inv.
Qed.

Lemma dijkstra_get_ok (nbrs : pos -> list pos) (start end_ : pos) :
  get_ok dijkstra_get (dijkstra_relax nbrs) d_came_from start end_ (dijkstra_init start).
Proof.
  intros st' cur st1 Hr Hg.
  destruct (dijkstra_get_inv _ _ _ _ _ (dijkstra_reach_inv _ _ _ _ Hr) Hg) as [Hi Hcd].
  split; [by apply (dijkstra_inv_pred_ok _ _ st1)|done].
Qed.

(** *** [a_star] *)
Lemma astar_lt_asym (a b : astar_entry) : astar_lt a b = true -> astar_lt b a = false.
Proof.
  destruct a as [[f1 c1] n1], b as [[f2 c2] n2]. unfold astar_lt.
  rewrite !orb_true_iff, !andb_true_iff, !Nat.ltb_lt, Nat.eqb_eq.
  intros H. apply not_true_is_false.
  rewrite !orb_true_iff, !andb_true_iff, !Nat.ltb_lt, Nat.eqb_eq. lia.
Qed.

Lemma astar_lt_negtrans (a b c : astar_entry) :
  astar_lt a c = true -> astar_lt a b = true \/ astar_lt b c = true.
Proof.
  destruct a as [[f1 c1] n1], b as [[f2 c2] n2], c as [[f3 c3] n3]. unfold astar_lt.
  rewrite !orb_true_iff, !andb_true_iff, !Nat.ltb_lt, !Nat.eqb_eq. lia.
Qed.

Lemma astar_push_ok (hp : list astar_entry) (x : astar_entry) :
  HeapqFacts.heap_ok astar_lt hp ->
  HeapqFacts.heap_ok astar_lt (Heapq.heappush astar_lt hp x) /\
  Heapq.heappush astar_lt hp x ≡ₚ hp ++ [x].
Proof. intros. eapply HeapqFacts.heappush_ok; eauto using astar_lt_asym, astar_lt_negtrans. Qed.

Lemma astar_pop_ok (hp : list astar_entry) m hp' :
  HeapqFacts.heap_ok astar_lt hp -> Heapq.heappop astar_lt hp = Some (m, hp') ->
  hp !! 0 = Some m /\ HeapqFacts.heap_ok astar_lt hp' /\ m :: hp' ≡ₚ hp /\
  (forall y, y ∈ hp -> astar_lt y m = false).
Proof. intros. eapply HeapqFacts.heappop_ok; eauto using astar_lt_asym, astar_lt_negtrans. Qed.

(** [g_score] strictly grows along every link; [open_set_hash] holds
    exactly the nodes of [open_set], each once; the counters in
    [open_set] are distinct and at most [count]. *)
Definition astar_inv (start end_ : pos) (st : astar_state) : Prop :=
  g_score st !! start = Some 0 /\ a_came_from st !! start = None /\
  (forall k v, a_came_from st !! k = Some v ->
     v <> end_ /\ (v = start \/ is_Some (a_came_from st !! v)) /\
     exists gv gk, g_score st !! v = Some gv /\ g_score st !! k = Some gk /\ gv < gk) /\
  (forall e, e ∈ open_set st -> e.2 = start \/ is_Some (a_came_from st !! e.2)) /\
  HeapqFacts.heap_ok astar_lt (open_set st) /\
  NoDup (map snd (open_set st)) /\
  (forall n, n ∈ open_set_hash st <-> n ∈ map snd (open_set st)) /\
  (forall e, e ∈ open_set st -> e.1.2 <= count st) /\
  NoDup (map (fun e => e.1.2) (open_set st)).

Lemma astar_inv_pred_ok (start end_ : pos) (st : astar_state) :
  astar_inv start end_ st -> pred_ok start end_ (a_came_from st).
Proof.
  intros (_ & Hs & Hl & _). split; [done|split].
  - intros k v Hk. by destruct (Hl _ _ Hk) as (? & ? & _).
  - exists (fun p => default 0 (g_score st !! p)). intros k v Hk.
    destruct (Hl _ _ Hk) as (_ & _ & gv & gk & -> & -> & ?). done.
Qed.

Lemma elem_of_map_iff {A B : Type} (f : A -> B) (l : list A) (y : B) :
  y ∈ map f l <-> exists x, x ∈ l /\ f x = y.
Proof.
  rewrite list_elem_of_In, in_map_iff. setoid_rewrite list_elem_of_In. naive_solver.
Qed.

Lemma elem_of_map_perm {A B : Type} (f : A -> B) (l l' : list A) (y : B) :
  l ≡ₚ l' -> y ∈ map f l <-> y ∈ map f l'.
Proof. intros Hp. rewrite !elem_of_map_iff. by setoid_rewrite Hp. Qed.

Lemma NoDup_map_perm {A B : Type} (f : A -> B) (l l' : list A) :
  l ≡ₚ l' -> NoDup (map f l) -> NoDup (map f l').
Proof. intros Hp. rewrite !NoDup_ListNoDup. apply Permutation_NoDup, Permutation_map, Hp. Qed.

(** An improvement [temp_g < g_score[neighbor]] keeps the links ranked. *)
Lemma astar_links_insert (start end_ cur nb : pos) (cf : gmap pos pos) (gs : gmap pos nat)
    (gc : nat) :
  gs !! start = Some 0 -> cf !! start = None ->
  (forall k v, cf !! k = Some v ->
     v <> end_ /\ (v = start \/ is_Some (cf !! v)) /\
     exists gv gk, gs !! v = Some gv /\ gs !! k = Some gk /\ gv < gk) ->
  gs !! cur = Some gc -> (forall d, gs !! nb = Some d -> gc + 1 < d) ->
  cur <> end_ -> (cur = start \/ is_Some (cf !! cur)) ->
  <[nb:=gc + 1]> gs !! start = Some 0 /\ <[nb:=cur]> cf !! start = None /\
  (forall k v, <[nb:=cur]> cf !! k = Some v ->
     v <> end_ /\ (v = start \/ is_Some (<[nb:=cur]> cf !! v)) /\
     exists gv gk, <[nb:=gc + 1]> gs !! v = Some gv /\ <[nb:=gc + 1]> gs !! k = Some gk /\
                   gv < gk).
Proof.
  intros Hs0 Hs Hl Hgc Hlt' Hce Hcd.
  assert (nb <> start) by (intros ->; specialize (Hlt' _ Hs0); lia).
  assert (nb <> cur) by (intros ->; specialize (Hlt' _ Hgc); lia).
  split; [by rewrite lookup_insert_ne|split; [by rewrite lookup_insert_ne|]].
  intros k v. rewrite lookup_insert_Some. intros [[<- <-]|[Hne Hk]].
  - split; [done|split]; [rewrite lookup_insert_is_Some'; tauto|].
    exists gc, (gc + 1). rewrite lookup_insert_ne by done. rewrite lookup_insert_eq.
    split_and!; auto; lia.
  - destruct (Hl _ _ Hk) as (Hv & Hvd & gv & gk & Hgv & Hgk & Hlt2).
    split; [done|split]; [rewrite lookup_insert_is_Some'; tauto|].
    rewrite (lookup_insert_ne _ nb k) by done.
    destruct (decide (v = nb)) as [->|Hvn].
    + exists (gc + 1), gk. rewrite lookup_insert_eq. specialize (Hlt' _ Hgv). split_and!; auto; lia.
    + exists gv, gk. rewrite lookup_insert_ne by done. auto.
Qed.

Lemma astar_relax_one_inv (heur : pos -> pos -> nat) (start end_ cur : pos)
    (acc : astar_state * colors) (nb : pos) :
  cur <> end_ ->
  astar_inv start end_ acc.1 /\ (cur = start \/ is_Some (a_came_from acc.1 !! cur)) ->
  astar_inv start end_ (astar_relax_one heur end_ cur acc nb).1 /\
    (cur = start \/ is_Some (a_came_from (astar_relax_one heur end_ cur acc nb).1 !! cur)).
Proof.
  destruct acc as [st g]. simpl.
  intros Hce [(Hs0 & Hs & Hl & Hq & Hh & Hnd & Hhash & Hcnt & Hcnd) Hcd].
  unfold astar_relax_one.
  destruct (g_score st !! cur) as [gc|] eqn:Hgc; [|simpl; unfold astar_inv; tauto].
  destruct (lt_inf (gc + 1) (g_score st !! nb)) eqn:Hlt; [|simpl; unfold astar_inv; tauto].
  assert (Hlt' : forall d, g_score st !! nb = Some d -> gc + 1 < d).
  { intros d Hd. rewrite Hd in Hlt. simpl in Hlt. by apply Nat.ltb_lt. }
  destruct (astar_links_insert start end_ cur nb (a_came_from st) (g_score st) gc)
    as (Hs0' & Hs' & Hl'); auto.
  case_bool_decide as Hin.
  - unfold astar_inv; simpl. split; [split_and!|]; auto.
    + intros e He. rewrite lookup_insert_is_Some'. destruct (Hq e He); tauto.
    + rewrite lookup_insert_is_Some'. tauto.
  - destruct (astar_push_ok (open_set st) (gc + 1 + heur nb end_, count st + 1, nb) Hh)
      as [Hh' Hperm].
    unfold astar_inv; simpl. split; [split_and!|]; auto.
    + intros e. rewrite Hperm, elem_of_app, list_elem_of_singleton. intros [He| ->].
      * rewrite lookup_insert_is_Some'. destruct (Hq e He); tauto.
      * simpl. right. by rewrite lookup_insert_eq.
    + apply (NoDup_map_perm _ (open_set st ++ [(gc + 1 + heur nb end_, count st + 1, nb)]));
        [by symmetry|].
      rewrite map_app. simpl. apply NoDup_app. split_and!; [done| |apply NoDup_singleton].
      intros y Hy. rewrite list_elem_of_singleton. intros ->. by apply Hin, Hhash.
    + intros n. rewrite (elem_of_map_perm _ _ _ _ Hperm), map_app, elem_of_app,
        elem_of_union, elem_of_singleton, Hhash. simpl. rewrite list_elem_of_singleton. tauto.
    + intros e. rewrite Hperm, elem_of_app, list_elem_of_singleton. intros [He| ->].
      * specialize (Hcnt e He). lia.
      * simpl. lia.
    + apply (NoDup_map_perm _ (open_set st ++ [(gc + 1 + heur nb end_, count st + 1, nb)]));
        [by symmetry|].
      rewrite map_app. simpl. apply NoDup_app. split_and!; [done| |apply NoDup_singleton].
      intros y Hy. rewrite list_elem_of_singleton. intros ->.
      apply elem_of_map_iff in Hy as (e & He & Heq). specialize (Hcnt e He). lia.
    + rewrite lookup_insert_is_Some'. tauto.
Qed.

Lemma astar_get_inv (start end_ : pos) (st st1 : astar_state) (cur : pos) :
  astar_inv start end_ st -> astar_get st = Some (cur, st1) ->
  astar_inv start end_ st1 /\ (cur = start \/ is_Some (a_came_from st1 !! cur)).
Proof.
  intros (Hs0 & Hs & Hl & Hq & Hh & Hnd & Hhash & Hcnt & Hcnd). unfold astar_get.
  destruct (Heapq.heappop astar_lt (open_set st)) as [[[[f c] x] rest]|] eqn:Hp; [|done].
  intros [= <- <-]. destruct (astar_pop_ok _ _ _ Hh Hp) as (_ & Hh' & Hperm & _).
  pose proof (NoDup_map_perm snd _ _ (symmetry Hperm) Hnd) as Hnd'.
  pose proof (NoDup_map_perm (fun e => e.1.2) _ _ (symmetry Hperm) Hcnd) as Hcnd'.
  simpl in Hnd', Hcnd'. apply NoDup_cons in Hnd' as [Hx Hnd'].
  apply NoDup_cons in Hcnd' as [_ Hcnd'].
  assert (Hh2 : forall n, n ∈ open_set_hash st <-> n = x \/ n ∈ map snd rest).
  { intros n. rewrite Hhash, <- (elem_of_map_perm _ _ _ _ Hperm). simpl.
    rewrite elem_of_cons. tauto. }
  assert (Hin : forall e, e ∈ rest -> e ∈ open_set st)
    by (intros e He; rewrite <- Hperm; set_solver).
  unfold astar_inv; simpl. split; [split_and!; auto|].
  - intros n. case_bool_decide as Hxh.
    + rewrite elem_of_difference, elem_of_singleton, Hh2. naive_solver.
    + exfalso. apply Hxh, Hh2. by left.
  - apply (Hq (f, c, x)). rewrite <- Hperm. set_solver.
Qed.

Lemma astar_reach_inv (heur : pos -> pos -> nat) (nbrs : pos -> list pos) (start end_ : pos)
    (st : astar_state) :
  reach astar_get (astar_relax heur nbrs end_) end_ (astar_init heur start end_) st ->
  astar_inv start end_ st.
Proof.
  induction 1 as [|st cur st1 g Hr IH Hg Hce].
  - unfold astar_inv; simpl. split_and!.
    + by rewrite lookup_singleton_eq.
    + done.
    + intros k v. by rewrite lookup_empty.
    + intros e He. apply list_elem_of_singleton in He. subst e. by left.
    + intros i x p Hi Hx. apply lookup_lt_Some in Hx. simpl in Hx. lia.
    + apply NoDup_singleton.
    + intros n. rewrite elem_of_singleton. simpl. rewrite list_elem_of_singleton. done.
    + intros e He. apply list_elem_of_singleton in He. subst e. simpl. lia.
    + apply NoDup_singleton.
  - pose proof (astar_get_inv _ _ _ _ _ IH Hg) as Hst1.
    unfold astar_relax.
    apply (foldl_preserve (fun acc => astar_inv start end_ acc.1 /\
             (cur = start \/ is_Some (a_came_from acc.1 !! cur)))); [|done].
    intros acc nb. by apply astar_relax_one_inv.
Qed.

Lemma astar_get_ok (heur : pos -> pos -> nat) (nbrs : pos -> list pos) (start end_ : pos) :
  get_ok astar_get (astar_relax heur nbrs end_) a_came_from start end_ (astar_init heur start end_).
Proof.
  intros st' cur st1 Hr Hg.
  destruct (astar_get_inv _ _ _ _ _ (astar_reach_inv _ _ _ _ _ Hr) Hg) as [Hi Hcd].
  split; [by apply (astar_inv_pred_ok _ _ st1)|done].
Qed.

(** The entry [heappop] returns comes first in the order of [(f, count)],
    strictly: counters are distinct. *)
Lemma astar_pop_first (start end_ : pos) (st : astar_state) (f c : nat) (n : pos)
    (rest : list astar_entry) :
  astar_inv start end_ st ->
  Heapq.heappop astar_lt (open_set st) = Some ((f, c, n), rest) ->
  forall f' c' n', (f', c', n') ∈ rest -> f < f' \/ (f = f' /\ c < c').
Proof.
  intros (_ & _ & _ & _ & Hh & _ & _ & _ & Hcnd) Hp f' c' n' Hy.
  destruct (astar_pop_ok _ _ _ Hh Hp) as (_ & _ & Hperm & Hmin).
  pose proof (NoDup_map_perm (fun e => e.1.2) _ _ (symmetry Hperm) Hcnd) as Hcnd'.
  simpl in Hcnd'. apply NoDup_cons in Hcnd' as [Hc _].
  assert (c <> c').
  { intros ->. apply Hc, elem_of_map_iff. by exists (f', c', n'). }
  specialize (Hmin (f', c', n')). rewrite <- Hperm in Hmin.
  assert (Hm := Hmin ltac:(set_solver)). unfold astar_lt in Hm.
  apply not_true_iff_false in Hm. rewrite orb_true_iff, andb_true_iff, Nat.ltb_lt,
    Nat.ltb_lt, Nat.eqb_eq in Hm. lia.
Qed.

(** The same for [dijkstra], on the cost alone. *)
Lemma dijkstra_pop_first (start end_ : pos) (st : dijkstra_state) (d : nat) (n : pos)
    (rest : list dijkstra_entry) :
  dijkstra_inv start end_ st ->
  Heapq.heappop dijkstra_lt (pq st) = Some ((d, n), rest) ->
  forall d' n', (d', n') ∈ rest -> d <= d'.
Proof.
  intros (_ & _ & _ & _ & Hh) Hp d' n' Hy.
  destruct (dijkstra_pop_ok _ _ _ Hh Hp) as (_ & _ & Hperm & Hmin).
  specialize (Hmin (d', n')). rewrite <- Hperm in Hmin.
  assert (Hm := Hmin ltac:(set_solver)). unfold dijkstra_lt in Hm. simpl in Hm.
  apply Nat.ltb_ge in Hm. done.
Qed.

Lemma dfs_get_ok (nbrs : pos -> list pos) (start end_ : pos) :
  get_ok dfs_get (dfs_relax nbrs) s_came_from start end_ (dfs_init start).
Proof.
  intros st' cur st1 Hr Hg.
  destruct (dfs_get_inv _ _ _ _ _ (dfs_reach_inv _ _ _ _ Hr) Hg) as [(_ & Hp & _) [_ Hcd]].
  done.
Qed.
End FrontierFacts.

(** ** The SPACE handler: the four searches through [run_algo] *)
Module RunFacts.
Import PulseFacts LoopFacts FrontierFacts.

Lemma run_found_path {St : Type} (empty : St -> bool) get relax came_from (start end_ : pos)
    (init : St) (animate : bool) fuel g src flick o :
  get_ok get relax came_from start end_ init -> start <> end_ ->
  run empty get relax came_from start end_ animate fuel init g src flick = Some o ->
  found o = true ->
  chain_from (out_came_from o) end_ (out_path o) /\ last (out_path o) = Some start /\
  (end_ ∉ out_path o) /\ (forall q, q ∈ out_path o -> out_colors o !! q = Some YELLOW) /\
  out_colors o !! end_ = Some PURPLE.
Proof.
  intros Hok Hne Hrun Hf. unfold run in Hrun.
  eapply (search_loop_found_path empty get relax came_from start end_ init); eauto.
  apply reach_init.
Qed.

Lemma run_pulse_free {St : Type} (empty : St -> bool) get relax came_from (start end_ : pos)
    (init : St) fuel g src flick :
  get_ok get relax came_from start end_ init ->
  run empty get relax came_from start end_ true fuel init g src flick =
  run empty get relax came_from start end_ false fuel init g src flick.
Proof.
  intros Hok. unfold run.
  apply (search_loop_animate empty get relax came_from start end_ init).
  - by eapply get_ok_not_end.
  - apply reach_init.
Qed.

Lemma run_algo_get_ok (a : algo) (rows : nat) (g : colors) (start end_ : pos) :
  match a with
  | AStar => get_ok astar_get (astar_relax h (update_neighbors rows (space_grid g start end_)) end_)
               a_came_from start end_ (astar_init h start end_)
  | Dijkstra => get_ok dijkstra_get (dijkstra_relax (update_neighbors rows (space_grid g start end_)))
                  d_came_from start end_ (dijkstra_init start)
  | BFS => get_ok bfs_get (bfs_relax (update_neighbors rows (space_grid g start end_)))
             b_came_from start end_ (bfs_init start)
  | DFS => get_ok dfs_get (dfs_relax (update_neighbors rows (space_grid g start end_)))
             s_came_from start end_ (dfs_init start)
  end.
Proof.
  destruct a; [apply astar_get_ok|apply dijkstra_get_ok|apply bfs_get_ok|apply dfs_get_ok].
Qed.

(** [path_nodes] as C10 describes it. *)
Definition path_shape (start end_ : pos) (o : outcome) : Prop :=
  chain_from (out_came_from o) end_ (out_path o) /\ last (out_path o) = Some start /\
  (end_ ∉ out_path o) /\ (forall q, q ∈ out_path o -> out_colors o !! q = Some YELLOW) /\
  out_colors o !! end_ = Some PURPLE.

(** C10: on every run that returns [True], [path_nodes] is the chain
    [came_from[end]], [came_from[came_from[end]]], ... down to [start],
    which it contains as its last node; it never contains [end]; every
    node on it, [start] included, is painted yellow ([make_path]); and
    [end] is purple ([end.make_end()] after the reconstruction). *)
Theorem found_path_shape (a : algo) (rows : nat) (g : colors) (start end_ : pos) (fuel : nat)
    (src : events) (flick : list bool) (o : outcome) :
  start <> end_ ->
  run_algo a rows g start end_ fuel src flick = Some o ->
  found o = true ->
  chain_from (out_came_from o) end_ (out_path o) /\ last (out_path o) = Some start /\
  (end_ ∉ out_path o) /\ (forall q, q ∈ out_path o -> out_colors o !! q = Some YELLOW) /\
  out_colors o !! end_ = Some PURPLE.
Proof.
  intros Hne Hrun Hf. pose proof (run_algo_get_ok a rows g start end_) as Hok.
  unfold run_algo in Hrun.
  destruct a; simpl in Hok; eapply run_found_path; eauto.
Qed.

(** C10, at a concrete input: [bfs] from (0,0) to (2,2) on an empty 3x3 grid. *)
Lemma found_path_shape_witness :
  match run_algo BFS 3 (app_grid (setup 3 (0, 0) (2, 2) [])) (0, 0) (2, 2) 50 [] [] with
  | Some o => found o = true /\ path_shape (0, 0) (2, 2) o
  | None => False
  end.
Proof.
  destruct (run_algo BFS 3 (app_grid (setup 3 (0, 0) (2, 2) [])) (0, 0) (2, 2) 50 [] [])
    as [o|] eqn:E.
  - assert (Hf : found o = true) by (vm_compute in E; injection E as <-; reflexivity).
    split; [exact Hf|].
    exact (found_path_shape BFS 3 (app_grid (setup 3 (0, 0) (2, 2) [])) (0, 0) (2, 2) 50 [] [] o
             ltac:(discriminate) E Hf).
  - vm_compute in E. discriminate.
Defined.

(** C9: [electric_pulse_path] paints the path nodes yellow and touches
    nothing else, so on a grid whose path nodes are yellow already (as
    [reconstruct_path] leaves them) it changes nothing; and every run of
    the SPACE handler returns the same outcome (value, grid, flags,
    predecessor map) as the same program without the animation. *)
Theorem pulse_is_observational :
  (forall (path_nodes : list pos) (g : colors) (pulses : nat) (flick : list bool) (p : pos),
     electric_pulse_path path_nodes g pulses flick !! p =
     if decide (p ∈ path_nodes) then Some YELLOW else g !! p) /\
  (forall (path_nodes : list pos) (g : colors) (pulses : nat) (flick : list bool),
     (forall p, p ∈ path_nodes -> g !! p = Some YELLOW) ->
     electric_pulse_path path_nodes g pulses flick = g) /\
  (forall (a : algo) (rows : nat) (g : colors) (start end_ : pos) (fuel : nat)
     (src : events) (flick : list bool),
     run_algo a rows g start end_ fuel src flick =
     run_algo_without_pulse a rows g start end_ fuel src flick).
Proof.
  split; [exact electric_pulse_path_lookup|split; [exact electric_pulse_path_id|]].
  intros a rows g start end_ fuel src flick.
  pose proof (run_algo_get_ok a rows g start end_) as Hok.
  unfold run_algo, run_algo_without_pulse.
  destruct a; simpl in Hok; apply run_pulse_free; exact Hok.
Qed.
End RunFacts.

(** ** The frontiers of [a_star] and [dijkstra] *)
Module FrontierOrder.
Import LoopFacts FrontierFacts.

(** One round of the neighbour loop of [a_star] either leaves
    [open_set] and [count] alone, or pushes the entry of a node not in
    [open_set_hash] with the counter [count + 1]. *)
Lemma astar_relax_one_cases (heur : pos -> pos -> nat) (end_ cur nb : pos) (st : astar_state)
    (g : colors) :
  (open_set (astar_relax_one heur end_ cur (st, g) nb).1 = open_set st /\
   count (astar_relax_one heur end_ cur (st, g) nb).1 = count st) \/
  ((nb ∉ open_set_hash st) /\
   exists f, count (astar_relax_one heur end_ cur (st, g) nb).1 = count st + 1 /\
     open_set (astar_relax_one heur end_ cur (st, g) nb).1 =
     Heapq.heappush astar_lt (open_set st) (f, count st + 1, nb)).
Proof.
  unfold astar_relax_one.
  destruct (g_score st !! cur) as [gc|]; [|by left].
  destruct (lt_inf (gc + 1) (g_score st !! nb)); [|by left].
  case_bool_decide as Hin; [by left|right]. split; [done|]. by eexists.
Qed.

(** What [astar_frontier_order] states of a reachable state, as one
    predicate. *)
Definition astar_frontier_facts (heur : pos -> pos -> nat) (end_ : pos) (st : astar_state)
    : Prop :=
  (forall f c n rest, Heapq.heappop astar_lt (open_set st) = Some ((f, c, n), rest) ->
     forall f' c' n', (f', c', n') ∈ rest -> f < f' \/ (f = f' /\ c < c')) /\
  NoDup (map (fun e => e.1.2) (open_set st)) /\
  (forall e, e ∈ open_set st -> e.1.2 <= count st) /\
  NoDup (map snd (open_set st)) /\
  (forall n, n ∈ open_set_hash st <-> n ∈ map snd (open_set st)) /\
  (forall cur nb g, nb ∈ open_set_hash st ->
     open_set (astar_relax_one heur end_ cur (st, g) nb).1 = open_set st) /\
  (forall cur nb g,
     open_set (astar_relax_one heur end_ cur (st, g) nb).1 = open_set st \/
     exists f, open_set (astar_relax_one heur end_ cur (st, g) nb).1 =
               Heapq.heappush astar_lt (open_set st) (f, count st + 1, nb)).

(** C3: in every state an [a_star] run reaches, [heappop] returns the
    entry smallest in [(f_score, count)]: among entries of equal f-score
    the one with the smaller counter, i.e. the earlier inserted, since
    counters are distinct and a new entry gets [count + 1], above all the
    others.  [open_set] holds each node at most once, exactly the nodes
    of [open_set_hash], and an improvement of a node already in
    [open_set_hash] does not push it again. *)
Theorem astar_frontier_order (heur : pos -> pos -> nat) (nbrs : pos -> list pos)
    (start end_ : pos) (st : astar_state) :
  reach astar_get (astar_relax heur nbrs end_) end_ (astar_init heur start end_) st ->
  (forall f c n rest, Heapq.heappop astar_lt (open_set st) = Some ((f, c, n), rest) ->
     forall f' c' n', (f', c', n') ∈ rest -> f < f' \/ (f = f' /\ c < c')) /\
  NoDup (map (fun e => e.1.2) (open_set st)) /\
  (forall e, e ∈ open_set st -> e.1.2 <= count st) /\
  NoDup (map snd (open_set st)) /\
  (forall n, n ∈ open_set_hash st <-> n ∈ map snd (open_set st)) /\
  (forall cur nb g, nb ∈ open_set_hash st ->
     open_set (astar_relax_one heur end_ cur (st, g) nb).1 = open_set st) /\
  (forall cur nb g,
     open_set (astar_relax_one heur end_ cur (st, g) nb).1 = open_set st \/
     exists f, open_set (astar_relax_one heur end_ cur (st, g) nb).1 =
               Heapq.heappush astar_lt (open_set st) (f, count st + 1, nb)).
Proof.
  intros Hr. pose proof (astar_reach_inv _ _ _ _ _ Hr) as Hi.
  destruct Hi as (Hs0 & Hs & Hl & Hq & Hh & Hnd & Hhash & Hcnt & Hcnd) eqn:Hi'.
  split; [intros f c n rest Hp; by apply (astar_pop_first start end_ st f c n rest Hi)|].
  split_and!; auto.
  - intros cur nb g Hin.
    destruct (astar_relax_one_cases heur end_ cur nb st g) as [[-> _]|[Hn _]]; set_solver.
  - intros cur nb g.
    destruct (astar_relax_one_cases heur end_ cur nb st g) as [[-> _]|[_ (f & _ & ->)]];
      [by left|right; by exists f].
Qed.

(** C3, at a concrete input: the state after [a_star] expands (0,0) on
    an empty 3x3 grid with the end at (2,2). *)
Lemma astar_frontier_order_witness :
  match astar_get (astar_init h (0, 0) (2, 2)) with
  | Some (cur, st1) =>
      cur <> (2, 2) /\
      astar_frontier_facts h (2, 2)
        (astar_relax h (update_neighbors 3 (make_grid 3)) (2, 2) cur st1 (make_grid 3)).1
  | None => False
  end.
Proof.
  destruct (astar_get (astar_init h (0, 0) (2, 2))) as [[cur st1]|] eqn:E.
  - assert (Hc : cur <> (2, 2)) by (vm_compute in E; injection E as <- _; discriminate).
    split; [exact Hc|].
    apply (astar_frontier_order h (update_neighbors 3 (make_grid 3)) (0, 0) (2, 2)).
    eapply reach_step; [apply reach_init|exact E|exact Hc].
  - vm_compute in E. discriminate.
Defined.

(** C2, counterexample: on an empty 3x3 grid from (1,1) to (0,0),
    [dijkstra] and [a_star] with the heuristic 0 expand different nodes
    in a different order. *)
Lemma dijkstra_differs_from_zero_heuristic_astar :
  option_map expanded
    (run_algo Dijkstra 3 (app_grid (setup 3 (1, 1) (0, 0) [])) (1, 1) (0, 0) 50 [] []) =
  Some [(1, 1); (2, 1); (1, 2); (1, 0); (0, 1); (2, 0)] /\
  option_map expanded
    (a_star_h (fun _ _ => 0)
       (update_neighbors 3 (space_grid (app_grid (setup 3 (1, 1) (0, 0) [])) (1, 1) (0, 0)))
       (1, 1) (0, 0) 50 (space_grid (app_grid (setup 3 (1, 1) (0, 0) [])) (1, 1) (0, 0)) [] []) =
  Some [(1, 1); (2, 1); (0, 1); (1, 2); (1, 0); (2, 2); (2, 0); (0, 2)].
Proof. split; vm_compute; reflexivity. Qed.

(** C2, as the code has it: in every state a [dijkstra] run reaches,
    [heappop] returns an entry of least cost; entries are bare
    [(cost, node)] pairs, with no counter; and every improvement pushes
    the neighbour, whether or not it is queued already. *)
Theorem dijkstra_frontier (nbrs : pos -> list pos) (start end_ : pos) (st : dijkstra_state) :
  reach dijkstra_get (dijkstra_relax nbrs) end_ (dijkstra_init start) st ->
  (forall d n rest, Heapq.heappop dijkstra_lt (pq st) = Some ((d, n), rest) ->
     forall d' n', (d', n') ∈ rest -> d <= d') /\
  (forall cur nb g dc, dist st !! cur = Some dc -> lt_inf (dc + 1) (dist st !! nb) = true ->
     pq (dijkstra_relax_one cur (st, g) nb).1 = Heapq.heappush dijkstra_lt (pq st) (dc + 1, nb)) /\
  (forall cur nb g dc, dist st !! cur = Some dc -> lt_inf (dc + 1) (dist st !! nb) = false ->
     pq (dijkstra_relax_one cur (st, g) nb).1 = pq st).
Proof.
  intros Hr. pose proof (dijkstra_reach_inv _ _ _ _ Hr) as Hi.
  split; [intros d n rest Hp; by apply (dijkstra_pop_first start end_ st d n rest Hi)|].
  split; intros cur nb g dc Hdc Hlt; unfold dijkstra_relax_one; by rewrite Hdc, Hlt.
Qed.

(** C2, at a concrete input: the state after [dijkstra] expands (0,0)
    on an empty 3x3 grid with the end at (2,2). *)
Lemma dijkstra_frontier_witness :
  match dijkstra_get (dijkstra_init (0, 0)) with
  | Some (cur, st1) =>
      cur <> (2, 2) /\
      forall d n rest,
        Heapq.heappop dijkstra_lt
          (pq (dijkstra_relax (update_neighbors 3 (make_grid 3)) cur st1 (make_grid 3)).1) =
        Some ((d, n), rest) ->
        forall d' n', (d', n') ∈ rest -> d <= d'
  | None => False
  end.
Proof.
  destruct (dijkstra_get (dijkstra_init (0, 0))) as [[cur st1]|] eqn:E.
  - assert (Hc : cur <> (2, 2)) by (vm_compute in E; injection E as <- _; discriminate).
    split; [exact Hc|].
    apply (dijkstra_frontier (update_neighbors 3 (make_grid 3)) (0, 0) (2, 2)).
    eapply reach_step; [apply reach_init|exact E|exact Hc].
  - vm_compute in E. discriminate.
Defined.
End FrontierOrder.

(** ** Stopping a run *)
Module StopFacts.
Import LoopFacts.

Lemma pause_wait_stop (n : nat) (c : ctl) (b : list event) (rest : events) (e : event) :
  PAUSE_SEARCH c = true -> STOP_SEARCH c = false -> first_control b = Some e ->
  e = QUIT \/ e = KEYDOWN K_c \/ e = KEYDOWN K_ESCAPE ->
  pause_wait (S (S n)) c (b :: rest) = Some (process_events b c, rest).
Proof.
  intros Hp Hs Hf He. cbn [pause_wait]. rewrite Hp, Hs. simpl.
  by rewrite (stop_event_sets_stop b e c Hf He), andb_false_r.
Qed.

Lemma search_loop_stop_after_pause {St : Type} (empty : St -> bool) get relax came_from
    (start end_ : pos) (animate : bool) fuel (st : St) g c src flick trace c2 src2 :
  empty st = false -> STOP_SEARCH (poll c src).1 = false ->
  pause_wait fuel (poll c src).1 (poll c src).2 = Some (c2, src2) -> STOP_SEARCH c2 = true ->
  search_loop empty get relax came_from start end_ animate (S fuel) st g c src flick trace =
  Some (mkoutcome false g c2 src2 trace [] (came_from st)).
Proof.
  intros Hne Hs Hw Hs2. cbn [search_loop]. rewrite Hne.
  destruct (poll c src) as [c1 src1]. simpl in Hs, Hw. by rewrite Hs, Hw, Hs2.
Qed.

Lemma search_loop_stop_first_poll {St : Type} (empty : St -> bool) get relax came_from
    (start end_ : pos) (animate : bool) fuel (st : St) g c src flick trace :
  empty st = false -> STOP_SEARCH (poll c src).1 = true ->
  search_loop empty get relax came_from start end_ animate (S fuel) st g c src flick trace =
  Some (mkoutcome false g (poll c src).1 (poll c src).2 trace [] (came_from st)).
Proof.
  intros Hne Hs. cbn [search_loop]. rewrite Hne.
  destruct (poll c src) as [c1 src1]. simpl in Hs. by rewrite Hs.
Qed.

(** C5, as the code has it, for the loop all four searches share: a
    polled batch whose first control event is QUIT, C or ESC sets
    [STOP_SEARCH]; a poll while paused that sets it ends the wait at once;
    and a run whose poll before an expansion, or whose wait after it,
    ends with [STOP_SEARCH] returns [False] there, with the grid and the
    list of expanded nodes as they were before that poll.  A stop key
    behind a P in the same batch is not acted on (see the
    counterexample). *)
Theorem stop_ends_run {St : Type} (empty : St -> bool) (get : St -> option (pos * St))
    (relax : pos -> St -> colors -> St * colors) (came_from : St -> gmap pos pos)
    (start end_ : pos) (animate : bool) (fuel : nat) (st : St) (g : colors) (c : ctl)
    (src : events) (flick : list bool) (trace : list pos) :
  (forall (b : list event) (c0 : ctl) (e : event), first_control b = Some e ->
     e = QUIT \/ e = KEYDOWN K_c \/ e = KEYDOWN K_ESCAPE ->
     STOP_SEARCH (process_events b c0) = true) /\
  (forall (n : nat) (c0 : ctl) (b : list event) (rest : events) (e : event),
     PAUSE_SEARCH c0 = true -> STOP_SEARCH c0 = false -> first_control b = Some e ->
     e = QUIT \/ e = KEYDOWN K_c \/ e = KEYDOWN K_ESCAPE ->
     pause_wait (S (S n)) c0 (b :: rest) = Some (process_events b c0, rest)) /\
  (empty st = false -> STOP_SEARCH (poll c src).1 = true ->
     search_loop empty get relax came_from start end_ animate (S fuel) st g c src flick trace =
     Some (mkoutcome false g (poll c src).1 (poll c src).2 trace [] (came_from st))) /\
  (forall (c2 : ctl) (src2 : events),
     empty st = false -> STOP_SEARCH (poll c src).1 = false ->
     pause_wait fuel (poll c src).1 (poll c src).2 = Some (c2, src2) -> STOP_SEARCH c2 = true ->
     search_loop empty get relax came_from start end_ animate (S fuel) st g c src flick trace =
     Some (mkoutcome false g c2 src2 trace [] (came_from st))).
Proof.
  split; [intros b c0 e; apply stop_event_sets_stop|split; [exact pause_wait_stop|split]].
  - apply search_loop_stop_first_poll.
  - intros c2 src2. apply search_loop_stop_after_pause.
Qed.

(** C5, counterexample: [bfs] on an empty 3x3 grid whose first polled
    batch is P then ESC, and whose second is P: the ESC is dropped, the
    second P resumes, and the run returns [True]. *)
Lemma stop_behind_pause_is_dropped :
  option_map (fun o => (found o, out_ctl o))
    (run_algo BFS 3 (app_grid (setup 3 (0, 0) (2, 2) [])) (0, 0) (2, 2) 50
       [[KEYDOWN K_p; KEYDOWN K_ESCAPE]; [KEYDOWN K_p]] []) =
  Some (true, mkctl false false false).
Proof. vm_compute. reflexivity. Qed.
End StopFacts.

(** ** Two runs of [a_star] *)
Module AStarRuns.

(** [l] is a walk of unit moves onto cells of [g] that are not barriers. *)
Fixpoint walk_ok (g : colors) (l : list pos) : bool :=
  match l with
  | p :: ((q :: _) as l') =>
      bool_decide (h p q = 1) && bool_decide (is_Some (g !! q)) &&
      negb (bool_decide (g !! q = Some BLACK)) && walk_ok g l'
  | _ => true
  end.

(** A 12x12 grid, start (0,7), end (11,10). *)
Definition detour_grid : colors :=
  app_grid (setup 12 (0, 7) (11, 10)
              [(1, 7); (3, 8); (4, 7); (7, 8); (7, 9); (10, 9); (10, 10); (10, 11)]).

(** An 8x8 grid, start (7,4), end (1,0) walled in by barriers. *)
Definition walled_grid : colors :=
  app_grid (setup 8 (7, 4) (1, 0)
              [(0, 2); (1, 1); (2, 1); (2, 4); (3, 1); (4, 0); (4, 4); (5, 5)]).

(** C1: [a_star] returns [True] with a path of 18 moves where [bfs]
    returns one of 16 moves, a walk of unit moves over non-barrier cells
    from the end back to the start.  An improvement of a node already in
    [open_set] updates [g_score] but leaves its old, larger, priority in
    the heap. *)
Lemma astar_path_not_shortest :
  match run_algo AStar 12 detour_grid (0, 7) (11, 10) 400 [] [],
        run_algo BFS 12 detour_grid (0, 7) (11, 10) 400 [] [] with
  | Some oa, Some ob =>
      found oa = true /\ length (out_path oa) = 18 /\
      walk_ok detour_grid ((11, 10) :: out_path oa) = true /\
      found ob = true /\ length (out_path ob) = 16 /\
      walk_ok detour_grid ((11, 10) :: out_path ob) = true /\
      last (out_path ob) = Some (0, 7)
  | _, _ => False
  end.
Proof. vm_compute. split_and!; reflexivity. Qed.

(** C4: on [walled_grid] the end cannot be reached (the five cells
    around it are closed under [update_neighbors] and do not hold the
    start); [a_star] exhausts its frontier and returns [False], but
    expands (1,6) twice: (1,6) is improved after it left [open_set_hash]
    and is pushed again. *)
Lemma astar_expands_node_twice :
  forallb (fun p => forallb (fun q => bool_decide (q ∈ [(1, 0); (0, 0); (0, 1); (2, 0); (3, 0)]))
                      (update_neighbors 8 (space_grid walled_grid (7, 4) (1, 0)) p))
    [(1, 0); (0, 0); (0, 1); (2, 0); (3, 0)] = true /\
  match run_algo AStar 8 walled_grid (7, 4) (1, 0) 400 [] [] with
  | Some o =>
      found o = false /\ out_ctl o = ctl_reset /\
      length (filter (fun p => p = (1, 6)) (expanded o)) = 2
  | None => False
  end.
Proof. vm_compute. split_and!; reflexivity. Qed.
End AStarRuns.

(* ==================================================================== *)
(** * Further properties of the program *)

(** ** The grid graph: [make_grid], [update_neighbors], [h] *)
Module GridFacts.
Import NeighborFacts.


Lemma in_grid_iff (rows : nat) (p : pos) :
  in_grid rows p = true <-> p.1 < rows /\ p.2 < rows.
Proof. unfold in_grid. by rewrite andb_true_iff, !Nat.ltb_lt. Qed.


(** The neighbour lists are symmetric up to barriers: if [q] is a
    neighbour of the grid node [p], then [p] is a neighbour of [q] exactly
    when [p] is not a barrier. *)
Theorem neighbors_symmetric (rows : nat) (g : colors) (p q : pos) :
  in_grid rows p = true -> q ∈ update_neighbors rows g p ->
  (p ∈ update_neighbors rows g q <-> is_barrier g p = false).
Proof.
  destruct p as [r c], q as [r' c']. intros Hin Hq.
  apply in_grid_iff in Hin as [Hr Hc]. simpl in Hr, Hc.
  apply update_neighbors_elem in Hq as (Hq & Hh & Hb); [|lia|lia].
  apply in_grid_iff in Hq as [Hr' Hc']. simpl in Hr', Hc'.
  rewrite update_neighbors_elem, in_grid_iff by lia. simpl.
  assert (h (r', c') (r, c) = 1) by (unfold h in *; lia).
  tauto.
Qed.

Lemma neighbors_symmetric_witness :
  (in_grid 3 (1, 1) = true /\ (0, 1) ∈ update_neighbors 3 (make_grid 3) (1, 1)) /\
  ((1, 1) ∈ update_neighbors 3 (make_grid 3) (0, 1) <-> is_barrier (make_grid 3) (1, 1) = false).
Proof.
  split; [split; [reflexivity|apply (bool_decide_unpack _); vm_compute; exact I]|].
  apply neighbors_symmetric; [reflexivity|apply (bool_decide_unpack _); vm_compute; exact I].
Defined.

(** The heuristic [h] of [a_star] changes by exactly one along every
    neighbour link: it is consistent for the grid graph. *)
Theorem heuristic_unit_step (rows : nat) (g : colors) (p q e : pos) :
  in_grid rows p = true -> q ∈ update_neighbors rows g p ->
  h q e = h p e + 1 \/ h p e = h q e + 1.
Proof.
  destruct p as [r c], q as [r' c'], e as [x y]. intros Hin Hq.
  apply in_grid_iff in Hin as [Hr Hc]. simpl in Hr, Hc. apply update_neighbors_elem in Hq as (_ & Hh & _); [|lia|lia].
  apply h_adjacent in Hh. unfold h. lia.
Qed.

Lemma heuristic_unit_step_witness :
  (in_grid 3 (1, 1) = true /\ (0, 1) ∈ update_neighbors 3 (make_grid 3) (1, 1)) /\
  (h (0, 1) (2, 2) = h (1, 1) (2, 2) + 1 \/ h (1, 1) (2, 2) = h (0, 1) (2, 2) + 1).
Proof.
  split; [split; [reflexivity|apply (bool_decide_unpack _); vm_compute; exact I]|].
  apply (heuristic_unit_step 3 (make_grid 3));
    [reflexivity|apply (bool_decide_unpack _); vm_compute; exact I].
Defined.
End GridFacts.

(** ** Mouse clicks on the grid *)
Module ClickFacts.



(** A click where no node is drawn: when [width // rows] is zero,
    [get_clicked_pos] divides by zero and the exception escapes [main]
    (a crash); otherwise a click in the strip right of or below the
    [rows * gap] square, left when [rows] does not divide the width,
    falls outside [0 <= row < ROWS and 0 <= col < ROWS] and changes
    nothing. *)
Theorem click_outside_squares (rows width px py : nat) (s : app_state) :
  (width `div` rows = 0 ->
   grid_click rows width (px, py) s = None /\ grid_erase rows width (px, py) s = None) /\
  (0 < width `div` rows ->
   rows * (width `div` rows) <= px \/ rows * (width `div` rows) <= py ->
   grid_click rows width (px, py) s = Some s /\ grid_erase rows width (px, py) s = Some s).
Proof.
  unfold grid_click, grid_erase, get_clicked_pos. split.
  - intros H0. by rewrite bool_decide_true by done.
  - intros Hgap Hout. rewrite bool_decide_false by lia.
    assert (Hout' : rows <= px `div` (width `div` rows) \/ rows <= py `div` (width `div` rows)).
    { destruct Hout as [Hp|Hp]; [left|right]; apply Nat.div_le_lower_bound; lia. }
    assert (Hig : in_grid rows (px `div` (width `div` rows), py `div` (width `div` rows)) = false).
    { unfold in_grid; simpl. apply andb_false_iff.
      destruct Hout' as [Hp|Hp]; [left|right]; apply Nat.ltb_ge; lia. }
    unfold paint, erase. by rewrite Hig.
Qed.
End ClickFacts.

(** ** The pause loop *)
Module PauseFacts.
Import EventFacts.

(** While a run is paused, batches with no control event are consumed
    without effect, and the first batch whose first control event is P
    resumes it (the rest of that batch is dropped). *)
Theorem pause_wait_resumes (c : ctl) (bs : events) (b : list event) (rest : events) (n : nat) :
  PAUSE_SEARCH c = true -> STOP_SEARCH c = false ->
  Forall (fun b0 => first_control b0 = None) bs -> first_control b = Some (KEYDOWN K_p) ->
  pause_wait (length bs + S (S n)) c (bs ++ b :: rest) =
  Some (mkctl false false (CLEAR_ON_STOP c), rest).
Proof.
  intros Hp Hs Hbs Hb. induction Hbs as [|b0 bs Hb0 _ IH]; simpl.
  - rewrite Hp, Hs. simpl. rewrite process_events_first_control, Hb. simpl.
    rewrite Hs, Hp. reflexivity.
  - rewrite Hp, Hs. simpl. rewrite process_events_first_control, Hb0. exact IH.
Qed.

Lemma pause_wait_resumes_witness :
  (PAUSE_SEARCH (mkctl false true false) = true /\ STOP_SEARCH (mkctl false true false) = false /\
   Forall (fun b0 => first_control b0 = None) [[OTHER_EVENT]; []] /\
   first_control [OTHER_EVENT; KEYDOWN K_p; QUIT] = Some (KEYDOWN K_p)) /\
  pause_wait (length [[OTHER_EVENT]; []] + S (S 0)) (mkctl false true false)
    ([[OTHER_EVENT]; []] ++ [OTHER_EVENT; KEYDOWN K_p; QUIT] :: []) =
  Some (mkctl false false (CLEAR_ON_STOP (mkctl false true false)), []).
Proof.
  split; [split_and!; [reflexivity|reflexivity|repeat constructor|reflexivity]|].
  apply pause_wait_resumes;
    [reflexivity|reflexivity|repeat constructor|reflexivity].
Defined.

(** A paused run with no further input never returns: the pause loop
    waits for as long as it runs, and so does every search loop that
    reaches it. *)
Theorem paused_without_input_waits {St : Type} (empty : St -> bool)
    (get : St -> option (pos * St)) (relax : pos -> St -> colors -> St * colors)
    (came_from : St -> gmap pos pos) (start end_ : pos) (animate : bool) (fuel : nat) (st : St) (g : colors) (c : ctl)
    (flick : list bool) (trace : list pos) :
  PAUSE_SEARCH c = true -> STOP_SEARCH c = false -> empty st = false ->
  (forall n, pause_wait n c [] = None) /\
  search_loop empty get relax came_from start end_ animate fuel st g c [] flick trace = None.
Proof.
  intros Hp Hs Hne.
  assert (Hw : forall n, pause_wait n c [] = None).
  { induction n as [|n IH]; [done|]. simpl. rewrite Hp, Hs. exact IH. }
  split; [exact Hw|]. destruct fuel as [|fuel]; [done|].
  cbn [search_loop]. rewrite Hne. simpl. rewrite Hs, Hw. done.
Qed.

Lemma paused_without_input_waits_witness :
  (PAUSE_SEARCH (mkctl false true false) = true /\ STOP_SEARCH (mkctl false true false) = false /\
   bfs_empty (bfs_init (0, 0)) = false) /\
  ((forall n, pause_wait n (mkctl false true false) [] = None) /\
   search_loop bfs_empty bfs_get (bfs_relax (update_neighbors 3 (make_grid 3))) b_came_from
     (0, 0) (2, 2) true 50 (bfs_init (0, 0)) (make_grid 3) (mkctl false true false) [] [] [] = None).
Proof.
  split; [split_and!; reflexivity|].
  apply paused_without_input_waits; reflexivity.
Defined.
End PauseFacts.

(** ** The SPACE handler of [main] *)
Module SpaceFacts.
Import EventFacts LoopFacts StopFacts.

(** A run whose first polled batch starts with a stop key returns
    [False] at once, with the reset grid and the flags of that batch. *)
Lemma run_algo_stop_first_batch (a : algo) (rows : nat) (g : colors) (start end_ : pos)
    (fuel : nat) (b : list event) (rest : events) (flick : list bool) (e : event) :
  first_control b = Some e -> e = QUIT \/ e = KEYDOWN K_c \/ e = KEYDOWN K_ESCAPE ->
  run_algo a rows g start end_ (S fuel) (b :: rest) flick =
  Some (mkoutcome false (space_grid g start end_) (process_events b ctl_reset) rest [] [] ∅).
Proof.
  intros Hf He. pose proof (stop_event_sets_stop b e ctl_reset Hf He) as Hs.
  unfold run_algo; destruct a;
    [unfold a_star, a_star_h|unfold dijkstra|unfold bfs|unfold dfs]; unfold run;
    rewrite search_loop_stop_first_poll by done; reflexivity.
Qed.

(** SPACE, then a first polled batch whose first control event is a
    stop key: the C key clears the grid (no start, no end, all flags
    reset), while ESC, and QUIT too (the window stays open), keep the
    reset grid with its start and end and leave [STOP_SEARCH] set. *)
Theorem space_stop_key (a : algo) (rows : nat) (g : colors) (start end_ : pos) (c : ctl)
    (fuel : nat) (b : list event) (rest : events) (flick : list bool) (e : event) :
  first_control b = Some e -> e = QUIT \/ e = KEYDOWN K_c \/ e = KEYDOWN K_ESCAPE ->
  space_handler (Some a) rows (mkapp g (Some start) (Some end_)) c (S fuel) (b :: rest) flick =
  Some (if decide (e = KEYDOWN K_c) then (app_init rows, ctl_reset, rest)
        else (mkapp (space_grid g start end_) (Some start) (Some end_), mkctl true false false, rest)).
Proof.
  intros Hf He. unfold space_handler. simpl.
  rewrite (run_algo_stop_first_batch a rows g start end_ fuel b rest flick e Hf He). simpl.
  rewrite process_events_first_control, Hf.
  destruct He as [-> | [-> | ->]]; reflexivity.
Qed.

Lemma space_stop_key_witness :
  (first_control [OTHER_EVENT; KEYDOWN K_c; KEYDOWN K_p] = Some (KEYDOWN K_c) /\
   (KEYDOWN K_c = QUIT \/ KEYDOWN K_c = KEYDOWN K_c \/ KEYDOWN K_c = KEYDOWN K_ESCAPE)) /\
  space_handler (Some BFS) 3 (mkapp (app_grid (setup 3 (0, 0) (2, 2) [(1, 1)])) (Some (0, 0)) (Some (2, 2)))
    ctl_reset 10 ([OTHER_EVENT; KEYDOWN K_c; KEYDOWN K_p] :: []) [] =
  Some (if decide (KEYDOWN K_c = KEYDOWN K_c) then (app_init 3, ctl_reset, [])
        else (mkapp (space_grid (app_grid (setup 3 (0, 0) (2, 2) [(1, 1)])) (0, 0) (2, 2))
                (Some (0, 0)) (Some (2, 2)), mkctl true false false, [])).
Proof.
  split; [split; [reflexivity|right; left; reflexivity]|].
  apply (space_stop_key BFS 3 _ (0, 0) (2, 2) ctl_reset 9 _ [] [] (KEYDOWN K_c));
    [reflexivity|right; left; reflexivity].
Defined.
End SpaceFacts.

(** ** An invariant of the loop the four searches share *)
Module LoopInvariant.

Section LoopInvariant.
Context {St : Type}.
Variable empty : St -> bool.
Variable get : St -> option (pos * St).
Variable relax : pos -> St -> colors -> St * colors.
Variable came_from : St -> gmap pos pos.
Variables (start end_ : pos).
(** A property of the frontier, the grid and the expanded nodes that
    every expansion keeps. *)
Variable Inv : St -> colors -> list pos -> Prop.
Hypothesis Inv_step : forall st g tr cur st1,
  Inv st g tr -> get st = Some (cur, st1) -> cur <> end_ ->
  Inv (relax cur st1 g).1
      (if decide (cur <> start) then <[cur:=RED]> (relax cur st1 g).2 else (relax cur st1 g).2)
      (tr ++ [cur]).

(** When the loop returns, the invariant holds of the state it returns
    from: on [False] the frontier is empty or [STOP_SEARCH] is set, on
    [True] the state pops [end]. *)
Lemma search_loop_inv (animate : bool) fuel st g c src flick trace o :
  Inv st g trace -> STOP_SEARCH c = false ->
  search_loop empty get relax came_from start end_ animate fuel st g c src flick trace = Some o ->
  exists st' g', Inv st' g' (expanded o) /\
    ((found o = false /\ out_colors o = g' /\ out_came_from o = came_from st' /\
      (empty st' = true \/ STOP_SEARCH (out_ctl o) = true)) \/
     (found o = true /\ exists st1, get st' = Some (end_, st1) /\ out_came_from o = came_from st1)).
Proof.
  revert st g c src trace.
  induction fuel as [|fuel IH]; intros st g c src trace Hi Hs Hrun; [discriminate|].
  cbn [search_loop] in Hrun.
  destruct (empty st) eqn:He.
  { injection Hrun as <-. exists st, g. split; [done|]. left. simpl. auto. }
  destruct (poll c src) as [c1 src1].
  destruct (STOP_SEARCH c1) eqn:Hs1.
  { injection Hrun as <-. exists st, g. split; [done|]. left. simpl. auto. }
  destruct (pause_wait fuel c1 src1) as [[c2 src2]|]; [|discriminate].
  destruct (STOP_SEARCH c2) eqn:Hs2.
  { injection Hrun as <-. exists st, g. split; [done|]. left. simpl. auto. }
  destruct (get st) as [[cur st1]|] eqn:Hg; [|discriminate].
  destruct (decide (cur = end_)) as [->|Hne].
  - destruct (reconstruct_path (came_from st1) end_ g) as [g1 p].
    injection Hrun as <-. exists st, g. split; [done|]. right. split; [done|]. by exists st1.
  - pose proof (Inv_step st g trace cur st1 Hi Hg Hne) as Hi'.
    destruct (relax cur st1 g) as [st2 g1]. simpl in Hi'.
    exact (IH _ _ _ _ _ Hi' Hs2 Hrun).
Qed.
End LoopInvariant.

End LoopInvariant.

(** ** Paths follow the neighbour lists; what the searches expand *)
Module WalkFacts.
Import NeighborFacts LoopFacts FrontierFacts LoopInvariant GridFacts.

Lemma foldl_links {S : Type} (cf : S -> gmap pos pos) (f : S * colors -> pos -> S * colors)
    (cur : pos) (l : list pos) (acc : S * colors) :
  (forall acc x k v, cf (f acc x).1 !! k = Some v -> cf acc.1 !! k = Some v \/ (v = cur /\ k = x)) ->
  forall k v, cf (foldl f acc l).1 !! k = Some v -> cf acc.1 !! k = Some v \/ (v = cur /\ k ∈ l).
Proof.
  intros Hf. revert acc. induction l as [|x l IH]; intros acc k v Hk; simpl in Hk; [by left|].
  destruct (IH _ _ _ Hk) as [Hk'|[-> Hl]].
  - destruct (Hf _ _ _ _ Hk') as [?|[-> ->]]; [by left|right; split; [done|set_solver]].
  - right. split; [done|set_solver].
Qed.

Lemma bfs_relax_links (nbrs : pos -> list pos) cur st g k v :
  b_came_from (bfs_relax nbrs cur st g).1 !! k = Some v ->
  b_came_from st !! k = Some v \/ (v = cur /\ k ∈ nbrs cur).
Proof.
  apply (foldl_links b_came_from (bfs_relax_one cur) cur (nbrs cur) (st, g)).
  intros [s g0] x k0 v0. unfold bfs_relax_one. case_bool_decide; simpl; [by left|].
  rewrite lookup_insert_Some. intros [[<- <-]|[_ ?]]; [by right|by left].
Qed.

Lemma dfs_relax_links (nbrs : pos -> list pos) cur st g k v :
  s_came_from (dfs_relax nbrs cur st g).1 !! k = Some v ->
  s_came_from st !! k = Some v \/ (v = cur /\ k ∈ nbrs cur).
Proof.
  apply (foldl_links s_came_from (dfs_relax_one cur) cur (nbrs cur) (st, g)).
  intros [s g0] x k0 v0. unfold dfs_relax_one. case_bool_decide; simpl; [by left|].
  rewrite lookup_insert_Some. intros [[<- <-]|[_ ?]]; [by right|by left].
Qed.

Lemma dijkstra_relax_links (nbrs : pos -> list pos) cur st g k v :
  d_came_from (dijkstra_relax nbrs cur st g).1 !! k = Some v ->
  d_came_from st !! k = Some v \/ (v = cur /\ k ∈ nbrs cur).
Proof.
  apply (foldl_links d_came_from (dijkstra_relax_one cur) cur (nbrs cur) (st, g)).
  intros [s g0] x k0 v0. unfold dijkstra_relax_one.
  destruct (dist s !! cur); [|by left]. destruct (lt_inf _ _); simpl; [|by left].
  rewrite lookup_insert_Some. intros [[<- <-]|[_ ?]]; [by right|by left].
Qed.

Lemma astar_relax_links (heur : pos -> pos -> nat) (nbrs : pos -> list pos) end_ cur st g k v :
  a_came_from (astar_relax heur nbrs end_ cur st g).1 !! k = Some v ->
  a_came_from st !! k = Some v \/ (v = cur /\ k ∈ nbrs cur).
Proof.
  apply (foldl_links a_came_from (astar_relax_one heur end_ cur) cur (nbrs cur) (st, g)).
  intros [s g0] x k0 v0. unfold astar_relax_one.
  destruct (g_score s !! cur); [|by left]. destruct (lt_inf _ _); [|by left].
  case_bool_decide; simpl;
  rewrite lookup_insert_Some; intros [[<- <-]|[_ ?]]; (by right) || (by left).
Qed.

Lemma bfs_get_cf st cur st1 : bfs_get st = Some (cur, st1) -> b_came_from st1 = b_came_from st.
Proof. unfold bfs_get. destruct (queue st); [done|]. by intros [= <- <-]. Qed.

Lemma dfs_get_cf st cur st1 : dfs_get st = Some (cur, st1) -> s_came_from st1 = s_came_from st.
Proof. unfold dfs_get. destruct (reverse (stack st)); [done|]. by intros [= <- <-]. Qed.

Lemma dijkstra_get_cf st cur st1 :
  dijkstra_get st = Some (cur, st1) -> d_came_from st1 = d_came_from st.
Proof.
  unfold dijkstra_get. destruct (Heapq.heappop _ _) as [[[? ?] ?]|]; [|done].
  by intros [= <- <-].
Qed.

Lemma astar_get_cf st cur st1 : astar_get st = Some (cur, st1) -> a_came_from st1 = a_came_from st.
Proof.
  unfold astar_get. destruct (Heapq.heappop _ _) as [[[[? ?] ?] ?]|]; [|done].
  by intros [= <- <-].
Qed.

Lemma chain_lookup (cf : gmap pos pos) (x : pos) (l : list pos) i a b :
  chain_from cf x l -> (x :: l) !! i = Some a -> (x :: l) !! S i = Some b -> cf !! a = Some b.
Proof.
  revert x i. induction l as [|w l IH]; intros x i Hc Ha Hb.
  - destruct i; discriminate.
  - destruct Hc as [Hxw Hc]. destruct i as [|i]; simpl in Ha, Hb.
    + by simplify_eq.
    + exact (IH w i Hc Ha Hb).
Qed.

Lemma space_grid_barrier (g : colors) (start end_ p : pos) :
  is_barrier (space_grid g start end_) p = is_barrier g p.
Proof.
  unfold is_barrier, space_grid. rewrite map_lookup_imap.
  destruct (g !! p) as [c|]; simpl; [|done].
  repeat case_bool_decide; simplify_eq/=; try done; congruence.
Qed.

Section Walks.
Context {St : Type}.
Variable empty : St -> bool.
Variable get : St -> option (pos * St).
Variable relax : pos -> St -> colors -> St * colors.
Variable came_from : St -> gmap pos pos.
Variables (start end_ : pos) (init : St) (nbrs : pos -> list pos) (P : pos -> Prop).
Hypothesis Hok : get_ok get relax came_from start end_ init.
Hypothesis P_start : P start.
Hypothesis P_nbrs : forall v k, P v -> k ∈ nbrs v -> P k.
Hypothesis init_cf : came_from init = ∅.
Hypothesis get_cf : forall st cur st1, get st = Some (cur, st1) -> came_from st1 = came_from st.
Hypothesis relax_links : forall cur st1 g k v, came_from (relax cur st1 g).1 !! k = Some v ->
  came_from st1 !! k = Some v \/ (v = cur /\ k ∈ nbrs cur).

(** Every link [k -> v] of the predecessor map follows a neighbour list,
    between nodes of [P]. *)
Definition links_ok (cf : gmap pos pos) : Prop :=
  forall k v, cf !! k = Some v -> k ∈ nbrs v /\ P v /\ P k.

Lemma popped_ok st cur st1 :
  reach get relax end_ init st -> links_ok (came_from st) -> get st = Some (cur, st1) ->
  cur = start \/ exists v, came_from st !! cur = Some v /\ cur ∈ nbrs v /\ P v.
Proof.
  intros Hr Hl Hg. destruct (Hok _ _ _ Hr Hg) as [_ [->|[v Hv]]]; [by left|right].
  rewrite (get_cf _ _ _ Hg) in Hv. exists v. split; [done|].
  by destruct (Hl _ _ Hv) as (? & ? & _).
Qed.

Lemma reach_links st : reach get relax end_ init st -> links_ok (came_from st).
Proof.
  induction 1 as [|st cur st1 g Hr IH Hg Hce].
  - intros k v. rewrite init_cf, lookup_empty. done.
  - assert (Hc : P cur).
    { destruct (popped_ok _ _ _ Hr IH Hg) as [->|(v & _ & Hin & Hv)]; [done|].
      exact (P_nbrs _ _ Hv Hin). }
    intros k v Hk. destruct (relax_links _ _ _ _ _ Hk) as [Hk'|[-> Hin]].
    + rewrite (get_cf _ _ _ Hg) in Hk'. by apply IH.
    + split_and!; [done|done|exact (P_nbrs _ _ Hc Hin)].
Qed.

Lemma found_walk (animate : bool) fuel g src flick o :
  search_loop empty get relax came_from start end_ animate fuel init g ctl_reset src flick [] = Some o ->
  found o = true ->
  forall i x y, (end_ :: out_path o) !! i = Some x -> (end_ :: out_path o) !! S i = Some y ->
    x ∈ nbrs y /\ P x /\ P y.
Proof.
  intros Hrun Hf i x y Hx Hy.
  destruct (search_loop_found empty get relax came_from start end_ init animate fuel init g
              ctl_reset src flick [] o (reach_init get relax end_ init) Hrun Hf)
    as (st' & st1 & g0 & g1 & Hr & Hg & Hrec & _ & _).
  pose proof (Hok _ _ _ Hr Hg) as [(_ & _ & rank & Hrank) _].
  assert (Hch : chain_from (came_from st1) end_ (out_path o)).
  { change (out_path o) with (g1, out_path o).2. rewrite <- Hrec.
    by eapply reconstruct_path_chain. }
  pose proof (chain_lookup _ _ _ _ _ _ Hch Hx Hy) as Hxy.
  rewrite (get_cf _ _ _ Hg) in Hxy. destruct (reach_links st' Hr _ _ Hxy) as (? & ? & ?).
  done.
Qed.

Lemma expanded_ok (animate : bool) fuel g src flick o :
  search_loop empty get relax came_from start end_ animate fuel init g ctl_reset src flick [] = Some o ->
  forall x, x ∈ expanded o -> x <> end_ /\ (x = start \/ exists v, P v /\ x ∈ nbrs v).
Proof.
  intros Hrun.
  set (Inv := fun (st : St) (_ : colors) (tr : list pos) => reach get relax end_ init st /\
                forall x, x ∈ tr -> x <> end_ /\ (x = start \/ exists v, P v /\ x ∈ nbrs v)).
  assert (Hstep : forall st g tr cur st1, Inv st g tr -> get st = Some (cur, st1) -> cur <> end_ ->
    Inv (relax cur st1 g).1
      (if decide (cur <> start) then <[cur:=RED]> (relax cur st1 g).2 else (relax cur st1 g).2)
      (tr ++ [cur])).
  { intros st g0 tr cur st1 [Hr Htr] Hg Hne. split; [by econstructor|].
    intros x Hx. apply elem_of_app in Hx as [Hx|Hx]; [by apply Htr|].
    apply list_elem_of_singleton in Hx. subst x. split; [done|].
    destruct (popped_ok _ _ _ Hr (reach_links _ Hr) Hg) as [->|(v & _ & Hin & Hv)];
      [by left|right; eauto]. }
  assert (H0 : Inv init g []) by (split; [apply reach_init|set_solver]).
  destruct (search_loop_inv empty get relax came_from start end_ Inv Hstep animate fuel init g
              ctl_reset src flick [] o H0 eq_refl Hrun) as (st' & g' & [_ Htr] & _).
  exact Htr.
Qed.
End Walks.
End WalkFacts.

(** ** The SPACE handler's searches: paths, expanded nodes, the start cell *)
Module RunWalks.
Import NeighborFacts LoopFacts FrontierFacts LoopInvariant GridFacts WalkFacts RunFacts.

Lemma in_grid_closed (rows : nat) (g' : colors) (v k : pos) :
  in_grid rows v = true -> k ∈ update_neighbors rows g' v -> in_grid rows k = true.
Proof.
  destruct v as [r c]. intros Hv Hk. apply in_grid_iff in Hv as [Hr Hc]. simpl in Hr, Hc.
  by apply update_neighbors_elem in Hk as [? _].
Qed.

Lemma run_algo_walks (a : algo) (rows : nat) (g : colors) (start end_ : pos) (fuel : nat)
    (src : events) (flick : list bool) (o : outcome) :
  in_grid rows start = true -> run_algo a rows g start end_ fuel src flick = Some o ->
  (found o = true ->
   forall i x y, (end_ :: out_path o) !! i = Some x -> (end_ :: out_path o) !! S i = Some y ->
     x ∈ update_neighbors rows (space_grid g start end_) y /\ in_grid rows x = true /\
     in_grid rows y = true) /\
  (forall x, x ∈ expanded o -> x <> end_ /\
     (x = start \/ exists v, in_grid rows v = true /\
                             x ∈ update_neighbors rows (space_grid g start end_) v)).
Proof.
  intros Hs Hrun. pose proof (run_algo_get_ok a rows g start end_) as Hok.
  pose proof (in_grid_closed rows (space_grid g start end_)) as Hcl.
  set (P := fun q => in_grid rows q = true).
  unfold run_algo in Hrun. destruct a; simpl in Hok.
  - unfold a_star, a_star_h, run in Hrun. split.
    + intros Hf. exact (found_walk _ _ _ _ _ _ _ _ P Hok Hs Hcl eq_refl astar_get_cf
                          (astar_relax_links h _ end_) _ _ _ _ _ _ Hrun Hf).
    + exact (expanded_ok _ _ _ _ _ _ _ _ P Hok Hs Hcl eq_refl astar_get_cf
               (astar_relax_links h _ end_) _ _ _ _ _ _ Hrun).
  - unfold dijkstra, run in Hrun. split.
    + intros Hf. exact (found_walk _ _ _ _ _ _ _ _ P Hok Hs Hcl eq_refl dijkstra_get_cf
                          (dijkstra_relax_links _) _ _ _ _ _ _ Hrun Hf).
    + exact (expanded_ok _ _ _ _ _ _ _ _ P Hok Hs Hcl eq_refl dijkstra_get_cf
               (dijkstra_relax_links _) _ _ _ _ _ _ Hrun).
  - unfold bfs, run in Hrun. split.
    + intros Hf. exact (found_walk _ _ _ _ _ _ _ _ P Hok Hs Hcl eq_refl bfs_get_cf
                          (bfs_relax_links _) _ _ _ _ _ _ Hrun Hf).
    + exact (expanded_ok _ _ _ _ _ _ _ _ P Hok Hs Hcl eq_refl bfs_get_cf
               (bfs_relax_links _) _ _ _ _ _ _ Hrun).
  - unfold dfs, run in Hrun. split.
    + intros Hf. exact (found_walk _ _ _ _ _ _ _ _ P Hok Hs Hcl eq_refl dfs_get_cf
                          (dfs_relax_links _) _ _ _ _ _ _ Hrun Hf).
    + exact (expanded_ok _ _ _ _ _ _ _ _ P Hok Hs Hcl eq_refl dfs_get_cf
               (dfs_relax_links _) _ _ _ _ _ _ Hrun).
Qed.

(** Every path the SPACE handler's search returns, read from [end] back
    to [start], is a walk of unit moves inside the grid, and every node on
    it but [start] (so [end] too) is not a barrier. *)
Theorem found_path_is_walk (a : algo) (rows : nat) (g : colors) (start end_ : pos) (fuel : nat)
    (src : events) (flick : list bool) (o : outcome) :
  in_grid rows start = true -> run_algo a rows g start end_ fuel src flick = Some o ->
  found o = true ->
  forall i x y, (end_ :: out_path o) !! i = Some x -> (end_ :: out_path o) !! S i = Some y ->
    h y x = 1 /\ in_grid rows x = true /\ in_grid rows y = true /\ is_barrier g x = false.
Proof.
  intros Hs Hrun Hf i x y Hx Hy.
  destruct (run_algo_walks a rows g start end_ fuel src flick o Hs Hrun) as [Hw _].
  destruct (Hw Hf i x y Hx Hy) as (Hxy & Hgx & Hgy).
  destruct y as [r c]. pose proof Hgy as Hgy'. apply in_grid_iff in Hgy' as [Hr Hc].
  simpl in Hr, Hc. apply update_neighbors_elem in Hxy as (_ & Hh & Hb); [|lia|lia].
  rewrite space_grid_barrier in Hb. auto.
Qed.

Lemma found_path_is_walk_witness :
  match run_algo BFS 3 (app_grid (setup 3 (0, 0) (2, 2) [(1, 1)])) (0, 0) (2, 2) 50 [] [] with
  | Some o =>
      (in_grid 3 (0, 0) = true /\ found o = true /\
       ((2, 2) :: out_path o) !! 1 = Some (2, 1) /\ ((2, 2) :: out_path o) !! 2 = Some (2, 0)) /\
      (h (2, 0) (2, 1) = 1 /\ in_grid 3 (2, 1) = true /\ in_grid 3 (2, 0) = true /\
       is_barrier (app_grid (setup 3 (0, 0) (2, 2) [(1, 1)])) (2, 1) = false)
  | None => False
  end.
Proof.
  destruct (run_algo BFS 3 (app_grid (setup 3 (0, 0) (2, 2) [(1, 1)])) (0, 0) (2, 2) 50 [] [])
    as [o|] eqn:E.
  - pose proof E as E'. vm_compute in E'. injection E' as <-.
    split; [split_and!; reflexivity|].
    exact (found_path_is_walk BFS 3 _ (0, 0) (2, 2) 50 [] [] _ eq_refl E eq_refl 1 (2, 1) (2, 0)
             eq_refl eq_refl).
  - vm_compute in E. discriminate.
Defined.

(** Every node a search expands (pops and processes) is [start] or an
    in-grid cell that is not a barrier; [end] is never expanded. *)
Theorem expanded_cells (a : algo) (rows : nat) (g : colors) (start end_ : pos) (fuel : nat)
    (src : events) (flick : list bool) (o : outcome) :
  in_grid rows start = true -> run_algo a rows g start end_ fuel src flick = Some o ->
  forall x, x ∈ expanded o ->
    x <> end_ /\ (x = start \/ (in_grid rows x = true /\ is_barrier g x = false)).
Proof.
  intros Hs Hrun x Hx.
  destruct (run_algo_walks a rows g start end_ fuel src flick o Hs Hrun) as [_ Hexp].
  destruct (Hexp x Hx) as [Hne [->|([r c] & Hv & Hin)]]; [by split; [|left]|].
  split; [done|right]. pose proof Hv as Hv'. apply in_grid_iff in Hv' as [Hr Hc].
  simpl in Hr, Hc. apply update_neighbors_elem in Hin as (Hg & _ & Hb); [|lia|lia].
  rewrite space_grid_barrier in Hb. auto.
Qed.

Lemma expanded_cells_witness :
  match run_algo DFS 3 (app_grid (setup 3 (0, 0) (2, 2) [(1, 1)])) (0, 0) (2, 2) 50 [] [] with
  | Some o =>
      (in_grid 3 (0, 0) = true /\ (0, 2) ∈ expanded o) /\
      ((0, 2) <> (2, 2) /\ ((0, 2) = (0, 0) \/
        (in_grid 3 (0, 2) = true /\ is_barrier (app_grid (setup 3 (0, 0) (2, 2) [(1, 1)])) (0, 2) = false)))
  | None => False
  end.
Proof.
  destruct (run_algo DFS 3 (app_grid (setup 3 (0, 0) (2, 2) [(1, 1)])) (0, 0) (2, 2) 50 [] [])
    as [o|] eqn:E.
  - pose proof E as E'. vm_compute in E'. injection E' as <-.
    split; [split; [reflexivity|apply (bool_decide_unpack _); vm_compute; exact I]|].
    apply (expanded_cells DFS 3 _ (0, 0) (2, 2) 50 [] [] _ eq_refl E).
    apply (bool_decide_unpack _); vm_compute; exact I.
  - vm_compute in E. discriminate.
Defined.

(** *** The start cell keeps its colour *)
Section StartColor.
Context {St : Type}.
Variable empty : St -> bool.
Variable get : St -> option (pos * St).
Variable relax : pos -> St -> colors -> St * colors.
Variable came_from : St -> gmap pos pos.
Variables (start end_ : pos) (init : St).
Hypothesis relax_start : forall st cur st1 g, reach get relax end_ init st ->
  get st = Some (cur, st1) -> (relax cur st1 g).2 !! start = g !! start.

Lemma start_color_kept (animate : bool) fuel g src flick o :
  search_loop empty get relax came_from start end_ animate fuel init g ctl_reset src flick [] = Some o ->
  found o = false -> out_colors o !! start = g !! start.
Proof.
  intros Hrun Hf.
  set (Inv := fun (st : St) (g' : colors) (_ : list pos) =>
                reach get relax end_ init st /\ g' !! start = g !! start).
  assert (Hstep : forall st g0 tr cur st1, Inv st g0 tr -> get st = Some (cur, st1) -> cur <> end_ ->
    Inv (relax cur st1 g0).1
      (if decide (cur <> start) then <[cur:=RED]> (relax cur st1 g0).2 else (relax cur st1 g0).2)
      (tr ++ [cur])).
  { intros st g0 tr cur st1 [Hr Hg0] Hg Hne. split; [by econstructor|].
    rewrite <- Hg0, <- (relax_start st cur st1 g0 Hr Hg).
    case_decide; [by rewrite lookup_insert_ne|done]. }
  assert (H0 : Inv init g []) by (split; [apply reach_init|done]).
  destruct (search_loop_inv empty get relax came_from start end_ Inv Hstep animate fuel init g
              ctl_reset src flick [] o H0 eq_refl Hrun) as (st' & g' & [_ Hg'] & [[_ [-> _]]|[Hf' _]]);
    [exact Hg'|congruence].
Qed.
End StartColor.

Lemma bfs_relax_keeps_start (nbrs : pos -> list pos) (start cur : pos) (st : bfs_state) (g : colors) :
  start ∈ b_visited st -> (bfs_relax nbrs cur st g).2 !! start = g !! start.
Proof.
  intros Hs. unfold bfs_relax.
  enough (H : start ∈ b_visited (foldl (bfs_relax_one cur) (st, g) (nbrs cur)).1 /\
              (foldl (bfs_relax_one cur) (st, g) (nbrs cur)).2 !! start = g !! start) by apply H.
  apply (foldl_preserve (fun acc => start ∈ b_visited acc.1 /\ acc.2 !! start = g !! start));
    [|done].
  intros [s g0] nb [Hs1 Hg0]. unfold bfs_relax_one. case_bool_decide as Hnb; [done|].
  simpl. split; [set_solver|]. rewrite lookup_insert_ne; [done|set_solver].
Qed.

Lemma dfs_relax_keeps_start (nbrs : pos -> list pos) (start cur : pos) (st : dfs_state) (g : colors) :
  start ∈ s_visited st -> (dfs_relax nbrs cur st g).2 !! start = g !! start.
Proof.
  intros Hs. unfold dfs_relax.
  enough (H : start ∈ s_visited (foldl (dfs_relax_one cur) (st, g) (nbrs cur)).1 /\
              (foldl (dfs_relax_one cur) (st, g) (nbrs cur)).2 !! start = g !! start) by apply H.
  apply (foldl_preserve (fun acc => start ∈ s_visited acc.1 /\ acc.2 !! start = g !! start));
    [|done].
  intros [s g0] nb [Hs1 Hg0]. unfold dfs_relax_one. case_bool_decide as Hnb; [done|].
  simpl. split; [set_solver|]. rewrite lookup_insert_ne; [done|set_solver].
Qed.

Lemma dijkstra_relax_keeps_start (nbrs : pos -> list pos) (start cur : pos) (st : dijkstra_state)
    (g : colors) :
  dist st !! start = Some 0 -> (dijkstra_relax nbrs cur st g).2 !! start = g !! start.
Proof.
  intros Hs. unfold dijkstra_relax.
  enough (H : dist (foldl (dijkstra_relax_one cur) (st, g) (nbrs cur)).1 !! start = Some 0 /\
              (foldl (dijkstra_relax_one cur) (st, g) (nbrs cur)).2 !! start = g !! start) by apply H.
  apply (foldl_preserve (fun acc => dist acc.1 !! start = Some 0 /\ acc.2 !! start = g !! start));
    [|done].
  intros [s g0] nb [Hs1 Hg0]. simpl in Hs1, Hg0. unfold dijkstra_relax_one.
  destruct (dist s !! cur) as [dc|]; [|done].
  destruct (lt_inf (dc + 1) (dist s !! nb)) eqn:Hlt; [|done].
  assert (nb <> start) by (intros ->; rewrite Hs1 in Hlt; simpl in Hlt; apply Nat.ltb_lt in Hlt; lia).
  simpl. by rewrite !lookup_insert_ne.
Qed.

Lemma astar_relax_keeps_start (heur : pos -> pos -> nat) (nbrs : pos -> list pos) (end_ start cur : pos)
    (st : astar_state) (g : colors) :
  g_score st !! start = Some 0 -> (astar_relax heur nbrs end_ cur st g).2 !! start = g !! start.
Proof.
  intros Hs. unfold astar_relax.
  enough (H : g_score (foldl (astar_relax_one heur end_ cur) (st, g) (nbrs cur)).1 !! start = Some 0 /\
              (foldl (astar_relax_one heur end_ cur) (st, g) (nbrs cur)).2 !! start = g !! start)
    by apply H.
  apply (foldl_preserve (fun acc => g_score acc.1 !! start = Some 0 /\ acc.2 !! start = g !! start));
    [|done].
  intros [s g0] nb [Hs1 Hg0]. simpl in Hs1, Hg0. unfold astar_relax_one.
  destruct (g_score s !! cur) as [gc|]; [|done].
  destruct (lt_inf (gc + 1) (g_score s !! nb)) eqn:Hlt; [|done].
  assert (nb <> start) by (intros ->; rewrite Hs1 in Hlt; simpl in Hlt; apply Nat.ltb_lt in Hlt; lia).
  case_bool_decide; simpl; rewrite !lookup_insert_ne by done; auto.
Qed.

(** A run that returns [False] (frontier exhausted, or stopped) leaves
    the colour of the start cell as it was: the searches never paint
    [start] open or closed. *)
Theorem unfound_run_keeps_start (a : algo) (rows : nat) (g : colors) (start end_ : pos)
    (fuel : nat) (src : events) (flick : list bool) (o : outcome) :
  run_algo a rows g start end_ fuel src flick = Some o -> found o = false ->
  out_colors o !! start = g !! start.
Proof.
  intros Hrun Hf.
  assert (Hsg : space_grid g start end_ !! start = g !! start).
  { unfold space_grid. rewrite map_lookup_imap. destruct (g !! start); simpl; [|done].
    by rewrite (bool_decide_true (start = start)), orb_true_r by done. }
  rewrite <- Hsg. unfold run_algo in Hrun. destruct a.
  - unfold a_star, a_star_h, run in Hrun. refine (start_color_kept _ _ _ _ _ _ _ _ _ _ _ _ _ _ Hrun Hf).
    intros st cur st1 g0 Hr Hg. apply astar_relax_keeps_start.
    by destruct (astar_get_inv _ _ _ _ _ (astar_reach_inv _ _ _ _ _ Hr) Hg) as [[? _] _].
  - unfold dijkstra, run in Hrun. refine (start_color_kept _ _ _ _ _ _ _ _ _ _ _ _ _ _ Hrun Hf).
    intros st cur st1 g0 Hr Hg. apply dijkstra_relax_keeps_start.
    by destruct (dijkstra_get_inv _ _ _ _ _ (dijkstra_reach_inv _ _ _ _ Hr) Hg) as [[? _] _].
  - unfold bfs, run in Hrun. refine (start_color_kept _ _ _ _ _ _ _ _ _ _ _ _ _ _ Hrun Hf).
    intros st cur st1 g0 Hr Hg. apply bfs_relax_keeps_start.
    by destruct (bfs_get_inv _ _ _ _ _ (bfs_reach_inv _ _ _ _ Hr) Hg) as [[? _] _].
  - unfold dfs, run in Hrun. refine (start_color_kept _ _ _ _ _ _ _ _ _ _ _ _ _ _ Hrun Hf).
    intros st cur st1 g0 Hr Hg. apply dfs_relax_keeps_start.
    by destruct (dfs_get_inv _ _ _ _ _ (dfs_reach_inv _ _ _ _ Hr) Hg) as [[? _] _].
Qed.

Lemma unfound_run_keeps_start_witness :
  match run_algo AStar 3 (app_grid (setup 3 (0, 0) (2, 2) [(1, 2); (2, 1)])) (0, 0) (2, 2) 50 [] [] with
  | Some o =>
      found o = false /\
      out_colors o !! (0, 0) = app_grid (setup 3 (0, 0) (2, 2) [(1, 2); (2, 1)]) !! (0, 0)
  | None => False
  end.
Proof.
  destruct (run_algo AStar 3 (app_grid (setup 3 (0, 0) (2, 2) [(1, 2); (2, 1)])) (0, 0) (2, 2)
              50 [] []) as [o|] eqn:E.
  - assert (Hf : found o = false) by (vm_compute in E; injection E as <-; reflexivity).
    split; [exact Hf|]. exact (unfound_run_keeps_start AStar 3 _ (0, 0) (2, 2) 50 [] [] o E Hf).
  - vm_compute in E. discriminate.
Defined.
End RunWalks.

(** ** [bfs] and [dfs] expand every node at most once *)
Module VisitOnce.
Import LoopFacts FrontierFacts LoopInvariant.

(** *** [bfs] *)
Definition bfs_fold_ok (start end_ cur : pos) (tr : list pos) (acc : bfs_state * colors) : Prop :=
  (bfs_inv start end_ acc.1 /\ cur ∈ b_visited acc.1 /\
   (cur = start \/ is_Some (b_came_from acc.1 !! cur))) /\
  NoDup (queue acc.1) /\ (forall x, x ∈ tr -> x ∈ b_visited acc.1 /\ x ∉ queue acc.1).

Lemma bfs_fold_ok_step (start end_ cur : pos) (tr : list pos) (acc : bfs_state * colors) (nb : pos) :
  cur <> end_ -> bfs_fold_ok start end_ cur tr acc ->
  bfs_fold_ok start end_ cur tr (bfs_relax_one cur acc nb).
Proof.
  intros Hce [Hi [Hnd Htr]]. split; [by apply bfs_relax_one_inv|].
  destruct acc as [st g]. destruct Hi as [(_ & _ & _ & Hq) _]. simpl in *.
  unfold bfs_relax_one. case_bool_decide as Hnb; [done|]. simpl. split.
  - apply NoDup_app. split_and!; [done| |apply NoDup_singleton].
    intros y Hy. rewrite list_elem_of_singleton. intros ->. apply Hnb. by apply Hq.
  - intros x Hx. destruct (Htr x Hx) as [Hv Hxq]. split; [set_solver|].
    rewrite elem_of_app, list_elem_of_singleton. intros [?| ->]; contradiction.
Qed.

Lemma bfs_search_once (nbrs : pos -> list pos) (start end_ : pos) (animate : bool) fuel g src flick o :
  search_loop bfs_empty bfs_get (bfs_relax nbrs) b_came_from start end_ animate fuel
    (bfs_init start) g ctl_reset src flick [] = Some o ->
  NoDup (expanded o).
Proof.
  intros Hrun.
  set (Inv := fun (st : bfs_state) (_ : colors) (tr : list pos) =>
    reach bfs_get (bfs_relax nbrs) end_ (bfs_init start) st /\ NoDup (queue st) /\ NoDup tr /\
    (forall x, x ∈ tr -> x ∈ b_visited st /\ x ∉ queue st)).
  assert (Hstep : forall st g0 tr cur st1, Inv st g0 tr -> bfs_get st = Some (cur, st1) ->
    cur <> end_ ->
    Inv (bfs_relax nbrs cur st1 g0).1
      (if decide (cur <> start) then <[cur:=RED]> (bfs_relax nbrs cur st1 g0).2
       else (bfs_relax nbrs cur st1 g0).2) (tr ++ [cur])).
  { intros st g0 tr cur st1 (Hr & Hnd & Htnd & Htr) Hg Hne.
    pose proof (bfs_get_inv _ end_ _ _ _ (bfs_reach_inv _ _ _ _ Hr) Hg) as Hi1.
    pose proof Hg as Hg'. unfold bfs_get in Hg'.
    destruct (queue st) as [|cur' rest] eqn:Eq; [done|]. injection Hg' as -> <-.
    apply NoDup_cons in Hnd as [Hcr Hrest].
    assert (Hf : bfs_fold_ok start end_ cur (tr ++ [cur])
                   (foldl (bfs_relax_one cur) (mkbfs rest (b_came_from st) (b_visited st), g0)
                      (nbrs cur))).
    { apply (foldl_preserve (bfs_fold_ok start end_ cur (tr ++ [cur]))).
      - intros acc nb. by apply bfs_fold_ok_step.
      - split; [exact Hi1|]. simpl. split; [done|].
        intros x Hx. apply elem_of_app in Hx as [Hx|Hx].
        + destruct (Htr x Hx) as [Hv Hq]. split; [done|]. set_solver.
        + apply list_elem_of_singleton in Hx. subst x. split; [apply Hi1|done]. }
    destruct Hf as [_ [Hnd' Htr']].
    split; [|split; [exact Hnd'|split; [|exact Htr']]].
    - change (foldl (bfs_relax_one cur) (mkbfs rest (b_came_from st) (b_visited st), g0) (nbrs cur)).1
        with (bfs_relax nbrs cur (mkbfs rest (b_came_from st) (b_visited st)) g0).1.
      by econstructor.
    - apply NoDup_app. split_and!; [done| |apply NoDup_singleton].
      intros x Hx. rewrite list_elem_of_singleton. intros ->.
      destruct (Htr cur Hx) as [_ Hq]. set_solver. }
  assert (H0 : Inv (bfs_init start) g []).
  { split_and!; [apply reach_init|apply NoDup_singleton|constructor|set_solver]. }
  destruct (search_loop_inv bfs_empty bfs_get (bfs_relax nbrs) b_came_from start end_ Inv Hstep
              animate fuel (bfs_init start) g ctl_reset src flick [] o H0 eq_refl Hrun)
    as (st' & g' & (_ & _ & Hnd & _) & _).
  exact Hnd.
Qed.

(** *** [dfs] *)
Definition dfs_fold_ok (start end_ cur : pos) (tr : list pos) (acc : dfs_state * colors) : Prop :=
  (dfs_inv start end_ acc.1 /\ cur ∈ s_visited acc.1 /\
   (cur = start \/ is_Some (s_came_from acc.1 !! cur))) /\
  NoDup (stack acc.1) /\ (forall x, x ∈ tr -> x ∈ s_visited acc.1 /\ x ∉ stack acc.1).

Lemma dfs_fold_ok_step (start end_ cur : pos) (tr : list pos) (acc : dfs_state * colors) (nb : pos) :
  cur <> end_ -> dfs_fold_ok start end_ cur tr acc ->
  dfs_fold_ok start end_ cur tr (dfs_relax_one cur acc nb).
Proof.
  intros Hce [Hi [Hnd Htr]]. split; [by apply dfs_relax_one_inv|].
  destruct acc as [st g]. destruct Hi as [(_ & _ & _ & Hq) _]. simpl in *.
  unfold dfs_relax_one. case_bool_decide as Hnb; [done|]. simpl. split.
  - apply NoDup_app. split_and!; [done| |apply NoDup_singleton].
    intros y Hy. rewrite list_elem_of_singleton. intros ->. apply Hnb. by apply Hq.
  - intros x Hx. destruct (Htr x Hx) as [Hv Hxq]. split; [set_solver|].
    rewrite elem_of_app, list_elem_of_singleton. intros [?| ->]; contradiction.
Qed.

Lemma dfs_search_once (nbrs : pos -> list pos) (start end_ : pos) (animate : bool) fuel g src flick o :
  search_loop dfs_empty dfs_get (dfs_relax nbrs) s_came_from start end_ animate fuel
    (dfs_init start) g ctl_reset src flick [] = Some o ->
  NoDup (expanded o).
Proof.
  intros Hrun.
  set (Inv := fun (st : dfs_state) (_ : colors) (tr : list pos) =>
    reach dfs_get (dfs_relax nbrs) end_ (dfs_init start) st /\ NoDup (stack st) /\ NoDup tr /\
    (forall x, x ∈ tr -> x ∈ s_visited st /\ x ∉ stack st)).
  assert (Hstep : forall st g0 tr cur st1, Inv st g0 tr -> dfs_get st = Some (cur, st1) ->
    cur <> end_ ->
    Inv (dfs_relax nbrs cur st1 g0).1
      (if decide (cur <> start) then <[cur:=RED]> (dfs_relax nbrs cur st1 g0).2
       else (dfs_relax nbrs cur st1 g0).2) (tr ++ [cur])).
  { intros st g0 tr cur st1 (Hr & Hnd & Htnd & Htr) Hg Hne.
    pose proof (dfs_get_inv _ end_ _ _ _ (dfs_reach_inv _ _ _ _ Hr) Hg) as Hi1.
    pose proof Hg as Hg'. unfold dfs_get in Hg'.
    destruct (reverse (stack st)) as [|c rrest] eqn:Eq; [done|]. injection Hg' as <- <-.
    assert (Hst : stack st = reverse rrest ++ [c]).
    { by rewrite <- (reverse_involutive (stack st)), Eq, reverse_cons. }
    rewrite Hst in Hnd. apply NoDup_app in Hnd as (Hrest & Hcr & _).
    assert (Hc : c ∉ reverse rrest) by (intros Hin; by apply (Hcr c Hin), list_elem_of_singleton).
    assert (Hf : dfs_fold_ok start end_ c (tr ++ [c])
                   (foldl (dfs_relax_one c) (mkdfs (reverse rrest) (s_came_from st) (s_visited st), g0)
                      (nbrs c))).
    { apply (foldl_preserve (dfs_fold_ok start end_ c (tr ++ [c]))).
      - intros acc nb. by apply dfs_fold_ok_step.
      - split; [exact Hi1|]. simpl. split; [done|].
        intros x Hx. apply elem_of_app in Hx as [Hx|Hx].
        + destruct (Htr x Hx) as [Hv Hq]. split; [done|]. rewrite Hst in Hq. set_solver.
        + apply list_elem_of_singleton in Hx. subst x. split; [apply Hi1|done]. }
    destruct Hf as [_ [Hnd' Htr']].
    split; [|split; [exact Hnd'|split; [|exact Htr']]].
    - change (foldl (dfs_relax_one c) (mkdfs (reverse rrest) (s_came_from st) (s_visited st), g0)
                (nbrs c)).1
        with (dfs_relax nbrs c (mkdfs (reverse rrest) (s_came_from st) (s_visited st)) g0).1.
      by econstructor.
    - apply NoDup_app. split_and!; [done| |apply NoDup_singleton].
      intros x Hx. rewrite list_elem_of_singleton. intros ->.
      destruct (Htr c Hx) as [_ Hq]. rewrite Hst in Hq. set_solver. }
  assert (H0 : Inv (dfs_init start) g []).
  { split_and!; [apply reach_init|apply NoDup_singleton|constructor|set_solver]. }
  destruct (search_loop_inv dfs_empty dfs_get (dfs_relax nbrs) s_came_from start end_ Inv Hstep
              animate fuel (dfs_init start) g ctl_reset src flick [] o H0 eq_refl Hrun)
    as (st' & g' & (_ & _ & Hnd & _) & _).
  exact Hnd.
Qed.

(** [bfs] and [dfs] mark a node visited when they first queue it and
    never queue it again, so no node is expanded twice (unlike
    [a_star]). *)
Theorem bfs_dfs_expand_once (a : algo) (rows : nat) (g : colors) (start end_ : pos) (fuel : nat)
    (src : events) (flick : list bool) (o : outcome) :
  a = BFS \/ a = DFS -> run_algo a rows g start end_ fuel src flick = Some o ->
  NoDup (expanded o).
Proof.
  intros [-> | ->] Hrun; unfold run_algo in Hrun.
  - unfold bfs, run in Hrun. exact (bfs_search_once _ _ _ _ _ _ _ _ _ Hrun).
  - unfold dfs, run in Hrun. exact (dfs_search_once _ _ _ _ _ _ _ _ _ Hrun).
Qed.

Lemma bfs_dfs_expand_once_witness :
  match run_algo BFS 4 (app_grid (setup 4 (0, 0) (3, 3) [(1, 1); (2, 2)])) (0, 0) (3, 3) 100 [] [] with
  | Some o => (BFS = BFS \/ BFS = DFS) /\ NoDup (expanded o)
  | None => False
  end.
Proof.
  destruct (run_algo BFS 4 (app_grid (setup 4 (0, 0) (3, 3) [(1, 1); (2, 2)])) (0, 0) (3, 3)
              100 [] []) as [o|] eqn:E.
  - split; [left; reflexivity|].
    exact (bfs_dfs_expand_once BFS 4 _ (0, 0) (3, 3) 100 [] [] o (or_introl eq_refl) E).
  - vm_compute in E. discriminate.
Defined.
End VisitOnce.

(** ** A search that ends on its own without finding [end]: no walk
    leads from [start] to [end] *)
Module Completeness.
Import NeighborFacts LoopFacts FrontierFacts LoopInvariant GridFacts WalkFacts.

(** [l] lists the nodes a walk from [x] along the neighbour lists visits
    after [x]; the walk ends at [t]. *)
Fixpoint walk (nbrs : pos -> list pos) (x : pos) (l : list pos) (t : pos) : Prop :=
  match l with
  | [] => x = t
  | y :: l' => y ∈ nbrs x /\ walk nbrs y l' t
  end.

(** The same on the grid: unit moves onto in-grid cells that are not
    barriers. *)
Fixpoint grid_walk (rows : nat) (g : colors) (x : pos) (l : list pos) (t : pos) : Prop :=
  match l with
  | [] => x = t
  | y :: l' => h x y = 1 /\ in_grid rows y = true /\ is_barrier g y = false /\
               grid_walk rows g y l' t
  end.

Lemma grid_walk_walk (rows : nat) (g : colors) (start end_ x : pos) (l : list pos) (t : pos) :
  in_grid rows x = true -> grid_walk rows g x l t ->
  walk (update_neighbors rows (space_grid g start end_)) x l t.
Proof.
  revert x. induction l as [|y l IH]; intros x Hx Hw; simpl in *; [done|].
  destruct Hw as (Hh & Hy & Hb & Hw). split; [|by apply IH].
  destruct x as [r c]. apply in_grid_iff in Hx as [Hr Hc]. simpl in Hr, Hc.
  apply update_neighbors_elem; [lia|lia|]. rewrite space_grid_barrier. auto.
Qed.

(** A fold that only adds seen and frontier nodes, and sees each node it
    is applied to. *)
Lemma foldl_grow {A : Type} (f : A -> pos -> A) (Q : A -> Prop) (known infront : A -> pos -> Prop) :
  (forall a x, Q a -> Q (f a x)) ->
  (forall a x, Q a ->
     known (f a x) x /\
     (forall y, known a y -> known (f a x) y) /\ (forall y, infront a y -> infront (f a x) y) /\
     (forall y, known (f a x) y -> known a y \/ infront (f a x) y)) ->
  forall l a, Q a ->
    (forall k, k ∈ l -> known (foldl f a l) k) /\
    (forall y, known a y -> known (foldl f a l) y) /\
    (forall y, infront a y -> infront (foldl f a l) y) /\
    (forall y, known (foldl f a l) y -> known a y \/ infront (foldl f a l) y).
Proof.
  intros HQ Hf. induction l as [|x l IH]; intros a Ha; simpl.
  - split_and!; auto. intros k Hk. inversion Hk.
  - destruct (Hf a x Ha) as (Hx & Hk & Hi & Hb).
    destruct (IH (f a x) (HQ a x Ha)) as (Hl & Hk' & Hi' & Hb').
    split_and!.
    + intros k Hk0. apply elem_of_cons in Hk0 as [->|Hk0]; [by apply Hk'|by apply Hl].
    + auto.
    + auto.
    + intros y Hy. destruct (Hb' y Hy) as [Hy'|Hy']; [|by right].
      destruct (Hb y Hy') as [?|?]; [by left|right; by apply Hi'].
Qed.

Section Closed.
Context {St : Type}.
Variable empty : St -> bool.
Variable get : St -> option (pos * St).
Variable relax : pos -> St -> colors -> St * colors.
Variable came_from : St -> gmap pos pos.
Variables (start end_ : pos) (init : St) (nbrs : pos -> list pos).
(** The nodes a search has seen, and those on its frontier. *)
Variables (known infront : St -> pos -> Prop).
Hypothesis empty_none : forall st x, empty st = true -> ~ infront st x.
Hypothesis init_start : known init start.
Hypothesis init_front : forall x, known init x -> infront init x.
Hypothesis get_known : forall st cur st1, reach get relax end_ init st ->
  get st = Some (cur, st1) -> forall x, known st1 x <-> known st x.
Hypothesis get_front : forall st cur st1, reach get relax end_ init st ->
  get st = Some (cur, st1) -> forall x, infront st x -> x <> cur -> infront st1 x.
Hypothesis relax_grow : forall st cur st1 g, reach get relax end_ init st ->
  get st = Some (cur, st1) -> cur <> end_ ->
  (forall k, k ∈ nbrs cur -> known (relax cur st1 g).1 k) /\
  (forall y, known st1 y -> known (relax cur st1 g).1 y) /\
  (forall y, infront st1 y -> infront (relax cur st1 g).1 y) /\
  (forall y, known (relax cur st1 g).1 y -> known st1 y \/ infront (relax cur st1 g).1 y).

(** Every seen node is on the frontier or has all its neighbours seen;
    [end] is seen only while it is on the frontier. *)
Definition closed_ok (st : St) : Prop :=
  known st start /\
  (forall c, known st c -> infront st c \/ forall k, k ∈ nbrs c -> known st k) /\
  (known st end_ -> infront st end_).

Lemma reach_closed st : reach get relax end_ init st -> closed_ok st.
Proof.
  induction 1 as [|st cur st1 g Hr IH Hg Hce].
  - split_and!; [done|intros c Hc; left; auto|auto].
  - destruct IH as (Hs & Hc & He).
    pose proof (get_known _ _ _ Hr Hg) as Hk1. pose proof (get_front _ _ _ Hr Hg) as Hf1.
    destruct (relax_grow _ _ _ g Hr Hg Hce) as (Hn & Hk2 & Hf2 & Hb2).
    split_and!.
    + apply Hk2, Hk1, Hs.
    + intros c Hc2. destruct (Hb2 c Hc2) as [Hc1|]; [|by left].
      apply Hk1 in Hc1. destruct (Hc c Hc1) as [Hq|Hall].
      * destruct (decide (c = cur)) as [->|Hne]; [right; exact Hn|left; by apply Hf2, Hf1].
      * right. intros k Hk. by apply Hk2, Hk1, Hall.
    + intros He2. destruct (Hb2 _ He2) as [He1|]; [|done].
      apply Hf2, Hf1; [|done]. by apply He, Hk1.
Qed.

Lemma closed_walk st x l : closed_ok st -> known st x -> walk nbrs x l end_ ->
  exists q, infront st q.
Proof.
  intros (_ & Hc & He). revert x. induction l as [|y l IH]; intros x Hx Hw; simpl in Hw.
  - subst x. eauto.
  - destruct Hw as [Hy Hw]. destruct (Hc x Hx) as [Hq|Hall]; [eauto|].
    exact (IH y (Hall y Hy) Hw).
Qed.

Lemma search_unreachable (animate : bool) fuel g src flick o :
  search_loop empty get relax came_from start end_ animate fuel init g ctl_reset src flick [] = Some o ->
  found o = false -> STOP_SEARCH (out_ctl o) = false ->
  forall l, ~ walk nbrs start l end_.
Proof.
  intros Hrun Hf Hs l Hw.
  set (Inv := fun (st : St) (_ : colors) (_ : list pos) => reach get relax end_ init st).
  assert (Hstep : forall st g tr cur st1, Inv st g tr -> get st = Some (cur, st1) -> cur <> end_ ->
    Inv (relax cur st1 g).1
      (if decide (cur <> start) then <[cur:=RED]> (relax cur st1 g).2 else (relax cur st1 g).2)
      (tr ++ [cur])).
  { intros st g0 tr cur st1 Hr Hg Hne. by econstructor. }
  destruct (search_loop_inv empty get relax came_from start end_ Inv Hstep animate fuel init g
              ctl_reset src flick [] o (reach_init get relax end_ init) eq_refl Hrun)
    as (st' & g' & Hr & [(_ & _ & _ & [He|Hst])|[Hf' _]]); [|congruence|congruence].
  pose proof (reach_closed st' Hr) as Hcl.
  destruct (closed_walk st' start l Hcl (proj1 Hcl) Hw) as [q Hq].
  exact (empty_none st' q He Hq).
Qed.
End Closed.

(** *** [bfs]: seen is [visited], the frontier is [queue] *)
Lemma bfs_relax_one_grow (cur : pos) (acc : bfs_state * colors) (nb : pos) :
  nb ∈ b_visited (bfs_relax_one cur acc nb).1 /\
  (forall y, y ∈ b_visited acc.1 -> y ∈ b_visited (bfs_relax_one cur acc nb).1) /\
  (forall y, y ∈ queue acc.1 -> y ∈ queue (bfs_relax_one cur acc nb).1) /\
  (forall y, y ∈ b_visited (bfs_relax_one cur acc nb).1 ->
     y ∈ b_visited acc.1 \/ y ∈ queue (bfs_relax_one cur acc nb).1).
Proof.
  destruct acc as [st g]. unfold bfs_relax_one. case_bool_decide as Hnb; simpl.
  - split_and!; auto.
  - split_and!.
    + set_solver.
    + set_solver.
    + intros y Hy. apply elem_of_app. by left.
    + intros y Hy. apply elem_of_union in Hy as [Hy|Hy]; [|by left].
      apply elem_of_singleton in Hy. subst. right. apply elem_of_app. right.
      by apply list_elem_of_singleton.
Qed.

Lemma bfs_unreachable (nbrs : pos -> list pos) (start end_ : pos) (animate : bool) fuel g src flick o :
  search_loop bfs_empty bfs_get (bfs_relax nbrs) b_came_from start end_ animate fuel
    (bfs_init start) g ctl_reset src flick [] = Some o ->
  found o = false -> STOP_SEARCH (out_ctl o) = false ->
  forall l, ~ walk nbrs start l end_.
Proof.
  intros Hrun Hf Hs l.
  refine (search_unreachable _ _ _ _ _ _ _ nbrs (fun st x => x ∈ b_visited st)
            (fun st x => x ∈ queue st) _ _ _ _ _ _ animate fuel g src flick o Hrun Hf Hs l).
  - intros st x He Hx. unfold bfs_empty in He. case_bool_decide as Hq; [|done].
    rewrite Hq in Hx. inversion Hx.
  - simpl. set_solver.
  - intros x Hx. simpl in *. apply elem_of_singleton in Hx. subst. by apply list_elem_of_singleton.
  - intros st cur st1 _ Hg x. unfold bfs_get in Hg.
    destruct (queue st); [done|]. by injection Hg as _ <-.
  - intros st cur st1 _ Hg x Hx Hne. unfold bfs_get in Hg.
    destruct (queue st) as [|c rest]; [done|]. injection Hg as -> <-. simpl.
    apply elem_of_cons in Hx as [->|Hx]; [done|done].
  - intros st cur st1 g0 _ _ _. unfold bfs_relax.
    exact (foldl_grow (bfs_relax_one cur) (fun _ => True) (fun acc x => x ∈ b_visited acc.1)
             (fun acc x => x ∈ queue acc.1) (fun _ _ _ => I)
             (fun a x _ => bfs_relax_one_grow cur a x) (nbrs cur) (st1, g0) I).
Qed.

(** *** [dfs]: seen is [visited], the frontier is [stack] *)
Lemma dfs_relax_one_grow (cur : pos) (acc : dfs_state * colors) (nb : pos) :
  nb ∈ s_visited (dfs_relax_one cur acc nb).1 /\
  (forall y, y ∈ s_visited acc.1 -> y ∈ s_visited (dfs_relax_one cur acc nb).1) /\
  (forall y, y ∈ stack acc.1 -> y ∈ stack (dfs_relax_one cur acc nb).1) /\
  (forall y, y ∈ s_visited (dfs_relax_one cur acc nb).1 ->
     y ∈ s_visited acc.1 \/ y ∈ stack (dfs_relax_one cur acc nb).1).
Proof.
  destruct acc as [st g]. unfold dfs_relax_one. case_bool_decide as Hnb; simpl.
  - split_and!; auto.
  - split_and!.
    + set_solver.
    + set_solver.
    + intros y Hy. apply elem_of_app. by left.
    + intros y Hy. apply elem_of_union in Hy as [Hy|Hy]; [|by left].
      apply elem_of_singleton in Hy. subst. right. apply elem_of_app. right.
      by apply list_elem_of_singleton.
Qed.

Lemma dfs_unreachable (nbrs : pos -> list pos) (start end_ : pos) (animate : bool) fuel g src flick o :
  search_loop dfs_empty dfs_get (dfs_relax nbrs) s_came_from start end_ animate fuel
    (dfs_init start) g ctl_reset src flick [] = Some o ->
  found o = false -> STOP_SEARCH (out_ctl o) = false ->
  forall l, ~ walk nbrs start l end_.
Proof.
  intros Hrun Hf Hs l.
  refine (search_unreachable _ _ _ _ _ _ _ nbrs (fun st x => x ∈ s_visited st)
            (fun st x => x ∈ stack st) _ _ _ _ _ _ animate fuel g src flick o Hrun Hf Hs l).
  - intros st x He Hx. unfold dfs_empty in He. case_bool_decide as Hq; [|done].
    rewrite Hq in Hx. inversion Hx.
  - simpl. set_solver.
  - intros x Hx. simpl in *. apply elem_of_singleton in Hx. subst. by apply list_elem_of_singleton.
  - intros st cur st1 _ Hg x. unfold dfs_get in Hg.
    destruct (reverse (stack st)); [done|]. by injection Hg as _ <-.
  - intros st cur st1 _ Hg x Hx Hne. unfold dfs_get in Hg.
    destruct (reverse (stack st)) as [|c rrest] eqn:Eq; [done|]. injection Hg as -> <-. simpl.
    assert (Hst : stack st = reverse rrest ++ [cur]).
    { by rewrite <- (reverse_involutive (stack st)), Eq, reverse_cons. }
    rewrite Hst in Hx. apply elem_of_app in Hx as [Hx|Hx]; [done|].
    by apply list_elem_of_singleton in Hx.
  - intros st cur st1 g0 _ _ _. unfold dfs_relax.
    exact (foldl_grow (dfs_relax_one cur) (fun _ => True) (fun acc x => x ∈ s_visited acc.1)
             (fun acc x => x ∈ stack acc.1) (fun _ _ _ => I)
             (fun a x _ => dfs_relax_one_grow cur a x) (nbrs cur) (st1, g0) I).
Qed.

(** *** [dijkstra]: seen is a key of [dist], the frontier the nodes of [pq] *)
Lemma dijkstra_relax_one_grow (start end_ cur : pos) (acc : dijkstra_state * colors) (nb : pos) :
  dijkstra_inv start end_ acc.1 -> (cur = start \/ is_Some (d_came_from acc.1 !! cur)) ->
  is_Some (dist (dijkstra_relax_one cur acc nb).1 !! nb) /\
  (forall y, is_Some (dist acc.1 !! y) -> is_Some (dist (dijkstra_relax_one cur acc nb).1 !! y)) /\
  (forall y, (exists d, (d, y) ∈ pq acc.1) -> exists d, (d, y) ∈ pq (dijkstra_relax_one cur acc nb).1) /\
  (forall y, is_Some (dist (dijkstra_relax_one cur acc nb).1 !! y) ->
     is_Some (dist acc.1 !! y) \/ exists d, (d, y) ∈ pq (dijkstra_relax_one cur acc nb).1).
Proof.
  destruct acc as [st g]. simpl. intros (Hs0 & _ & Hl & _ & Hh) Hcd.
  assert (Hdc : is_Some (dist st !! cur)).
  { destruct Hcd as [->|[v Hv]]; [by eexists|].
    destruct (Hl _ _ Hv) as (_ & _ & dv & dk & _ & Hdk & _). by eexists. }
  unfold dijkstra_relax_one.
  destruct (dist st !! cur) as [dc|] eqn:Hdc'; [|by destruct Hdc].
  destruct (lt_inf (dc + 1) (dist st !! nb)) eqn:Hlt; simpl.
  - destruct (dijkstra_push_ok (pq st) (dc + 1, nb) Hh) as [_ Hperm].
    split_and!.
    + by rewrite lookup_insert_eq.
    + intros y Hy. rewrite lookup_insert_is_Some'. by right.
    + intros y [d Hd]. exists d. rewrite Hperm. apply elem_of_app. by left.
    + intros y Hy. apply lookup_insert_is_Some' in Hy as [<-|Hy]; [right|by left].
      exists (dc + 1). rewrite Hperm. apply elem_of_app. right. by apply list_elem_of_singleton.
  - split_and!; auto. destruct (dist st !! nb) eqn:E; [by eexists|done].
Qed.

Lemma dijkstra_unreachable (nbrs : pos -> list pos) (start end_ : pos) (animate : bool) fuel g src
    flick o :
  search_loop dijkstra_empty dijkstra_get (dijkstra_relax nbrs) d_came_from start end_ animate fuel
    (dijkstra_init start) g ctl_reset src flick [] = Some o ->
  found o = false -> STOP_SEARCH (out_ctl o) = false ->
  forall l, ~ walk nbrs start l end_.
Proof.
  intros Hrun Hf Hs l.
  refine (search_unreachable _ _ _ _ _ _ _ nbrs (fun st x => is_Some (dist st !! x))
            (fun st x => exists d, (d, x) ∈ pq st) _ _ _ _ _ _ animate fuel g src flick o
            Hrun Hf Hs l).
  - intros st x He [d Hx]. unfold dijkstra_empty in He. case_bool_decide as Hq; [|done].
    rewrite Hq in Hx. inversion Hx.
  - simpl. rewrite lookup_singleton_eq. by eexists.
  - intros x Hx. simpl in *. destruct (decide (x = start)) as [->|Hne].
    + exists 0. by apply list_elem_of_singleton.
    + rewrite lookup_singleton_ne in Hx by done. by destruct Hx.
  - intros st cur st1 _ Hg x. unfold dijkstra_get in Hg.
    destruct (Heapq.heappop dijkstra_lt (pq st)) as [[[d c] rest]|]; [|done].
    by injection Hg as _ <-.
  - intros st cur st1 Hr Hg x [d Hx] Hne.
    destruct (dijkstra_reach_inv _ _ _ _ Hr) as (_ & _ & _ & _ & Hh).
    unfold dijkstra_get in Hg.
    destruct (Heapq.heappop dijkstra_lt (pq st)) as [[[d0 c] rest]|] eqn:Hp; [|done].
    injection Hg as -> <-. destruct (dijkstra_pop_ok _ _ _ Hh Hp) as (_ & _ & Hperm & _).
    exists d. simpl. rewrite <- Hperm in Hx. apply elem_of_cons in Hx as [Hx|Hx]; [|done].
    by injection Hx as _ ->.
  - intros st cur st1 g0 Hr Hg Hce.
    pose proof (dijkstra_get_inv _ _ _ _ _ (dijkstra_reach_inv _ _ _ _ Hr) Hg) as Hi1.
    unfold dijkstra_relax.
    exact (foldl_grow (dijkstra_relax_one cur)
             (fun acc => dijkstra_inv start end_ acc.1 /\
                         (cur = start \/ is_Some (d_came_from acc.1 !! cur)))
             (fun acc x => is_Some (dist acc.1 !! x)) (fun acc x => exists d, (d, x) ∈ pq acc.1)
             (fun a x Ha => dijkstra_relax_one_inv start end_ cur a x Hce Ha)
             (fun a x Ha => dijkstra_relax_one_grow start end_ cur a x (proj1 Ha) (proj2 Ha))
             (nbrs cur) (st1, g0) Hi1).
Qed.

(** *** [a_star]: seen is a key of [g_score], the frontier the nodes of [open_set] *)
Lemma astar_relax_one_grow (heur : pos -> pos -> nat) (start end_ cur : pos)
    (acc : astar_state * colors) (nb : pos) :
  astar_inv start end_ acc.1 -> (cur = start \/ is_Some (a_came_from acc.1 !! cur)) ->
  is_Some (g_score (astar_relax_one heur end_ cur acc nb).1 !! nb) /\
  (forall y, is_Some (g_score acc.1 !! y) ->
     is_Some (g_score (astar_relax_one heur end_ cur acc nb).1 !! y)) /\
  (forall y, y ∈ map snd (open_set acc.1) ->
     y ∈ map snd (open_set (astar_relax_one heur end_ cur acc nb).1)) /\
  (forall y, is_Some (g_score (astar_relax_one heur end_ cur acc nb).1 !! y) ->
     is_Some (g_score acc.1 !! y) \/ y ∈ map snd (open_set (astar_relax_one heur end_ cur acc nb).1)).
Proof.
  destruct acc as [st g]. simpl. intros (Hs0 & _ & Hl & _ & Hh & _ & Hhash & _) Hcd.
  assert (Hgc : is_Some (g_score st !! cur)).
  { destruct Hcd as [->|[v Hv]]; [by eexists|].
    destruct (Hl _ _ Hv) as (_ & _ & gv & gk & _ & Hgk & _). by eexists. }
  unfold astar_relax_one.
  destruct (g_score st !! cur) as [gc|] eqn:Hgc'; [|by destruct Hgc].
  destruct (lt_inf (gc + 1) (g_score st !! nb)) eqn:Hlt; simpl.
  - case_bool_decide as Hin; simpl.
    + split_and!.
      * by rewrite lookup_insert_eq.
      * intros y Hy. rewrite lookup_insert_is_Some'. by right.
      * done.
      * intros y Hy. apply lookup_insert_is_Some' in Hy as [<-|Hy]; [right|by left].
        by apply Hhash.
    + destruct (astar_push_ok (open_set st) (gc + 1 + heur nb end_, count st + 1, nb) Hh)
        as [_ Hperm].
      split_and!.
      * by rewrite lookup_insert_eq.
      * intros y Hy. rewrite lookup_insert_is_Some'. by right.
      * intros y Hy. rewrite (elem_of_map_perm _ _ _ _ Hperm), map_app, elem_of_app. by left.
      * intros y Hy. apply lookup_insert_is_Some' in Hy as [<-|Hy]; [right|by left].
        rewrite (elem_of_map_perm _ _ _ _ Hperm), map_app, elem_of_app. right.
        simpl. by apply list_elem_of_singleton.
  - split_and!; auto. destruct (g_score st !! nb) eqn:E; [by eexists|done].
Qed.

Lemma astar_unreachable (heur : pos -> pos -> nat) (nbrs : pos -> list pos) (start end_ : pos)
    (animate : bool) fuel g src flick o :
  search_loop astar_empty astar_get (astar_relax heur nbrs end_) a_came_from start end_ animate fuel
    (astar_init heur start end_) g ctl_reset src flick [] = Some o ->
  found o = false -> STOP_SEARCH (out_ctl o) = false ->
  forall l, ~ walk nbrs start l end_.
Proof.
  intros Hrun Hf Hs l.
  refine (search_unreachable _ _ _ _ _ _ _ nbrs (fun st x => is_Some (g_score st !! x))
            (fun st x => x ∈ map snd (open_set st)) _ _ _ _ _ _ animate fuel g src flick o
            Hrun Hf Hs l).
  - intros st x He Hx. unfold astar_empty in He. case_bool_decide as Hq; [|done].
    rewrite Hq in Hx. inversion Hx.
  - simpl. rewrite lookup_singleton_eq. by eexists.
  - intros x Hx. simpl in *. destruct (decide (x = start)) as [->|Hne].
    + by apply list_elem_of_singleton.
    + rewrite lookup_singleton_ne in Hx by done. by destruct Hx.
  - intros st cur st1 _ Hg x. unfold astar_get in Hg.
    destruct (Heapq.heappop astar_lt (open_set st)) as [[[[f c] n] rest]|]; [|done].
    by injection Hg as _ <-.
  - intros st cur st1 Hr Hg x Hx Hne.
    destruct (astar_reach_inv _ _ _ _ _ Hr) as (_ & _ & _ & _ & Hh & _).
    unfold astar_get in Hg.
    destruct (Heapq.heappop astar_lt (open_set st)) as [[[[f c] n] rest]|] eqn:Hp; [|done].
    injection Hg as -> <-. destruct (astar_pop_ok _ _ _ Hh Hp) as (_ & _ & Hperm & _).
    simpl. rewrite <- (elem_of_map_perm _ _ _ _ Hperm) in Hx. simpl in Hx.
    apply elem_of_cons in Hx as [Hx|Hx]; [done|done].
  - intros st cur st1 g0 Hr Hg Hce.
    pose proof (astar_get_inv _ _ _ _ _ (astar_reach_inv _ _ _ _ _ Hr) Hg) as Hi1.
    unfold astar_relax.
    exact (foldl_grow (astar_relax_one heur end_ cur)
             (fun acc => astar_inv start end_ acc.1 /\
                         (cur = start \/ is_Some (a_came_from acc.1 !! cur)))
             (fun acc x => is_Some (g_score acc.1 !! x)) (fun acc x => x ∈ map snd (open_set acc.1))
             (fun a x Ha => astar_relax_one_inv heur start end_ cur a x Hce Ha)
             (fun a x Ha => astar_relax_one_grow heur start end_ cur a x (proj1 Ha) (proj2 Ha))
             (nbrs cur) (st1, g0) Hi1).
Qed.

(** When the SPACE handler's search returns [False] without a stop key
    (its frontier ran empty), no cell a walk of unit moves over non-barrier
    cells reaches from [start] is [end]: [end] is unreachable. *)
Theorem unfound_end_unreachable (a : algo) (rows : nat) (g : colors) (start end_ : pos)
    (fuel : nat) (src : events) (flick : list bool) (o : outcome) :
  in_grid rows start = true -> run_algo a rows g start end_ fuel src flick = Some o ->
  found o = false -> STOP_SEARCH (out_ctl o) = false ->
  forall l t, grid_walk rows g start l t -> t <> end_.
Proof.
  intros Hs Hrun Hf Hst l t Hw ->.
  apply (grid_walk_walk rows g start end_) in Hw; [|done].
  unfold run_algo in Hrun. destruct a.
  - unfold a_star, a_star_h, run in Hrun. exact (astar_unreachable _ _ _ _ _ _ _ _ _ _ Hrun Hf Hst l Hw).
  - unfold dijkstra, run in Hrun. exact (dijkstra_unreachable _ _ _ _ _ _ _ _ _ Hrun Hf Hst l Hw).
  - unfold bfs, run in Hrun. exact (bfs_unreachable _ _ _ _ _ _ _ _ _ Hrun Hf Hst l Hw).
  - unfold dfs, run in Hrun. exact (dfs_unreachable _ _ _ _ _ _ _ _ _ Hrun Hf Hst l Hw).
Qed.

Lemma unfound_end_unreachable_witness :
  match run_algo Dijkstra 3 (app_grid (setup 3 (0, 0) (2, 2) [(1, 2); (2, 1)])) (0, 0) (2, 2) 50 [] []
  with
  | Some o =>
      (in_grid 3 (0, 0) = true /\ found o = false /\ STOP_SEARCH (out_ctl o) = false /\
       grid_walk 3 (app_grid (setup 3 (0, 0) (2, 2) [(1, 2); (2, 1)])) (0, 0) [(0, 1); (1, 1)] (1, 1)) /\
      (1, 1) <> (2, 2)
  | None => False
  end.
Proof.
  destruct (run_algo Dijkstra 3 (app_grid (setup 3 (0, 0) (2, 2) [(1, 2); (2, 1)])) (0, 0) (2, 2)
              50 [] []) as [o|] eqn:E.
  - assert (Hf : found o = false) by (vm_compute in E; injection E as <-; reflexivity).
    assert (Hs : STOP_SEARCH (out_ctl o) = false)
      by (vm_compute in E; injection E as <-; reflexivity).
    assert (Hw : grid_walk 3 (app_grid (setup 3 (0, 0) (2, 2) [(1, 2); (2, 1)])) (0, 0)
                   [(0, 1); (1, 1)] (1, 1))
      by (cbn [grid_walk]; split_and!; vm_compute; reflexivity).
    split; [split_and!; [reflexivity|exact Hf|exact Hs|exact Hw]|].
    exact (unfound_end_unreachable Dijkstra 3 _ (0, 0) (2, 2) 50 [] [] o eq_refl E Hf Hs _ _ Hw).
  - vm_compute in E. discriminate.
Defined.
End Completeness.

(** ** [bfs] returns a shortest path *)
Module BfsLayers.
Import NeighborFacts LoopFacts FrontierFacts GridFacts WalkFacts Completeness.

Lemma strongly_sorted_app {A : Type} (R : A -> A -> Prop) (l1 l2 : list A) :
  StronglySorted R l1 -> StronglySorted R l2 -> (forall x y, x ∈ l1 -> y ∈ l2 -> R x y) ->
  StronglySorted R (l1 ++ l2).
Proof.
  induction l1 as [|a l1 IH]; intros H1 H2 H12; simpl; [done|].
  apply StronglySorted_inv in H1 as [H1 Ha]. constructor.
  - apply IH; [done|done|]. intros x y Hx Hy. apply H12; [apply elem_of_cons; by right|done].
  - apply Forall_app. split; [done|]. apply Forall_forall. intros y Hy.
    apply H12; [apply elem_of_cons; by left|done].
Qed.

Lemma strongly_sorted_ext (f f' : pos -> nat) (l : list pos) :
  (forall x, x ∈ l -> f' x = f x) ->
  StronglySorted (fun x y => f x <= f y) l -> StronglySorted (fun x y => f' x <= f' y) l.
Proof.
  intros Hf Hs. induction Hs as [|a l Hs IH Ha]; constructor.
  - apply IH. intros x Hx. apply Hf, elem_of_cons. by right.
  - rewrite Forall_forall in Ha |- *. intros y Hy.
    rewrite (Hf a), (Hf y) by (apply elem_of_cons; auto). by apply Ha.
Qed.

Lemma strongly_sorted_const (f : pos -> nat) (n : nat) (l : list pos) :
  (forall x, x ∈ l -> f x = n) -> StronglySorted (fun x y => f x <= f y) l.
Proof.
  induction l as [|a l IH]; intros Hf; constructor.
  - apply IH. intros x Hx. apply Hf, elem_of_cons. by right.
  - apply Forall_forall. intros y Hy.
    rewrite (Hf a), (Hf y) by (apply elem_of_cons; auto). done.
Qed.

(** A depth [d] for the seen nodes: [start] at depth 0, every link one
    level deeper, the queue sorted by depth and spanning at most two
    levels, a node that left the queue has all its neighbours seen, at
    most one level deeper, and is no deeper than any queued node; [end]
    is seen only while queued. *)
Definition layers (nbrs : pos -> list pos) (start end_ : pos) (st : bfs_state) (d : pos -> nat)
    : Prop :=
  d start = 0 /\
  (forall k v, b_came_from st !! k = Some v -> d k = S (d v)) /\
  NoDup (queue st) /\
  StronglySorted (fun x y => d x <= d y) (queue st) /\
  (forall x y, x ∈ queue st -> y ∈ queue st -> d y <= S (d x)) /\
  (forall c, c ∈ b_visited st -> c ∉ queue st -> forall k, k ∈ nbrs c ->
     k ∈ b_visited st /\ d k <= S (d c)) /\
  (forall c x, c ∈ b_visited st -> c ∉ queue st -> x ∈ queue st -> d c <= d x) /\
  (end_ ∈ b_visited st -> end_ ∈ queue st).

(** What one expansion adds: new queued nodes at the end of the queue,
    unseen before, and links from them to the expanded node. *)
Definition grow_ok (st : bfs_state) (cur : pos) (rest : list pos) (acc : bfs_state * colors)
    : Prop :=
  exists new, queue acc.1 = rest ++ new /\ NoDup new /\ (forall x, x ∈ new -> x ∉ b_visited st) /\
    (forall x, x ∈ b_visited acc.1 <-> x ∈ b_visited st \/ x ∈ new) /\
    (forall k v, b_came_from acc.1 !! k = Some v ->
       b_came_from st !! k = Some v \/ (v = cur /\ k ∈ new)).

Lemma grow_ok_step (st : bfs_state) (cur : pos) (rest : list pos) (acc : bfs_state * colors)
    (nb : pos) :
  grow_ok st cur rest acc -> grow_ok st cur rest (bfs_relax_one cur acc nb).
Proof.
  destruct acc as [s g]. intros (new & Hq & Hnd & Hnew & Hv & Hcf). simpl in *.
  unfold bfs_relax_one. case_bool_decide as Hnb; [by exists new|].
  exists (new ++ [nb]). simpl. split_and!.
  - rewrite Hq. by rewrite app_assoc.
  - apply NoDup_app. split_and!; [done| |apply NoDup_singleton].
    intros x Hx. rewrite list_elem_of_singleton. intros ->. apply Hnb, Hv. by right.
  - intros x. rewrite elem_of_app, list_elem_of_singleton. intros [Hx| ->]; [by apply Hnew|].
    intros Hin. apply Hnb, Hv. by left.
  - intros x. rewrite elem_of_union, elem_of_singleton, Hv, elem_of_app, list_elem_of_singleton.
    tauto.
  - intros k v. rewrite lookup_insert_Some. intros [[<- <-]|[_ Hk]].
    + right. split; [done|]. apply elem_of_app. right. by apply list_elem_of_singleton.
    + destruct (Hcf k v Hk) as [?|[-> Hk']]; [by left|right].
      split; [done|]. apply elem_of_app. by left.
Qed.

Lemma layers_step (nbrs : pos -> list pos) (start end_ : pos) (st st1 : bfs_state) (cur : pos)
    (g : colors) (d : pos -> nat) :
  bfs_inv start end_ st -> layers nbrs start end_ st d -> bfs_get st = Some (cur, st1) ->
  cur <> end_ ->
  layers nbrs start end_ (bfs_relax nbrs cur st1 g).1
    (fun p => if decide (p ∈ b_visited st) then d p else S (d cur)).
Proof.
  intros (Hs & _ & Hkv & Hqv) (H1 & Hlink & Hnd & Hss & Hspr & Hcl & Hcq & Hend) Hg Hce.
  assert (Hget : exists rest, queue st = cur :: rest /\
                   st1 = mkbfs rest (b_came_from st) (b_visited st)).
  { unfold bfs_get in Hg. destruct (queue st) as [|c rest]; [done|].
    injection Hg as -> <-. by exists rest. }
  destruct Hget as (rest & Eq & ->).
  set (d' := fun p => if decide (p ∈ b_visited st) then d p else S (d cur)).
  assert (Hd' : forall p, p ∈ b_visited st -> d' p = d p)
    by (intros p Hp; unfold d'; by rewrite decide_True).
  assert (Hn : forall p, p ∉ b_visited st -> d' p = S (d cur))
    by (intros p Hp; unfold d'; by rewrite decide_False).
  assert (Hinq : forall x, x ∈ queue st <-> x = cur \/ x ∈ rest)
    by (intros x; rewrite Eq, elem_of_cons; done).
  assert (Hcq0 : cur ∈ queue st) by (apply Hinq; by left).
  assert (Hcv : cur ∈ b_visited st) by (by destruct (Hqv cur Hcq0)).
  assert (Hrv : forall x, x ∈ rest -> x ∈ b_visited st)
    by (intros x Hx; destruct (Hqv x); [apply Hinq; by right|done]).
  rewrite Eq in Hnd, Hss. apply NoDup_cons in Hnd as [Hcr Hndr].
  apply StronglySorted_inv in Hss as [Hssr Hfa]. rewrite Forall_forall in Hfa.
  assert (HF : grow_ok st cur rest (bfs_relax nbrs cur (mkbfs rest (b_came_from st) (b_visited st)) g)).
  { unfold bfs_relax. apply (foldl_preserve (grow_ok st cur rest)).
    - intros acc nb. apply grow_ok_step.
    - exists []. simpl. rewrite app_nil_r. split_and!; [done|constructor|set_solver|set_solver|auto]. }
  assert (Hmark : forall k, k ∈ nbrs cur ->
            k ∈ b_visited (bfs_relax nbrs cur (mkbfs rest (b_came_from st) (b_visited st)) g).1).
  { unfold bfs_relax.
    exact (proj1 (foldl_grow (bfs_relax_one cur) (fun _ => True) (fun acc x => x ∈ b_visited acc.1)
             (fun acc x => x ∈ queue acc.1) (fun _ _ _ => I)
             (fun a x _ => bfs_relax_one_grow cur a x) (nbrs cur)
             (mkbfs rest (b_came_from st) (b_visited st), g) I)). }
  fold d'.
  set (acc2 := bfs_relax nbrs cur (mkbfs rest (b_came_from st) (b_visited st)) g) in *.
  clearbody acc2. destruct acc2 as [st2 g2]. simpl in *. destruct HF as (new & Hq2 & Hndn & Hnew & Hv2 & Hcf2).
  simpl in Hq2, Hv2, Hcf2.
  assert (Hc2 : forall c, c ∈ b_visited st2 -> c ∉ queue st2 ->
            c ∈ b_visited st /\ (c = cur \/ c ∉ queue st)).
  { intros c Hc Hcq2. rewrite Hq2 in Hcq2.
    apply Hv2 in Hc as [Hc|Hc]; [|exfalso; apply Hcq2, elem_of_app; by right].
    split; [done|]. destruct (decide (c = cur)) as [->|Hne]; [by left|right].
    rewrite Hinq. intros [?|?]; [done|]. apply Hcq2, elem_of_app. by left. }
  unfold layers. split_and!.
  - rewrite Hd' by done. exact H1.
  - intros k v Hk. destruct (Hcf2 k v Hk) as [Hold|[-> Hkn]].
    + destruct (Hkv _ _ Hold) as [Hk0 Hv0]. rewrite (Hd' k Hk0), (Hd' v Hv0). by apply Hlink.
    + rewrite (Hn k (Hnew k Hkn)), (Hd' cur Hcv). done.
  - rewrite Hq2. apply NoDup_app. split_and!; [done| |done].
    intros x Hx Hx'. by apply (Hnew x Hx'), Hrv.
  - rewrite Hq2. apply strongly_sorted_app.
    + apply (strongly_sorted_ext d); [|done]. intros x Hx. by apply Hd', Hrv.
    + apply (strongly_sorted_const _ (S (d cur))). intros x Hx. by apply Hn, Hnew.
    + intros x y Hx Hy. rewrite (Hd' x (Hrv x Hx)), (Hn y (Hnew y Hy)).
      apply Hspr; [done|apply Hinq; by right].
  - rewrite Hq2. intros x y Hx Hy.
    apply elem_of_app in Hx as [Hx|Hx]; apply elem_of_app in Hy as [Hy|Hy].
    + rewrite (Hd' x (Hrv x Hx)), (Hd' y (Hrv y Hy)). apply Hspr; apply Hinq; by right.
    + rewrite (Hd' x (Hrv x Hx)), (Hn y (Hnew y Hy)). specialize (Hfa x Hx). lia.
    + rewrite (Hn x (Hnew x Hx)), (Hd' y (Hrv y Hy)).
      specialize (Hspr cur y Hcq0 (proj2 (Hinq y) (or_intror Hy))). lia.
    + rewrite (Hn x (Hnew x Hx)), (Hn y (Hnew y Hy)). lia.
  - intros c Hc Hcq2 k Hk. destruct (Hc2 c Hc Hcq2) as [Hc0 [->|Hcq']].
    + split; [by apply Hmark|]. rewrite (Hd' cur Hcv).
      destruct (decide (k ∈ b_visited st)) as [Hk0|Hk0].
      * rewrite (Hd' k Hk0). destruct (decide (k ∈ queue st)) as [Hkq|Hkq].
        -- exact (Hspr cur k Hcq0 Hkq).
        -- specialize (Hcq k cur Hk0 Hkq Hcq0). lia.
      * rewrite (Hn k Hk0). lia.
    + destruct (Hcl c Hc0 Hcq' k Hk) as [Hk0 Hdk]. split; [apply Hv2; by left|].
      rewrite (Hd' k Hk0), (Hd' c Hc0). done.
  - intros c x Hc Hcq2 Hx. destruct (Hc2 c Hc Hcq2) as [Hc0 Hcc].
    rewrite (Hd' c Hc0). rewrite Hq2 in Hx. apply elem_of_app in Hx as [Hx|Hx].
    + rewrite (Hd' x (Hrv x Hx)). destruct Hcc as [->|Hcq'].
      * by apply Hfa.
      * apply Hcq; [done|done|apply Hinq; by right].
    + rewrite (Hn x (Hnew x Hx)). destruct Hcc as [->|Hcq']; [lia|].
      specialize (Hcq c cur Hc0 Hcq' Hcq0). lia.
  - intros He. rewrite Hq2. apply Hv2 in He as [He|He].
    + apply Hinq in Hend as [?|?]; [done|apply elem_of_app; by left|done].
    + apply elem_of_app. by right.
Qed.

Lemma reach_layers (nbrs : pos -> list pos) (start end_ : pos) (st : bfs_state) :
  reach bfs_get (bfs_relax nbrs) end_ (bfs_init start) st -> exists d, layers nbrs start end_ st d.
Proof.
  intros Hr. induction Hr as [|st cur st1 g Hr IH Hg Hce].
  - exists (fun _ => 0). unfold layers; simpl. split_and!.
    + done.
    + intros k v. by rewrite lookup_empty.
    + apply NoDup_singleton.
    + repeat constructor.
    + intros. lia.
    + intros c Hc Hcq. exfalso. apply Hcq. apply elem_of_singleton in Hc. subst.
      by apply list_elem_of_singleton.
    + intros c x Hc Hcq. exfalso. apply Hcq. apply elem_of_singleton in Hc. subst.
      by apply list_elem_of_singleton.
    + intros He. apply elem_of_singleton in He. subst. by apply list_elem_of_singleton.
  - destruct IH as [d Hl]. eexists.
    exact (layers_step nbrs start end_ st st1 cur g d (bfs_reach_inv _ _ _ _ Hr) Hl Hg Hce).
Qed.

(** A walk from a seen node to [end] passes the queue: some queued node
    is at most as deep as the start of the walk plus its length. *)
Lemma layers_walk (nbrs : pos -> list pos) (start end_ : pos) (st : bfs_state) (d : pos -> nat)
    (x : pos) (l : list pos) :
  layers nbrs start end_ st d -> x ∈ b_visited st -> walk nbrs x l end_ ->
  exists q, q ∈ queue st /\ d q <= d x + length l.
Proof.
  intros (_ & _ & _ & _ & _ & Hcl & _ & Hend). revert x.
  induction l as [|y l IH]; intros x Hx Hw; simpl in Hw.
  - subst x. exists end_. split; [by apply Hend|simpl; lia].
  - destruct Hw as [Hy Hw]. destruct (decide (x ∈ queue st)) as [Hq|Hq].
    + exists x. simpl. split; [done|lia].
    + destruct (Hcl x Hx Hq y Hy) as [Hyv Hdy].
      destruct (IH y Hyv Hw) as (q & Hq' & Hdq). exists q. simpl. split; [done|lia].
Qed.

Lemma chain_depth (cf : gmap pos pos) (d : pos -> nat) (x z : pos) (l : list pos) :
  (forall k v, cf !! k = Some v -> d k = S (d v)) -> chain_from cf x l -> last l = Some z ->
  d x = length l + d z.
Proof.
  intros Hl. revert x. induction l as [|v l IH]; intros x Hc Hz; [done|].
  destruct Hc as [Hxv Hc]. rewrite (Hl _ _ Hxv). destruct l as [|w l].
  - simpl in Hz. injection Hz as ->. simpl. lia.
  - rewrite last_cons_cons in Hz. rewrite (IH v Hc Hz). simpl. lia.
Qed.

(** When [bfs] finds [end], its path has no more moves than any walk of
    unit moves over non-barrier cells from [start] to [end]: BFS paths
    are shortest. *)
Theorem bfs_path_shortest (rows : nat) (g : colors) (start end_ : pos) (fuel : nat)
    (src : events) (flick : list bool) (o : outcome) :
  in_grid rows start = true -> run_algo BFS rows g start end_ fuel src flick = Some o ->
  found o = true ->
  forall l, grid_walk rows g start l end_ -> length (out_path o) <= length l.
Proof.
  intros Hs Hrun Hf l Hw.
  apply (grid_walk_walk rows g start end_) in Hw; [|done].
  unfold run_algo, bfs, run in Hrun.
  set (nbrs := update_neighbors rows (space_grid g start end_)) in *.
  destruct (search_loop_found bfs_empty bfs_get (bfs_relax nbrs) b_came_from start end_
              (bfs_init start) true fuel (bfs_init start) _ ctl_reset src flick [] o
              (reach_init _ _ _ _) Hrun Hf)
    as (st' & st1 & g0 & g1 & Hr & Hg & Hrec & _ & _).
  destruct (reach_layers nbrs start end_ st' Hr) as [d Hl].
  pose proof Hl as (H1 & Hlink & _ & Hss & _).
  destruct (bfs_reach_inv _ _ _ _ Hr) as (Hsv & _).
  destruct (bfs_get_ok nbrs start end_ st' end_ st1 Hr Hg) as [Hpred Hcur].
  pose proof Hpred as (Hs0 & _ & rank & Hrank).
  assert (Hch : chain_from (b_came_from st1) end_ (out_path o)).
  { change (out_path o) with (g1, out_path o).2. rewrite <- Hrec.
    by eapply reconstruct_path_chain. }
  destruct (layers_walk nbrs start end_ st' d start l Hl Hsv Hw) as (q & Hq & Hdq).
  rewrite H1 in Hdq.
  assert (Hdend : d end_ <= d q).
  { unfold bfs_get in Hg. destruct (queue st') as [|c rest]; [done|].
    injection Hg as -> _. apply StronglySorted_inv in Hss as [_ Hfa].
    rewrite Forall_forall in Hfa. apply elem_of_cons in Hq as [->|Hq]; [done|by apply Hfa]. }
  destruct (decide (start = end_)) as [<-|Hne].
  - destruct (out_path o) as [|v p]; simpl in Hch; [simpl; lia|].
    destruct Hch as [Hv _]. congruence.
  - destruct Hcur as [?|Hsome]; [congruence|].
    pose proof (chain_from_last start end_ _ _ _ Hpred Hch Hsome) as Hlast.
    rewrite (bfs_get_cf _ _ _ Hg) in Hch.
    pose proof (chain_depth _ d _ _ _ Hlink Hch Hlast) as Hde. lia.
Qed.

Lemma bfs_path_shortest_witness :
  match run_algo BFS 3 (app_grid (setup 3 (0, 0) (2, 2) [(1, 1)])) (0, 0) (2, 2) 50 [] [] with
  | Some o =>
      (in_grid 3 (0, 0) = true /\ found o = true /\
       grid_walk 3 (app_grid (setup 3 (0, 0) (2, 2) [(1, 1)])) (0, 0)
         [(0, 1); (0, 2); (1, 2); (2, 2)] (2, 2)) /\
      length (out_path o) <= 4
  | None => False
  end.
Proof.
  destruct (run_algo BFS 3 (app_grid (setup 3 (0, 0) (2, 2) [(1, 1)])) (0, 0) (2, 2) 50 [] [])
    as [o|] eqn:E.
  - assert (Hf : found o = true) by (vm_compute in E; injection E as <-; reflexivity).
    assert (Hw : grid_walk 3 (app_grid (setup 3 (0, 0) (2, 2) [(1, 1)])) (0, 0)
                   [(0, 1); (0, 2); (1, 2); (2, 2)] (2, 2))
      by (cbn [grid_walk]; split_and!; vm_compute; reflexivity).
    split; [split_and!; [reflexivity|exact Hf|exact Hw]|].
    exact (bfs_path_shortest 3 _ (0, 0) (2, 2) 50 [] [] o eq_refl E Hf _ Hw).
  - vm_compute in E. discriminate.
Defined.
End BfsLayers.

(** ** A search never repaints a barrier *)
Module BarrierFacts.
Import NeighborFacts PulseFacts LoopFacts FrontierFacts LoopInvariant GridFacts WalkFacts RunFacts.

Lemma nbrs_not_barrier (rows : nat) (g : colors) (v k : pos) :
  k ∈ update_neighbors rows g v -> is_barrier g k = false.
Proof.
  destruct v as [r c]. unfold update_neighbors.
  rewrite !elem_of_app, !elem_of_cond_singleton, !andb_true_iff, !negb_true_iff.
  intros [[[_ Hb] ->]|[[[_ Hb] ->]|[[[_ Hb] ->]|[[_ Hb] ->]]]]; exact Hb.
Qed.

(** [reconstruct_path] repaints only the nodes it lists. *)
Lemma reconstruct_go_outside (fuel : nat) (cf : gmap pos pos) (cur : pos) (g : colors)
    (acc : list pos) (p : pos) :
  p ∉ (reconstruct_go fuel cf cur g acc).2 ->
  (p ∉ acc) /\ (reconstruct_go fuel cf cur g acc).1 !! p = g !! p.
Proof.
  revert cur g acc. induction fuel as [|fuel IH]; intros cur g acc Hp; simpl in *; [done|].
  destruct (cf !! cur) as [prev|]; [|done].
  destruct (IH _ _ _ Hp) as [Hacc Hg]. rewrite Hg.
  split; [set_solver|]. rewrite lookup_insert_ne; [done|]. intros ->. apply Hacc. set_solver.
Qed.

Lemma foldl_colors_outside {S : Type} (f : S * colors -> pos -> S * colors) (l : list pos)
    (acc : S * colors) (p : pos) :
  (forall a x, x <> p -> (f a x).2 !! p = a.2 !! p) -> p ∉ l ->
  (foldl f acc l).2 !! p = acc.2 !! p.
Proof.
  intros Hf. revert acc. induction l as [|x l IH]; intros acc Hp; simpl; [done|].
  rewrite IH by set_solver. apply Hf. set_solver.
Qed.

Lemma bfs_relax_outside (nbrs : pos -> list pos) (cur : pos) (st : bfs_state) (g : colors) (p : pos) :
  p ∉ nbrs cur -> (bfs_relax nbrs cur st g).2 !! p = g !! p.
Proof.
  apply (foldl_colors_outside _ _ (st, g)). intros [s g0] x Hx. unfold bfs_relax_one.
  case_bool_decide; simpl; [done|]. by rewrite lookup_insert_ne.
Qed.

Lemma dfs_relax_outside (nbrs : pos -> list pos) (cur : pos) (st : dfs_state) (g : colors) (p : pos) :
  p ∉ nbrs cur -> (dfs_relax nbrs cur st g).2 !! p = g !! p.
Proof.
  apply (foldl_colors_outside _ _ (st, g)). intros [s g0] x Hx. unfold dfs_relax_one.
  case_bool_decide; simpl; [done|]. by rewrite lookup_insert_ne.
Qed.

Lemma dijkstra_relax_outside (nbrs : pos -> list pos) (cur : pos) (st : dijkstra_state) (g : colors)
    (p : pos) :
  p ∉ nbrs cur -> (dijkstra_relax nbrs cur st g).2 !! p = g !! p.
Proof.
  apply (foldl_colors_outside _ _ (st, g)). intros [s g0] x Hx. unfold dijkstra_relax_one.
  destruct (dist s !! cur); simpl; [|done].
  destruct (lt_inf _ _); simpl; [|done]. by rewrite lookup_insert_ne.
Qed.

Lemma astar_relax_outside (heur : pos -> pos -> nat) (nbrs : pos -> list pos) (end_ cur : pos)
    (st : astar_state) (g : colors) (p : pos) :
  p ∉ nbrs cur -> (astar_relax heur nbrs end_ cur st g).2 !! p = g !! p.
Proof.
  apply (foldl_colors_outside _ _ (st, g)). intros [s g0] x Hx. unfold astar_relax_one.
  destruct (g_score s !! cur); simpl; [|done].
  destruct (lt_inf _ _); simpl; [|done].
  case_bool_decide; simpl; [done|]. by rewrite lookup_insert_ne.
Qed.

Section Barriers.
Context {St : Type}.
Variable empty : St -> bool.
Variable get : St -> option (pos * St).
Variable relax : pos -> St -> colors -> St * colors.
Variable came_from : St -> gmap pos pos.
Variables (start end_ : pos) (init : St) (nbrs : pos -> list pos).
(** The barrier cells. *)
Variable B : pos -> Prop.
Hypothesis Hok : get_ok get relax came_from start end_ init.
Hypothesis init_cf : came_from init = ∅.
Hypothesis get_cf : forall st cur st1, get st = Some (cur, st1) -> came_from st1 = came_from st.
Hypothesis relax_links : forall cur st1 g k v, came_from (relax cur st1 g).1 !! k = Some v ->
  came_from st1 !! k = Some v \/ (v = cur /\ k ∈ nbrs cur).
Hypothesis nbrs_B : forall v k, k ∈ nbrs v -> ~ B k.
Hypothesis relax_outside : forall cur st1 g p, p ∉ nbrs cur -> (relax cur st1 g).2 !! p = g !! p.

(** When the loop returns [True], the invariant holds of the state that
    pops [end] and of the grid [reconstruct_path] starts from. *)
Lemma search_loop_inv_found (Inv : St -> colors -> list pos -> Prop)
    (Inv_step : forall st g tr cur st1,
       Inv st g tr -> get st = Some (cur, st1) -> cur <> end_ ->
       Inv (relax cur st1 g).1
           (if decide (cur <> start) then <[cur:=RED]> (relax cur st1 g).2 else (relax cur st1 g).2)
           (tr ++ [cur]))
    (animate : bool) fuel st g c src flick trace o :
  Inv st g trace ->
  search_loop empty get relax came_from start end_ animate fuel st g c src flick trace = Some o ->
  found o = true ->
  exists st' g0 st1 g1, Inv st' g0 (expanded o) /\ get st' = Some (end_, st1) /\
    reconstruct_path (came_from st1) end_ g0 = (g1, out_path o) /\
    out_colors o = (if animate then electric_pulse_path (out_path o) (<[end_:=PURPLE]> g1) 1 flick
                    else <[end_:=PURPLE]> g1).
Proof.
  revert st g c src trace.
  induction fuel as [|fuel IH]; intros st g c src trace Hi Hrun Hf; [discriminate|].
  cbn [search_loop] in Hrun.
  destruct (empty st); [by simplify_eq|].
  destruct (poll c src) as [c1 src1].
  destruct (STOP_SEARCH c1); [by simplify_eq|].
  destruct (pause_wait fuel c1 src1) as [[c2 src2]|]; [|discriminate].
  destruct (STOP_SEARCH c2); [by simplify_eq|].
  destruct (get st) as [[cur st1]|] eqn:Hg; [|discriminate].
  destruct (decide (cur = end_)) as [->|Hne].
  - destruct (reconstruct_path (came_from st1) end_ g) as [g1 p] eqn:Hrec.
    simplify_eq/=. by exists st, g, st1, g1.
  - pose proof (Inv_step st g trace cur st1 Hi Hg Hne) as Hi'.
    destruct (relax cur st1 g) as [st2 g1]. simpl in Hi'.
    exact (IH _ _ _ _ _ Hi' Hrun Hf).
Qed.

Definition P_cell (q : pos) : Prop := q = start \/ ~ B q.

Lemma search_keeps_barriers (animate : bool) fuel g src flick o :
  (forall p, B p -> p <> start -> g !! p = Some BLACK) ->
  search_loop empty get relax came_from start end_ animate fuel init g ctl_reset src flick [] = Some o ->
  forall p, B p -> p <> start -> out_colors o !! p = Some BLACK.
Proof.
  intros Hg0 Hrun p Hp Hps.
  assert (P_start : P_cell start) by by left.
  assert (P_nbrs : forall v k, P_cell v -> k ∈ nbrs v -> P_cell k)
    by (intros v k _ Hk; right; exact (nbrs_B _ _ Hk)).
  set (Inv := fun (st : St) (gc : colors) (_ : list pos) => reach get relax end_ init st /\
                forall p, B p -> p <> start -> gc !! p = Some BLACK).
  assert (Hstep : forall st gc tr cur st1, Inv st gc tr -> get st = Some (cur, st1) -> cur <> end_ ->
    Inv (relax cur st1 gc).1
      (if decide (cur <> start) then <[cur:=RED]> (relax cur st1 gc).2 else (relax cur st1 gc).2)
      (tr ++ [cur])).
  { intros st gc tr cur st1 [Hr Hb] Hg Hne. split; [by econstructor|].
    intros q Hq Hqs.
    assert (Hcur : cur = start \/ ~ B cur).
    { destruct (popped_ok _ _ _ _ _ _ nbrs P_cell Hok get_cf st cur st1 Hr
                  (reach_links _ _ _ _ _ _ nbrs P_cell Hok P_start P_nbrs init_cf get_cf
                     relax_links st Hr) Hg) as [->|(v & _ & Hin & _)]; [by left|].
      right. exact (nbrs_B _ _ Hin). }
    assert (Hqn : q ∉ nbrs cur) by (intros Hin; exact (nbrs_B _ _ Hin Hq)).
    destruct (decide (cur <> start)) as [Hcs|Hcs].
    - rewrite lookup_insert_ne by (intros ->; destruct Hcur; contradiction).
      rewrite relax_outside by done. by apply Hb.
    - rewrite relax_outside by done. by apply Hb. }
  assert (H0 : Inv init g []) by (split; [apply reach_init|exact Hg0]).
  destruct (found o) eqn:Hf.
  - destruct (search_loop_inv_found Inv Hstep animate fuel init g ctl_reset src flick [] o H0 Hrun Hf)
      as (st' & g0 & st1 & g1 & [Hr Hb] & Hg & Hrec & ->).
    pose proof (reach_links _ _ _ _ _ _ nbrs P_cell Hok P_start P_nbrs init_cf get_cf
                  relax_links st' Hr) as Hl.
    assert (Hpath : p ∉ out_path o).
    { intros Hin. pose proof (Hok _ _ _ Hr Hg) as [(_ & _ & rank & Hrank) _].
      assert (Hch : chain_from (came_from st1) end_ (out_path o)).
      { change (out_path o) with (g1, out_path o).2. rewrite <- Hrec.
        by eapply reconstruct_path_chain. }
      destruct (chain_from_values _ _ _ Hch p Hin) as [k Hk].
      rewrite (get_cf _ _ _ Hg) in Hk. destruct (Hl _ _ Hk) as (_ & [?|?] & _); contradiction. }
    assert (Hend : p <> end_).
    { intros ->. destruct (popped_ok _ _ _ _ _ _ nbrs P_cell Hok get_cf st' end_ st1 Hr Hl Hg)
        as [?|(v & _ & Hin & _)]; [contradiction|exact (nbrs_B _ _ Hin Hp)]. }
    assert (Hg1 : g1 !! p = Some BLACK).
    { unfold reconstruct_path in Hrec.
      pose proof (reconstruct_go_outside (size (came_from st1)) (came_from st1) end_ g0 [] p)
        as Hout. rewrite Hrec in Hout. simpl in Hout. destruct (Hout Hpath) as [_ ->]. by apply Hb. }
    destruct animate.
    + rewrite electric_pulse_path_lookup, decide_False by done. by rewrite lookup_insert_ne.
    + by rewrite lookup_insert_ne.
  - destruct (search_loop_inv empty get relax came_from start end_ Inv Hstep animate fuel init g
                ctl_reset src flick [] o H0 eq_refl Hrun)
      as (st' & g' & [_ Hb] & [(_ & -> & _)|[? _]]); [by apply Hb|congruence].
Qed.
End Barriers.

(** The SPACE handler's search, found or not, never repaints a barrier
    cell other than [start]: it stays [BLACK]. *)
Theorem run_keeps_barriers (a : algo) (rows : nat) (g : colors) (start end_ : pos) (fuel : nat)
    (src : events) (flick : list bool) (o : outcome) (p : pos) :
  run_algo a rows g start end_ fuel src flick = Some o ->
  is_barrier g p = true -> p <> start -> out_colors o !! p = Some BLACK.
Proof.
  intros Hrun Hp Hps.
  pose proof (run_algo_get_ok a rows g start end_) as Hok.
  set (B := fun q => is_barrier g q = true).
  assert (HnB : forall v k, k ∈ update_neighbors rows (space_grid g start end_) v -> ~ B k).
  { intros v k Hk. unfold B. apply nbrs_not_barrier in Hk.
    rewrite space_grid_barrier in Hk. congruence. }
  assert (Hg0 : forall q, B q -> q <> start -> space_grid g start end_ !! q = Some BLACK).
  { intros q Hq _. unfold B, is_barrier in Hq. case_bool_decide as Hq'; [|done].
    unfold space_grid. rewrite map_lookup_imap, Hq'. simpl. done. }
  unfold run_algo in Hrun. destruct a; simpl in Hok.
  - unfold a_star, a_star_h, run in Hrun.
    exact (search_keeps_barriers _ _ _ _ _ _ _ _ B Hok eq_refl astar_get_cf
             (astar_relax_links h _ end_) HnB (astar_relax_outside h _ end_) _ _ _ _ _ _ Hg0 Hrun
             p Hp Hps).
  - unfold dijkstra, run in Hrun.
    exact (search_keeps_barriers _ _ _ _ _ _ _ _ B Hok eq_refl dijkstra_get_cf
             (dijkstra_relax_links _) HnB (dijkstra_relax_outside _) _ _ _ _ _ _ Hg0 Hrun
             p Hp Hps).
  - unfold bfs, run in Hrun.
    exact (search_keeps_barriers _ _ _ _ _ _ _ _ B Hok eq_refl bfs_get_cf
             (bfs_relax_links _) HnB (bfs_relax_outside _) _ _ _ _ _ _ Hg0 Hrun p Hp Hps).
  - unfold dfs, run in Hrun.
    exact (search_keeps_barriers _ _ _ _ _ _ _ _ B Hok eq_refl dfs_get_cf
             (dfs_relax_links _) HnB (dfs_relax_outside _) _ _ _ _ _ _ Hg0 Hrun p Hp Hps).
Qed.

Lemma run_keeps_barriers_witness :
  match run_algo AStar 3 (app_grid (setup 3 (0, 0) (2, 2) [(1, 1)])) (0, 0) (2, 2) 50 [] [] with
  | Some o =>
      (is_barrier (app_grid (setup 3 (0, 0) (2, 2) [(1, 1)])) (1, 1) = true /\ (1, 1) <> (0, 0)) /\
      out_colors o !! (1, 1) = Some BLACK
  | None => False
  end.
Proof.
  destruct (run_algo AStar 3 (app_grid (setup 3 (0, 0) (2, 2) [(1, 1)])) (0, 0) (2, 2) 50 [] [])
    as [o|] eqn:E.
  - assert (Hb : is_barrier (app_grid (setup 3 (0, 0) (2, 2) [(1, 1)])) (1, 1) = true)
      by (vm_compute; reflexivity).
    assert (Hne : (1, 1) <> (0, 0)) by (intros Heq; discriminate Heq).
    split; [split; [exact Hb|exact Hne]|].
    exact (run_keeps_barriers AStar 3 _ (0, 0) (2, 2) 50 [] [] o (1, 1) E Hb Hne).
  - vm_compute in E. discriminate.
Defined.
End BarrierFacts.

(** ** [dijkstra] returns a shortest path *)
Module DijkstraShortest.
Import NeighborFacts LoopFacts FrontierFacts GridFacts WalkFacts Completeness.

(** Every node with a distance is queued at that distance or has all its
    neighbours at most one further; every queue entry is at least the
    distance of its node; [end], once it has a distance, is queued at it. *)
Definition settled (nbrs : pos -> list pos) (end_ : pos) (st : dijkstra_state) : Prop :=
  (forall c dc, dist st !! c = Some dc ->
     (dc, c) ∈ pq st \/ forall k, k ∈ nbrs c -> exists dk, dist st !! k = Some dk /\ dk <= S dc) /\
  (forall d x, (d, x) ∈ pq st -> exists dx, dist st !! x = Some dx /\ dx <= d) /\
  (forall de, dist st !! end_ = Some de -> (de, end_) ∈ pq st).

(** How the relaxations of one expansion change the state [st1] they
    start from. *)
Definition relaxed_from (st1 : dijkstra_state) (cur : pos) (acc : dijkstra_state * colors) : Prop :=
  dist acc.1 !! cur = dist st1 !! cur /\
  (forall x dx, dist st1 !! x = Some dx -> exists dx', dist acc.1 !! x = Some dx' /\ dx' <= dx) /\
  (forall e, e ∈ pq st1 -> e ∈ pq acc.1) /\
  (forall x dx, dist acc.1 !! x = Some dx -> dist st1 !! x = Some dx \/ (dx, x) ∈ pq acc.1) /\
  (forall d x, (d, x) ∈ pq acc.1 -> exists dx, dist acc.1 !! x = Some dx /\ dx <= d).

Lemma foldl_inv_marks {A : Type} (f : A -> pos -> A) (Q : A -> Prop) (M : A -> pos -> Prop) :
  (forall a x, Q a -> Q (f a x)) -> (forall a x, Q a -> M (f a x) x) ->
  (forall a x y, Q a -> M a y -> M (f a x) y) ->
  forall l a, Q a -> Q (foldl f a l) /\ forall k, k ∈ l -> M (foldl f a l) k.
Proof.
  intros HQ HM Hmono. induction l as [|x l IH]; intros a Ha; simpl.
  - split; [done|]. intros k Hk. inversion Hk.
  - destruct (IH (f a x) (HQ a x Ha)) as [HQl HMl]. split; [done|].
    intros k Hk. apply elem_of_cons in Hk as [<-|Hk]; [|by apply HMl].
    assert (Hgen : forall l' b, Q b -> M b k -> M (foldl f b l') k).
    { induction l' as [|y l' IH']; intros b Hb Hm; simpl; [done|].
      apply IH'; [by apply HQ|by apply Hmono]. }
    apply Hgen; [by apply HQ|by apply HM].
Qed.

Lemma dijkstra_relax_one_settle (start end_ cur : pos) (dc : nat) (acc : dijkstra_state * colors)
    (nb : pos) :
  dist acc.1 !! cur = Some dc -> HeapqFacts.heap_ok dijkstra_lt (pq acc.1) ->
  dist (dijkstra_relax_one cur acc nb).1 !! cur = dist acc.1 !! cur /\
  (forall x dx, dist acc.1 !! x = Some dx ->
     exists dx', dist (dijkstra_relax_one cur acc nb).1 !! x = Some dx' /\ dx' <= dx) /\
  (forall e, e ∈ pq acc.1 -> e ∈ pq (dijkstra_relax_one cur acc nb).1) /\
  (forall x dx, dist (dijkstra_relax_one cur acc nb).1 !! x = Some dx ->
     dist acc.1 !! x = Some dx \/ (dx, x) ∈ pq (dijkstra_relax_one cur acc nb).1) /\
  ((forall d x, (d, x) ∈ pq acc.1 -> exists dx, dist acc.1 !! x = Some dx /\ dx <= d) ->
   forall d x, (d, x) ∈ pq (dijkstra_relax_one cur acc nb).1 ->
     exists dx, dist (dijkstra_relax_one cur acc nb).1 !! x = Some dx /\ dx <= d) /\
  (exists dn, dist (dijkstra_relax_one cur acc nb).1 !! nb = Some dn /\ dn <= S dc).
Proof.
  destruct acc as [st g]. simpl. intros Hdc Hh. unfold dijkstra_relax_one. rewrite Hdc.
  destruct (lt_inf (dc + 1) (dist st !! nb)) eqn:Hlt; simpl.
  - assert (Hlt' : forall d, dist st !! nb = Some d -> dc + 1 < d).
    { intros d Hd. rewrite Hd in Hlt. simpl in Hlt. by apply Nat.ltb_lt. }
    assert (Hnc : nb <> cur) by (intros ->; specialize (Hlt' _ Hdc); lia).
    destruct (dijkstra_push_ok (pq st) (dc + 1, nb) Hh) as [_ Hperm].
    split_and!.
    + by rewrite lookup_insert_ne.
    + intros x dx Hx. destruct (decide (x = nb)) as [->|Hne].
      * exists (dc + 1). rewrite lookup_insert_eq. specialize (Hlt' _ Hx). split; [done|lia].
      * exists dx. by rewrite lookup_insert_ne.
    + intros e He. rewrite Hperm. apply elem_of_app. by left.
    + intros x dx. rewrite lookup_insert_Some. intros [[<- <-]|[Hne Hx]]; [|by left].
      right. rewrite Hperm. apply elem_of_app. right. by apply list_elem_of_singleton.
    + intros H2 d x. rewrite Hperm, elem_of_app, list_elem_of_singleton.
      intros [Hx|Hx].
      * destruct (H2 d x Hx) as (dx & Hdx & Hle). destruct (decide (x = nb)) as [->|Hne].
        -- exists (dc + 1). rewrite lookup_insert_eq. specialize (Hlt' _ Hdx). split; [done|lia].
        -- exists dx. by rewrite lookup_insert_ne.
      * injection Hx as -> ->. exists (dc + 1). by rewrite lookup_insert_eq.
    + exists (dc + 1). rewrite lookup_insert_eq. split; [done|lia].
  - split_and!; auto.
    + intros x dx Hx. by exists dx.
    + destruct (dist st !! nb) as [dn|] eqn:E; [|done]. simpl in Hlt.
      apply Nat.ltb_ge in Hlt. exists dn. split; [done|lia].
Qed.

Lemma settled_step (nbrs : pos -> list pos) (start end_ : pos) (st st1 : dijkstra_state) (cur : pos)
    (g : colors) :
  dijkstra_inv start end_ st -> settled nbrs end_ st -> dijkstra_get st = Some (cur, st1) ->
  cur <> end_ -> settled nbrs end_ (dijkstra_relax nbrs cur st1 g).1.
Proof.
  intros Hi (S1 & S2 & S3) Hg Hce.
  pose proof (dijkstra_get_inv _ _ _ _ _ Hi Hg) as Hi1.
  pose proof Hi as (_ & _ & _ & _ & Hh).
  unfold dijkstra_get in Hg.
  destruct (Heapq.heappop dijkstra_lt (pq st)) as [[[d0 c0] rest]|] eqn:Hp; [|done].
  injection Hg as -> <-. destruct (dijkstra_pop_ok _ _ _ Hh Hp) as (_ & _ & Hperm & _).
  simpl in Hi1.
  assert (Hdc : is_Some (dist st !! cur)).
  { destruct (S2 d0 cur) as (dx & Hdx & _); [rewrite <- Hperm; set_solver|by eexists]. }
  destruct Hdc as [dc Hdc].
  set (st1 := mkdijkstra rest (dist st) (d_came_from st)) in *.
  set (Q := fun acc : dijkstra_state * colors =>
              (dijkstra_inv start end_ acc.1 /\ (cur = start \/ is_Some (d_came_from acc.1 !! cur))) /\
              relaxed_from st1 cur acc).
  set (M := fun (acc : dijkstra_state * colors) k =>
              exists dk, dist acc.1 !! k = Some dk /\ dk <= S dc).
  assert (HQ0 : Q (st1, g)).
  { split; [exact Hi1|]. unfold relaxed_from; simpl. split_and!.
    - done.
    - intros x dx Hx. by exists dx.
    - intros e He. exact He.
    - intros x dx Hx. by left.
    - intros d x Hx. apply S2. rewrite <- Hperm. set_solver. }
  assert (Hstep : forall a x, Q a ->
            Q (dijkstra_relax_one cur a x) /\ M (dijkstra_relax_one cur a x) x /\
            forall y, M a y -> M (dijkstra_relax_one cur a x) y).
  { intros a x [Ha (Rc & Rd & Rq & Rb & R2)].
    assert (Hdca : dist a.1 !! cur = Some dc) by (rewrite Rc; exact Hdc).
    destruct (dijkstra_relax_one_settle start end_ cur dc a x Hdca (proj2 (proj2 (proj2 (proj2 (proj1 Ha))))))
      as (Ec & Ed & Eq & Eb & E2 & En).
    split_and!.
    - split; [by apply dijkstra_relax_one_inv|]. split_and!.
      + by rewrite Ec.
      + intros y dy Hy. destruct (Rd y dy Hy) as (dy' & Hy' & Hle).
        destruct (Ed y dy' Hy') as (dy'' & Hy'' & Hle'). exists dy''. split; [done|lia].
      + intros e He. by apply Eq, Rq.
      + intros y dy Hy. destruct (Eb y dy Hy) as [Hy'|Hy']; [|by right].
        destruct (Rb y dy Hy') as [?|?]; [by left|right; by apply Eq].
      + by apply E2.
    - exact En.
    - intros y (dy & Hy & Hle). destruct (Ed y dy Hy) as (dy' & Hy' & Hle').
      exists dy'. split; [done|lia]. }
  destruct (foldl_inv_marks (dijkstra_relax_one cur) Q M
              (fun a x Ha => proj1 (Hstep a x Ha)) (fun a x Ha => proj1 (proj2 (Hstep a x Ha)))
              (fun a x y Ha => proj2 (proj2 (Hstep a x Ha)) y) (nbrs cur) (st1, g) HQ0)
    as [[_ (Rc & Rd & Rq & Rb & R2)] Hmark].
  fold (dijkstra_relax nbrs cur st1 g) in Rc, Rd, Rq, Rb, R2, Hmark.
  set (st2 := (dijkstra_relax nbrs cur st1 g).1) in *.
  unfold M in Hmark. simpl in Hmark. fold st2 in Hmark.
  assert (Hrest : forall e, e ∈ pq st -> e <> (d0, cur) -> e ∈ pq st2).
  { intros e He Hne. apply Rq. rewrite <- Hperm in He. apply elem_of_cons in He as [?|?]; done. }
  split_and!.
  - intros c dc2 Hc2. destruct (Rb c dc2 Hc2) as [Hc1|]; [|by left]. simpl in Hc1.
    destruct (S1 c dc2 Hc1) as [Hq|Hall].
    + destruct (decide ((dc2, c) = (d0, cur))) as [Heq|Hne]; [|left; by apply Hrest].
      injection Heq as -> ->. right. intros k Hk. rewrite Hdc in Hc1. injection Hc1 as ->.
      by apply Hmark.
    + right. intros k Hk. destruct (Hall k Hk) as (dk & Hdk & Hle).
      destruct (Rd k dk Hdk) as (dk' & Hdk' & Hle'). exists dk'. split; [done|lia].
  - exact R2.
  - intros de Hde. destruct (Rb end_ de Hde) as [He1|]; [|done]. simpl in He1.
    apply Hrest; [by apply S3|]. intros Heq. injection Heq as _ ->. done.
Qed.

Lemma reach_settled (nbrs : pos -> list pos) (start end_ : pos) (st : dijkstra_state) :
  reach dijkstra_get (dijkstra_relax nbrs) end_ (dijkstra_init start) st -> settled nbrs end_ st.
Proof.
  induction 1 as [|st cur st1 g Hr IH Hg Hce].
  - unfold settled; simpl. split_and!.
    + intros c dc Hc. left. destruct (decide (c = start)) as [->|Hne].
      * rewrite lookup_singleton_eq in Hc. injection Hc as <-. by apply list_elem_of_singleton.
      * by rewrite lookup_singleton_ne in Hc.
    + intros d x Hx. apply list_elem_of_singleton in Hx. injection Hx as -> ->.
      exists 0. by rewrite lookup_singleton_eq.
    + intros de Hde. destruct (decide (end_ = start)) as [->|Hne].
      * rewrite lookup_singleton_eq in Hde. injection Hde as <-. by apply list_elem_of_singleton.
      * by rewrite lookup_singleton_ne in Hde.
  - exact (settled_step nbrs start end_ st st1 cur g (dijkstra_reach_inv _ _ _ _ Hr) IH Hg Hce).
Qed.

(** A walk to [end] from a node at distance [dx] meets a queue entry of
    key at most [dx] plus its length. *)
Lemma settled_walk (nbrs : pos -> list pos) (end_ : pos) (st : dijkstra_state) (x : pos) (dx : nat)
    (l : list pos) :
  settled nbrs end_ st -> dist st !! x = Some dx -> walk nbrs x l end_ ->
  exists e, e ∈ pq st /\ e.1 <= dx + length l.
Proof.
  intros (S1 & _ & S3). revert x dx. induction l as [|y l IH]; intros x dx Hx Hw; simpl in Hw.
  - subst x. exists (dx, end_). split; [by apply S3|simpl; lia].
  - destruct Hw as [Hy Hw]. destruct (S1 x dx Hx) as [Hq|Hall].
    + exists (dx, x). split; [done|simpl; lia].
    + destruct (Hall y Hy) as (dy & Hdy & Hle).
      destruct (IH y dy Hdy Hw) as (e & He & Hle'). exists e. split; [done|simpl in *; lia].
Qed.

Lemma chain_dist (cf : gmap pos pos) (dm : gmap pos nat) (x : pos) (dx : nat) (l : list pos) :
  (forall k v, cf !! k = Some v -> exists dv dk, dm !! v = Some dv /\ dm !! k = Some dk /\ dv < dk) ->
  chain_from cf x l -> dm !! x = Some dx -> length l <= dx.
Proof.
  intros Hl. revert x dx. induction l as [|v l IH]; intros x dx Hc Hx; simpl; [lia|].
  destruct Hc as [Hxv Hc]. destruct (Hl _ _ Hxv) as (dv & dk & Hdv & Hdk & Hlt).
  rewrite Hx in Hdk. injection Hdk as <-. specialize (IH v dv Hc Hdv). lia.
Qed.

(** When [dijkstra] finds [end], its path has no more moves than any walk
    of unit moves over non-barrier cells from [start] to [end]: its
    paths are shortest, unlike those of [a_star]. *)
Theorem dijkstra_path_shortest (rows : nat) (g : colors) (start end_ : pos) (fuel : nat)
    (src : events) (flick : list bool) (o : outcome) :
  in_grid rows start = true -> run_algo Dijkstra rows g start end_ fuel src flick = Some o ->
  found o = true ->
  forall l, grid_walk rows g start l end_ -> length (out_path o) <= length l.
Proof.
  intros Hs Hrun Hf l Hw.
  apply (grid_walk_walk rows g start end_) in Hw; [|done].
  unfold run_algo, dijkstra, run in Hrun.
  set (nbrs := update_neighbors rows (space_grid g start end_)) in *.
  destruct (search_loop_found dijkstra_empty dijkstra_get (dijkstra_relax nbrs) d_came_from start end_
              (dijkstra_init start) true fuel (dijkstra_init start) _ ctl_reset src flick [] o
              (reach_init _ _ _ _) Hrun Hf)
    as (st' & st1 & g0 & g1 & Hr & Hg & Hrec & _ & _).
  pose proof (dijkstra_reach_inv _ _ _ _ Hr) as Hi.
  pose proof Hi as (Hs0 & _ & Hlinks & _ & Hh).
  pose proof (reach_settled nbrs start end_ st' Hr) as Hset.
  destruct (settled_walk nbrs end_ st' start 0 l Hset Hs0 Hw) as (e & He & Hle).
  pose proof Hg as Hg'. unfold dijkstra_get in Hg'.
  destruct (Heapq.heappop dijkstra_lt (pq st')) as [[[d0 c0] rest]|] eqn:Hp; [|done].
  injection Hg' as -> <-.
  destruct (dijkstra_pop_ok _ _ _ Hh Hp) as (_ & _ & Hperm & Hmin).
  assert (Hd0 : d0 <= e.1).
  { specialize (Hmin e He). unfold dijkstra_lt in Hmin. simpl in Hmin.
    apply Nat.ltb_ge in Hmin. done. }
  pose proof Hset as (_ & S2 & _).
  destruct (S2 d0 end_) as (de & Hde & Hde0); [rewrite <- Hperm; set_solver|].
  destruct (dijkstra_get_ok nbrs start end_ st' end_ _ Hr Hg) as [(_ & _ & rank & Hrank) _].
  assert (Hch : chain_from (d_came_from st') end_ (out_path o)).
  { change (out_path o) with (g1, out_path o).2. rewrite <- Hrec. simpl.
    by eapply reconstruct_path_chain. }
  pose proof (chain_dist (d_came_from st') (dist st') end_ de (out_path o)) as Hcd.
  assert (Hlk : forall k v, d_came_from st' !! k = Some v ->
                  exists dv dk, dist st' !! v = Some dv /\ dist st' !! k = Some dk /\ dv < dk).
  { intros k v Hk. by destruct (Hlinks k v Hk) as (_ & _ & ?). }
  specialize (Hcd Hlk Hch Hde). lia.
Qed.

Lemma dijkstra_path_shortest_witness :
  match run_algo Dijkstra 4 (app_grid (setup 4 (0, 0) (3, 3) [(1, 1); (2, 2)])) (0, 0) (3, 3) 100 [] []
  with
  | Some o =>
      (in_grid 4 (0, 0) = true /\ found o = true /\
       grid_walk 4 (app_grid (setup 4 (0, 0) (3, 3) [(1, 1); (2, 2)])) (0, 0)
         [(0, 1); (0, 2); (0, 3); (1, 3); (2, 3); (3, 3)] (3, 3)) /\
      length (out_path o) <= 6
  | None => False
  end.
Proof.
  destruct (run_algo Dijkstra 4 (app_grid (setup 4 (0, 0) (3, 3) [(1, 1); (2, 2)])) (0, 0) (3, 3)
              100 [] []) as [o|] eqn:E.
  - assert (Hf : found o = true) by (vm_compute in E; injection E as <-; reflexivity).
    assert (Hw : grid_walk 4 (app_grid (setup 4 (0, 0) (3, 3) [(1, 1); (2, 2)])) (0, 0)
                   [(0, 1); (0, 2); (0, 3); (1, 3); (2, 3); (3, 3)] (3, 3))
      by (cbn [grid_walk]; split_and!; vm_compute; reflexivity).
    split; [split_and!; [reflexivity|exact Hf|exact Hw]|].
    exact (dijkstra_path_shortest 4 _ (0, 0) (3, 3) 100 [] [] o eq_refl E Hf _ Hw).
  - vm_compute in E. discriminate.
Defined.
End DijkstraShortest.
